(** * jird: a shallow embedding of the compiler core

    The development follows the Python sources [jird/core.py],
    [jird/midi.py] and [jird/lilypond.py].

    Conventions of the embedding.
    - A Python exception is a value [Raise e] of the result type [py];
      a function that can raise returns in [py].
    - [fractions.Fraction] is [Q].  Python keeps fractions in lowest
      terms, so every arithmetic result is passed through [Qred].
    - [int] is [Z]; Python strings are lists of characters ([pystr]).
    - Floating point is not computed.  The float [b ** (m / n)] of
      [Power.evaluate] is kept by name ([NPower b m n]); whether it
      raises, whether it is zero, what [round(edo * math.log2(x))] and
      [floor(log2(n))] give are the fields of the class [Floats], and
      the statements hold for every value of the fields, so for IEEE
      doubles with their range and rounding.  The exact counterparts
      (module [Exact]) are mathematics beside the program; they fill the
      class for the sample inputs. *)

From Stdlib Require Import ZArith QArith Qround Qfield Qpower String Ascii.
From Stdlib Require Import Lia Bool.
From Stdlib Require Import DecimalString.
From Stdlib Require Import List Sorted Permutation.
Import ListNotations.

Set Warnings "-register-all".
Local Open Scope Z_scope.

(** ** Python results *)

Module Py.

Inductive exn : Set :=
| ValueError
| AssertionError
| ZeroDivisionError
| TypeError
| IndexError
| AttributeError
| OverflowError
| NotImplementedError.

Inductive py (A : Type) : Type :=
| Ok (a : A)
| Raise (e : exn).

Arguments Ok {A} a.
Arguments Raise {A} e.

Definition bind {A B : Type} (c : py A) (k : A -> py B) : py B :=
  match c with
  | Ok a => k a
  | Raise e => Raise e
  end.

Definition raises {A : Type} (c : py A) : Prop :=
  exists e, c = Raise e.

(** [assert cond] *)
Definition assert (cond : bool) : py unit :=
  if cond then Ok tt else Raise AssertionError.

Section MapM.
Context {A B : Type} (f : A -> py B).

(** A comprehension [[f(x) for x in xs]] whose body can raise: the
    elements are visited in order and the first exception wins. *)
Fixpoint mapM (xs : list A) : py (list B) :=
  match xs with
  | [] => Ok []
  | x :: xs' =>
      bind (f x) (fun y => bind (mapM xs') (fun ys => Ok (y :: ys)))
  end.
End MapM.

(** Python strings *)
Definition pystr : Type := list ascii.

Definition str (s : string) : pystr := list_ascii_of_string s.

(** [sep.join(parts)] *)
Fixpoint join (sep : pystr) (parts : list pystr) : pystr :=
  match parts with
  | [] => []
  | [p] => p
  | p :: ps => p ++ sep ++ join sep ps
  end.

(** [str(n)] for an [int] *)
Definition str_of_int (n : Z) : pystr :=
  str (NilZero.string_of_int (Z.to_int n)).

End Py.

Import Py.

Declare Scope py_scope.
Delimit Scope py_scope with py.
Notation "x <- c ;; k" := (bind c (fun x => k))
  (at level 61, c at next level, right associativity) : py_scope.
Notation "c ;;; k" := (bind c (fun _ => k))
  (at level 61, right associativity) : py_scope.
Local Open Scope py_scope.

(** ** jird.core: the rational algebra and the music representation *)

Module Core.

Definition Fraction : Type := Q.

(** [Fraction.__mul__] and [Fraction.__add__] *)
Definition frac_mul (a b : Fraction) : Fraction := Qred (a * b).
Definition frac_add (a b : Fraction) : Fraction := Qred (a + b).

(** [class RatioProduct]: the tuple of ratios making up the product *)
Record RatioProduct : Type := mkRatioProduct { ratios : list Fraction }.

(** [class Power]: the unevaluated power [base ** (num / den)] *)
Record Power : Type := mkPower {
  base : Z;
  exponent_numerator : Z;
  exponent_denominator : Z
}.

(** [Union[RatioProduct, Fraction, Power]], the type of [Note.frequency] *)
Inductive Frequency : Type :=
| FRatio (r : RatioProduct)
| FFraction (q : Fraction)
| FPower (p : Power).

(** [Union[RatioProduct, Fraction]], the type of [Note.duration] and
    [Note.volume] *)
Inductive Quantity : Type :=
| QRatio (r : RatioProduct)
| QFraction (q : Fraction).

Record Note : Type := mkNote {
  frequency : Frequency;
  duration : Quantity;
  volume : Quantity
}.

(** [Music = Union[Note, Chord, Part, Piece]]: the code tells the
    shapes apart with [isinstance(music, tuple)] (Chord, Piece) and
    [isinstance(music, list)] (Part), at any nesting depth. *)
Inductive Music : Type :=
| MNote (n : Note)
| MTuple (xs : list Music)
| MList (xs : list Music).

(** [Number = Union[Fraction, float]]: what [evaluate] returns.
    [NPower b m n] stands for the float [b ** (m / n)], whose value is
    not computed; [NInf] is [float("inf")]. *)
Inductive Number : Type :=
| NFraction (q : Fraction)
| NPower (b m n : Z)
| NInf.

(** [prod(quantities, initializer)]: [reduce(operator.mul, ...)] *)
Definition prod (quantities : list Fraction) (initializer : Fraction)
  : Fraction :=
  fold_left frac_mul quantities initializer.

(** *** Floating point

    The program leaves exact arithmetic in a few places: [Power.evaluate]
    computes the float [base ** (num / den)], [temper_note] rounds
    [edo * math.log2(x)], and [lilypond_duration] takes
    [floor(log2(odd_factor))].  IEEE doubles are not computed here: the
    outcome of each of these expressions is a field of the class
    [Floats], and a statement of this development holds for every way of
    filling the fields, so also for the doubles of the interpreter.
    What Python fixes whatever the doubles are (the exception of a
    division by zero, the order of evaluation, which exception leaves
    first) is written out in the definitions that use the fields. *)
Class Floats : Type := {
  (** the exception [base ** (num / den)] leaves with, for [den <> 0]:
      [OverflowError] when the quotient or the power is out of the
      range of floats, [ZeroDivisionError] for zero to a negative
      power; [None] when the power is computed *)
  power_raises : Z -> Z -> Z -> option exn;
  (** [x == 0] for the float (or complex) [x = base ** (num / den)] *)
  power_is_zero : Z -> Z -> Z -> bool;
  (** the exception of [math.log2(x)] for a fraction [x <= 0]:
      [ValueError], or [OverflowError] when [x] is out of the range of
      floats *)
  log2_error : Fraction -> exn;
  (** [round(edo * math.log2(x))] for a fraction [0 < x], as
      [fraction_steps edo x]: it raises when [x] is out of the range of
      floats or underflows to [0.0] *)
  fraction_steps : Z -> Fraction -> py Z;
  (** [round(edo * math.log2(x))] for [x = base ** (num / den)], as
      [power_steps edo base num den] *)
  power_steps : Z -> Z -> Z -> Z -> py Z;
  (** [floor(log2(n))] for an integer [1 <= n]; the logarithm of such
      an integer is not negative *)
  floor_log2 : Z -> N;
  (** [log2(1)] is [0.0] *)
  floor_log2_one : floor_log2 1 = 0%N
}.

Section FloatingPoint.
Context {fl : Floats}.

(** [RatioProduct.evaluate] *)
Definition RatioProduct_evaluate (r : RatioProduct) : Fraction :=
  prod (ratios r) 1%Q.

(** [Power.evaluate]: [self.base ** (num / den)].  The division raises
    for a zero denominator; the power itself raises as the floats
    decide. *)
Definition Power_evaluate (p : Power) : py Number :=
  let b := base p in
  let m := exponent_numerator p in
  let n := exponent_denominator p in
  if n =? 0 then Raise ZeroDivisionError
  else match power_raises b m n with
       | Some e => Raise e
       | None => Ok (NPower b m n)
       end.

(** [evaluate(quantity)] at the two field types *)
Definition evaluate_quantity (q : Quantity) : Fraction :=
  match q with
  | QRatio r => RatioProduct_evaluate r
  | QFraction x => x
  end.

Definition evaluate (f : Frequency) : py Number :=
  match f with
  | FRatio r => Ok (NFraction (RatioProduct_evaluate r))
  | FFraction x => Ok (NFraction x)
  | FPower p => Power_evaluate p
  end.

(** [x == 0] on an evaluated number: exact on a fraction, the
    comparison of floats on a power *)
Definition is_zero (x : Number) : bool :=
  match x with
  | NFraction q => Qeq_bool q 0
  | NPower b m n => power_is_zero b m n
  | NInf => false
  end.

(** [round(edo * math.log2(x))] for a [Fraction] [x].  [math.log2]
    converts [x] to a float first and raises outside its domain, so
    for every [x <= 0]. *)
Definition steps_of_fraction (edo : Z) (x : Fraction) : py Z :=
  if Qle_bool x 0 then Raise (log2_error x)
  else fraction_steps edo x.

(** [round(edo * math.log2(frequency))] for an evaluated frequency.
    [math.log2(inf)] is [inf]: [round] raises [OverflowError] on an
    infinite product and [ValueError] on [0 * inf]. *)
Definition steps_of_number (edo : Z) (frequency : Number) : py Z :=
  match frequency with
  | NFraction x => steps_of_fraction edo x
  | NPower b m n => power_steps edo b m n
  | NInf => if edo =? 0 then Raise ValueError else Raise OverflowError
  end.

(** *** Tempering *)

(** [sum(...)] of integers, from the initial value [0] *)
Definition sum_int (xs : list Z) : Z := fold_left Z.add xs 0.

(** [temper_note(note, edo=edo)] *)
Definition temper_note (edo : Z) (note : Note) : py Note :=
  f <- evaluate (frequency note) ;;
  if is_zero f then Ok note
  else
    n <- match frequency note with
         | FRatio r =>
             steps <- mapM (steps_of_fraction edo) (ratios r) ;;
             Ok (sum_int steps)
         | _ => steps_of_number edo f
         end ;;
    Ok {| frequency := FPower (mkPower 2 n edo);
          duration := duration note;
          volume := volume note |}.

(** [apply_to_notes(music, f)], for an [f] that returns a [Note] *)
Fixpoint apply_to_notes (f : Note -> py Note) (music : Music) : py Music :=
  match music with
  | MNote n => n' <- f n ;; Ok (MNote n')
  | MTuple xs => xs' <- mapM (apply_to_notes f) xs ;; Ok (MTuple xs')
  | MList xs => xs' <- mapM (apply_to_notes f) xs ;; Ok (MList xs')
  end.

(** [temper(music, edo=edo)]; [edo] is [Optional[int]] *)
Definition temper (edo : option Z) (music : Music) : py Music :=
  match edo with
  | None => Ok music
  | Some e => apply_to_notes (temper_note e) music
  end.

(** *** Analysis of music *)

(** [max(...)] of a non-empty iterable of fractions: the first
    element, replaced by every later element that is greater. *)
Definition max_frac (x : Fraction) (xs : list Fraction) : Fraction :=
  fold_left (fun best y => if Qle_bool y best then best else y) xs x.

(** [sum(...)] of fractions, from the initial value [0] *)
Definition sum_frac (xs : list Fraction) : Fraction :=
  fold_left frac_add xs 0%Q.

(** [total_duration(music)] *)
Fixpoint total_duration (music : Music) : Fraction :=
  match music with
  | MNote n => evaluate_quantity (duration n)
  | MTuple xs =>
      match map total_duration xs with
      | [] => 0%Q
      | d :: ds => max_frac d ds
      end
  | MList xs =>
      match xs with
      | [] => 0%Q
      | _ => sum_frac (map total_duration xs)
      end
  end.

(** [max(...)] of a non-empty iterable of integers *)
Definition max_int (x : Z) (xs : list Z) : Z :=
  fold_left (fun best y => if y <=? best then best else y) xs x.

(** [height(music)] *)
Fixpoint height (music : Music) : Z :=
  match music with
  | MNote _ => 1
  | MTuple xs =>
      match xs with
      | [] => 0
      | _ => sum_int (map height xs)
      end
  | MList xs =>
      match map height xs with
      | [] => 0
      | h :: hs => max_int h hs
      end
  end.

Section Ordering.

(** Python's [==] and [<] between evaluated numbers (fractions and
    floats mixed); the analysis functions use nothing else of them. *)
Variable num_eqb : Number -> Number -> bool.
Variable num_ltb : Number -> Number -> bool.

(** A [set] of numbers is kept as the list of its members, without
    repetition up to [==]. *)
Definition set_add (s : list Number) (x : Number) : list Number :=
  if existsb (num_eqb x) s then s else s ++ [x].

(** [set(iterable)] *)
Definition set_of (xs : list Number) : list Number :=
  fold_left set_add xs [].

(** [frequencies_set(music)] *)
Fixpoint frequencies_set (music : Music) : py (list Number) :=
  match music with
  | MNote n =>
      f <- evaluate (frequency n) ;;
      Ok (if is_zero f then [] else [f])
  | MTuple xs =>
      sets <- mapM frequencies_set xs ;; Ok (set_of (concat sets))
  | MList xs =>
      sets <- mapM frequencies_set xs ;; Ok (set_of (concat sets))
  end.

(** [sorted(iterable)]: a stable sort that compares with [<] only *)
Fixpoint insert_sorted (x : Number) (l : list Number) : list Number :=
  match l with
  | [] => [x]
  | y :: l' =>
      if num_ltb x y then x :: y :: l' else y :: insert_sorted x l'
  end.

Definition sorted (xs : list Number) : list Number :=
  fold_left (fun acc x => insert_sorted x acc) xs [].

(** [all_frequencies(music)] *)
Definition all_frequencies (music : Music) : py (list Number) :=
  s <- frequencies_set music ;; Ok (sorted s).

(** [min(...)] of a non-empty iterable of numbers *)
Definition min_number (x : Number) (xs : list Number) : Number :=
  fold_left (fun best y => if num_ltb y best then y else best) xs x.

Definition min_of (xs : list Number) : py Number :=
  match xs with
  | [] => Raise ValueError
  | x :: xs' => Ok (min_number x xs')
  end.

(** [lowest(music)] *)
Fixpoint lowest (music : Music) : py Number :=
  match music with
  | MNote n =>
      f <- evaluate (frequency n) ;;
      Ok (if is_zero f then NInf else f)
  | MTuple xs =>
      match xs with
      | [] => Ok NInf
      | _ => ls <- mapM lowest xs ;; min_of ls
      end
  | MList xs =>
      match xs with
      | [] => Ok NInf
      | _ => ls <- mapM lowest xs ;; min_of ls
      end
  end.

End Ordering.

(** *** Multiplying frequencies: [NoteTransformer.mult_expr] *)

(** The argument of [RatioProduct(...)]: a tuple of fractions, a
    fraction, a ratio product, or something else; the only other
    value that reaches it is a [Power]. *)
Inductive RatioArg : Type :=
| ArgTuple (t : list Fraction)
| ArgFraction (q : Fraction)
| ArgRatioProduct (r : RatioProduct)
| ArgPower (p : Power).

(** [RatioProduct.__init__] *)
Definition RatioProduct_init (arg : RatioArg) : py RatioProduct :=
  match arg with
  | ArgTuple t => Ok (mkRatioProduct t)
  | ArgFraction q => Ok (mkRatioProduct [q])
  | ArgRatioProduct r => Ok (mkRatioProduct (ratios r))
  | ArgPower _ => Raise ValueError
  end.

(** [RatioProduct.__mul__]:
    [RatioProduct(self.ratios + RatioProduct(other).ratios)] *)
Definition RatioProduct_mul (self : RatioProduct) (other : RatioArg)
  : py RatioProduct :=
  o <- RatioProduct_init other ;;
  RatioProduct_init (ArgTuple (ratios self ++ ratios o)).

(** [Power.__rmul__] *)
Definition Power_rmul (self : Power) (other : RatioArg) : py Power :=
  Raise NotImplementedError.

Definition arg_of_frequency (f : Frequency) : RatioArg :=
  match f with
  | FRatio r => ArgRatioProduct r
  | FFraction q => ArgFraction q
  | FPower p => ArgPower p
  end.

(** [prod(ratio_products, RatioProduct())] *)
Definition prod_ratio_products (rs : list RatioProduct) : py RatioProduct :=
  fold_left
    (fun acc r => a <- acc ;; RatioProduct_mul a (ArgRatioProduct r))
    rs (RatioProduct_init (ArgTuple [])).

(** A child of a [mult_expr] node: a ratio product or music *)
Inductive Child : Type :=
| CRatio (r : RatioProduct)
| CMusic (m : Music).

(** [children[-1]] *)
Definition last_child (children : list Child) : py Child :=
  match rev children with
  | [] => Raise IndexError
  | c :: _ => Ok c
  end.

(** [NoteTransformer.mult_expr(children)] *)
Definition mult_expr (children : list Child) : py Music :=
  let ratios := removelast children in
  music <- last_child children ;;
  ratio_products <-
    mapM (fun x => match x with
                   | CRatio r => Ok r
                   | CMusic _ => Raise AssertionError
                   end) ratios ;;
  m <- match music with
       | CRatio _ => Raise AssertionError
       | CMusic m => Ok m
       end ;;
  multiplier <- prod_ratio_products ratio_products ;;
  apply_to_notes
    (fun x =>
       left <- RatioProduct_init (ArgRatioProduct multiplier) ;;
       f <- RatioProduct_mul left (arg_of_frequency (frequency x)) ;;
       Ok {| frequency := FRatio f;
             duration := duration x;
             volume := volume x |})
    m.

(** *** Shapes of music used in the statements *)

(** Every note of [music] is a rest: its frequency evaluates to zero. *)
Fixpoint only_rests (music : Music) : bool :=
  match music with
  | MNote n =>
      match evaluate (frequency n) with
      | Ok f => is_zero f
      | Raise _ => false
      end
  | MTuple xs => forallb only_rests xs
  | MList xs => forallb only_rests xs
  end.

(** Some note of [music] is already tempered: its frequency is a [Power]. *)
Fixpoint has_power_note (music : Music) : bool :=
  match music with
  | MNote n =>
      match frequency n with
      | FPower _ => true
      | _ => false
      end
  | MTuple xs => existsb has_power_note xs
  | MList xs => existsb has_power_note xs
  end.

(** Every frequency in [music] is a ratio product of non-negative
    fractions, as the parser builds them from unsigned integers. *)
Fixpoint from_parser (music : Music) : bool :=
  match music with
  | MNote n =>
      match frequency n with
      | FRatio r => forallb (Qle_bool 0) (ratios r)
      | _ => false
      end
  | MTuple xs => forallb from_parser xs
  | MList xs => forallb from_parser xs
  end.

End FloatingPoint.

End Core.

Export Core.

(** ** jird.core: the rest of the rational algebra and of [NoteTransformer] *)

Module Transformer.

(** [RatioProduct.__rmul__]:
    [RatioProduct(RatioProduct(other).ratios + self.ratios)] *)
Definition RatioProduct_rmul (self : RatioProduct) (other : RatioArg)
  : py RatioProduct :=
  o <- RatioProduct_init other ;;
  RatioProduct_init (ArgTuple (ratios o ++ ratios self)).

(** [==] between two tuples of fractions: same length, equal members *)
Fixpoint tuple_eqb (xs ys : list Fraction) : bool :=
  match xs, ys with
  | [], [] => true
  | x :: xs', y :: ys' => Qeq_bool x y && tuple_eqb xs' ys'
  | _, _ => false
  end.

(** [RatioProduct.__eq__]: [False] for an operand that is not a ratio
    product, a tuple or a fraction; otherwise the factor tuples are
    compared. *)
Definition RatioProduct_eq (self : RatioProduct) (other : RatioArg) : bool :=
  match RatioProduct_init other with
  | Ok o => tuple_eqb (ratios self) (ratios o)
  | Raise _ => false
  end.

(** [Fraction(x, y)] with [y] possibly [None] *)
Definition Fraction_new (x : Z) (y : option Z) : py Fraction :=
  match y with
  | None => Ok (inject_Z x)
  | Some d =>
      if d =? 0 then Raise ZeroDivisionError
      else Ok (Qred (inject_Z x / inject_Z d))
  end.

(** [NoteTransformer.ratio(children)]: [x, y = children] *)
Definition ratio (children : list (option Z)) : py RatioProduct :=
  match children with
  | [x; y] =>
      match x with
      | None => Raise AssertionError
      | Some x' =>
          q <- Fraction_new x' y ;; RatioProduct_init (ArgFraction q)
      end
  | _ => Raise ValueError
  end.

(** [NoteTransformer.ratio_product(children)] *)
Definition ratio_product (children : list RatioProduct) : py RatioProduct :=
  prod_ratio_products children.

(** the volume of a new note: [volume if volume is not None else Fraction(1)] *)
Definition volume_or_one (volume : option RatioProduct) : Quantity :=
  match volume with
  | Some v => QRatio v
  | None => QFraction 1%Q
  end.

(** [NoteTransformer.note(children)]:
    [frequency, duration, volume = children]; the result is a list that
    holds the one note. *)
Definition note (children : list (option RatioProduct)) : py (list Music) :=
  match children with
  | [frequency; duration; volume] =>
      match frequency, duration with
      | None, _ => Raise AssertionError
      | Some _, None => Raise AssertionError
      | Some f, Some d =>
          Ok [MNote {| frequency := FRatio f;
                       duration := QRatio d;
                       volume := volume_or_one volume |}]
      end
  | _ => Raise ValueError
  end.

(** [children[-2]] and [children[-1]] *)
Definition from_end {A : Type} (xs : list A) (k : nat) : py A :=
  match nth_error (rev xs) (k - 1) with
  | Some x => Ok x
  | None => Raise IndexError
  end.

(** [NoteTransformer.chord(children)]: the frequencies are
    [children[:-2]], the duration [children[-2]] and the volume
    [children[-1]]; the result is a list that holds the one tuple of
    notes. *)
Definition chord (children : list (option RatioProduct)) : py (list Music) :=
  let frequencies := firstn (length children - 2) children in
  duration <- from_end children 2 ;;
  volume <- from_end children 1 ;;
  d <- match duration with
       | Some d => Ok d
       | None => Raise AssertionError
       end ;;
  notes <- mapM (fun f =>
                   match f with
                   | None => Raise AssertionError
                   | Some f' =>
                       Ok (MNote {| frequency := FRatio f';
                                    duration := QRatio d;
                                    volume := volume_or_one volume |})
                   end) frequencies ;;
  Ok [MTuple notes].

(** [NoteTransformer.part(children)]:
    [list(chain.from_iterable(children))] *)
Definition part (children : list (list Music)) : Music :=
  MList (concat children).

(** [NoteTransformer.music(children)]: [tuple(children)] *)
Definition music (children : list Music) : Music := MTuple children.

(** An operand of [NoteTransformer.power]: music or a ratio product *)
Definition RatioProduct_of_quantity (q : Quantity) : RatioArg :=
  match q with
  | QRatio r => ArgRatioProduct r
  | QFraction x => ArgFraction x
  end.

(** [NoteTransformer.power(children)]:
    [music, volume_multiplier = children] *)
Definition power (children : list Child) : py Music :=
  match children with
  | [music; volume_multiplier] =>
      m <- match music with
           | CRatio _ => Raise AssertionError
           | CMusic m => Ok m
           end ;;
      multiplier <- match volume_multiplier with
                    | CRatio r => Ok r
                    | CMusic _ => Raise AssertionError
                    end ;;
      apply_to_notes
        (fun x =>
           v <- RatioProduct_mul multiplier
                  (RatioProduct_of_quantity (volume x)) ;;
           Ok {| frequency := frequency x;
                 duration := duration x;
                 volume := QRatio v |})
        m
  | _ => Raise ValueError
  end.

(** *** Shapes used in the statements *)

(** the notes of a music value, in order *)
Fixpoint notes_of (music : Music) : list Note :=
  match music with
  | MNote n => [n]
  | MTuple xs => flat_map notes_of xs
  | MList xs => flat_map notes_of xs
  end.

End Transformer.

Import Transformer.

(** ** jird.core: the interval table *)

Module Intervals.

(** [x / y] between fractions *)
Definition frac_div (x y : Fraction) : py Fraction :=
  if Qeq_bool y 0 then Raise ZeroDivisionError else Ok (Qred (x / y)).

(** [interval_table(frequencies)] for exact frequencies:
    [[[evaluate(x / y) for x in frequencies] for y in frequencies]] *)
Definition interval_table (frequencies : list Fraction)
  : py (list (list Fraction)) :=
  mapM (fun y => mapM (fun x => frac_div x y) frequencies) frequencies.

(** *** Shapes used in the statements *)

(** the entry in row [i] and column [j] *)
Definition entry (table : list (list Fraction)) (i j : nat) : Fraction :=
  nth j (nth i table []) 0%Q.

End Intervals.

Import Intervals.

(** ** jird.midi: the MIDI encoder *)

Module Midi.

(** *** [jird.constants] *)

Definition DIVISION : Z := 960 * 7.
Definition PITCH_BEND_MAX : Z := 16383.     (* 0x3FFF *)
Definition PITCH_BEND_CENTER : Z := 8192.   (* 0x2000 *)

Definition END_OF_TRACK : pystr := str "00FF2F00".

(** *** Formatting integers *)

(** A string of binary digits is a list of bits, most significant first;
    hexadecimal output is kept as characters. *)
Definition bitstr : Type := list bool.

Fixpoint bits_of_pos (p : positive) : bitstr :=
  match p with
  | xH => [true]
  | xO q => bits_of_pos q ++ [false]
  | xI q => bits_of_pos q ++ [true]
  end.

(** the digits of [f"{n:b}"] for [n >= 0] *)
Definition format_b (n : Z) : bitstr :=
  match n with
  | Zpos p => bits_of_pos p
  | _ => [false]
  end.

(** the digits of [f"{n:0{width}b}"] for [n >= 0] *)
Definition format_0b (width : nat) (n : Z) : bitstr :=
  let digits := format_b n in
  repeat false (width - length digits) ++ digits.

(** [int(bits, base=2)] *)
Definition int_of_bits (bits : bitstr) : Z :=
  fold_left (fun acc b => 2 * acc + Z.b2z b) bits 0.

(** [s[lo:hi]] for [0 <= lo <= hi] *)
Definition slice {A : Type} (s : list A) (lo hi : nat) : list A :=
  firstn (hi - lo) (skipn lo s).

Definition hex_digit (d : Z) : ascii :=
  nth (Z.to_nat d) (str "0123456789ABCDEF") "0"%char.

Fixpoint hex_digits (fuel : nat) (n : Z) (acc : pystr) : pystr :=
  match fuel with
  | O => acc
  | S fuel' =>
      if n =? 0 then acc
      else hex_digits fuel' (n / 16) (hex_digit (n mod 16) :: acc)
  end.

(** the digits of [f"{n:X}"] for [n >= 0] *)
Definition hex_of_nonneg (n : Z) : pystr :=
  if n =? 0 then str "0"
  else hex_digits (S (Z.to_nat (Z.log2 n))) n [].

(** [f"{n:0{width}X}"]: the sign comes first and the zeros fill the
    rest of the width; [width = 0] is plain [f"{n:X}"]. *)
Definition format_0X (width : nat) (n : Z) : pystr :=
  let sign := if n <? 0 then str "-" else [] in
  let digits := hex_of_nonneg (Z.abs n) in
  sign ++ repeat "0"%char (width - length sign - length digits) ++ digits.

Definition format_X (n : Z) : pystr := format_0X 0 n.

(** *** [track_header], [set_program] *)

Definition track_header (track_hex : pystr) : py pystr :=
  let n_bytes := Z.of_nat (length track_hex) / 2 in
  let remainder := Z.of_nat (length track_hex) mod 2 in
  assert (remainder =? 0) ;;;
  Ok (str "4d54726b" ++ format_0X 8 n_bytes).

Definition set_program (program : Z) (channels : list Z) : pystr :=
  concat (map (fun i => str "00C" ++ format_X i ++ format_0X 2 (program - 1))
              channels).

(** *** [variable_length_quantity] *)

(** [math.ceil(len(bit_string) / 7)] *)
Definition n_bytes_of (bit_string : bitstr) : nat :=
  (length bit_string + 6) / 7.

Definition byte_strings (padded_bit_string : bitstr) (n_bytes : nat)
  : list bitstr :=
  map (fun i => (i <? n_bytes - 1)%nat
                :: slice padded_bit_string (7 * i) (7 * (i + 1)))
      (seq 0 n_bytes).

(** the bytes of the quantity, before they are printed in hexadecimal *)
Definition vlq_bytes (n : Z) : list Z :=
  let bit_string := format_b n in
  let n_bytes := n_bytes_of bit_string in
  let padded_bit_string := format_0b (n_bytes * 7) n in
  map int_of_bits (byte_strings padded_bit_string n_bytes).

Definition vlq_hex (n : Z) : pystr :=
  concat (map (format_0X 2) (vlq_bytes n)).

(** [variable_length_quantity(n)].  For a negative [n] the bit string
    starts with a sign, which [int(b, base=2)] rejects in the first
    byte string. *)
Definition variable_length_quantity (n : Z) : py pystr :=
  if n <? 0 then Raise ValueError else Ok (vlq_hex n).

(** *** The standard decoder, for the round trip *)

Definition hex_value (c : ascii) : option Z :=
  let k := Z.of_nat (nat_of_ascii c) in
  if (48 <=? k) && (k <=? 57) then Some (k - 48)
  else if (65 <=? k) && (k <=? 70) then Some (k - 55)
  else if (97 <=? k) && (k <=? 102) then Some (k - 87)
  else None.

(** [bytes.fromhex(s)] *)
Fixpoint bytes_fromhex (s : pystr) : option (list Z) :=
  match s with
  | [] => Some []
  | hi :: lo :: rest =>
      match hex_value hi, hex_value lo, bytes_fromhex rest with
      | Some h, Some l, Some bs => Some (16 * h + l :: bs)
      | _, _, _ => None
      end
  | _ => None
  end.

(** Reading a variable-length quantity as the MIDI file format defines
    it: seven value bits per byte, most significant group first, the
    top bit telling that another byte follows. *)
Fixpoint vlq_decode_from (acc : Z) (bytes : list Z) : option (Z * list Z) :=
  match bytes with
  | [] => None
  | b :: rest =>
      let acc' := Z.lor (Z.shiftl acc 7) (Z.land b 127) in
      if Z.testbit b 7 then vlq_decode_from acc' rest else Some (acc', rest)
  end.

Definition vlq_decode (bytes : list Z) : option (Z * list Z) :=
  vlq_decode_from 0 bytes.

(** *** [fourteen_bit] *)

(** Only the last fourteen digits of [f"{n:016b}"] are used, and the
    sign of a negative [n] is never among them. *)
Definition fourteen_bit (n : Z) : pystr :=
  let bit_string := format_0b 16 (Z.abs n) in
  let len := length bit_string in
  let least := slice bit_string (len - 7) len in
  let most := slice bit_string (len - 14) (len - 7) in
  let new_bit_string := [false] ++ least ++ [false] ++ most in
  format_0X 4 (int_of_bits new_bit_string).

(** *** [MidiNote] and [Note.to_midi] *)

Record MidiNote : Type := mkMidiNote {
  pitch : Z;
  bend : option Z;
  ticks : Z;
  velocity : Z
}.

(** the constructor with the checks of [__post_init__] *)
Definition MidiNote_new (pitch : Z) (bend : option Z) (ticks velocity : Z)
  : py MidiNote :=
  assert ((0 <=? pitch) && (pitch <=? 127)) ;;;
  match bend with
  | Some b => assert ((0 <=? b) && (b <=? 2 ^ 14 - 1))
  | None => Ok tt
  end ;;;
  assert ((0 <=? velocity) && (velocity <=? 127)) ;;;
  Ok (mkMidiNote pitch bend ticks velocity).

(** [round(x)] for a [Fraction]: ties go to the even neighbour *)
Definition round_fraction (x : Fraction) : Z :=
  let f := Qfloor x in
  let twice := Qfloor (2 * x) - 2 * f in
  if twice =? 0 then f
  else if Qeq_bool (2 * x) (inject_Z (2 * f + 1))
       then (if Z.even f then f else f + 1)
       else f + 1.

(** [int(x)] for a [Fraction]: truncation towards zero *)
Definition int_of_fraction (x : Fraction) : Z :=
  Z.quot (Qnum x) (Zpos (Qden x)).

Section Encoder.
Context {fl : Floats}.

(** The floating-point part of [Note.to_midi] is left open: [float]
    is the type of [f0]; [real_frequency_is_zero f f0] is the test
    [evaluate(self.frequency) * f0 == 0]; [pitch_and_bend f f0 range]
    is the pair [(pitch, bend)] computed from
    [12 * math.log2(real_frequency / MIDDLE_C_FREQUENCY)], and raises
    where [math.log2] does. *)
Variable float : Type.
Variable real_frequency_is_zero : Number -> float -> bool.
Variable pitch_and_bend : Number -> float -> Z -> py (Z * Z).

(** [Note.to_midi(f0=..., pitch_bend_range=...)] *)
Definition to_midi (note : Note) (f0 : float) (pitch_bend_range : Z)
  : py MidiNote :=
  let duration := evaluate_quantity (duration note) in
  let ticks := frac_mul duration (inject_Z DIVISION) in
  assert (Qeq_bool (inject_Z (int_of_fraction ticks)) ticks) ;;;
  let ticks := int_of_fraction ticks in
  f <- evaluate (frequency note) ;;
  if real_frequency_is_zero f f0
  then MidiNote_new 0 (Some PITCH_BEND_CENTER) ticks 0
  else
    pb <- pitch_and_bend f f0 pitch_bend_range ;;
    let velocity :=
      Z.min (round_fraction
               (frac_mul (evaluate_quantity (volume note)) (inject_Z 64)))
            127 in
    MidiNote_new (fst pb) (Some (snd pb)) ticks velocity.

(** [n.to_midi(...)] on an element of a chord: only a [Note] has the
    method. *)
Definition element_to_midi (f0 : float) (pitch_bend_range : Z) (x : Music)
  : py MidiNote :=
  match x with
  | MNote n => to_midi n f0 pitch_bend_range
  | _ => Raise AttributeError
  end.

(** [(notes,)] unless [notes] is a tuple already *)
Definition as_chord (notes : Music) : list Music :=
  match notes with
  | MTuple xs => xs
  | _ => [notes]
  end.

Definition pitch_bend_event (nc : MidiNote * Z) : py pystr :=
  match bend (fst nc) with
  | None => Raise AssertionError
  | Some b =>
      Ok (str "00" ++ str "E" ++ format_X (snd nc) ++ fourteen_bit b)
  end.

Definition note_on_event (nc : MidiNote * Z) : pystr :=
  str "009" ++ format_X (snd nc) ++ format_0X 2 (pitch (fst nc))
      ++ format_0X 2 (velocity (fst nc)).

Definition note_off_event (ticks : Z) (channels : list Z)
           (nc : MidiNote * Z) : py pystr :=
  delta <- (if snd nc =? hd 0 channels
            then variable_length_quantity ticks
            else Ok (str "00")) ;;
  Ok (delta ++ str "8" ++ format_X (snd nc)
            ++ format_0X 2 (pitch (fst nc)) ++ str "00").

(** [chord_to_midi(notes, f0=..., channels=..., pitch_bend_range=...)] *)
Definition chord_to_midi (notes : Music) (f0 : float) (channels : list Z)
           (pitch_bend_range : Z) : py pystr :=
  let notes := as_chord notes in
  midi_notes <- mapM (element_to_midi f0 pitch_bend_range) notes ;;
  assert (length (nodup Z.eq_dec (map ticks midi_notes)) =? 1)%nat ;;;
  let ticks := ticks (hd (mkMidiNote 0 None 0 0) midi_notes) in
  assert (length midi_notes <=? length channels)%nat ;;;
  let notes_with_channels := combine midi_notes channels in
  pitch_bends <- mapM pitch_bend_event notes_with_channels ;;
  let note_ons := map note_on_event notes_with_channels in
  note_offs <- mapM (note_off_event ticks channels) notes_with_channels ;;
  Ok (concat (pitch_bends ++ note_ons ++ note_offs)).

(** the elements a [for x in music] loop visits *)
Definition iterate (music : Music) : py (list Music) :=
  match music with
  | MNote _ => Raise TypeError
  | MTuple xs => Ok xs
  | MList xs => Ok xs
  end.

(** [midi_track(music, f0=..., channels=..., program=...,
    pitch_bend_range=...)] *)
Definition midi_track (music : Music) (f0 : float) (channels : list Z)
           (program : option Z) (pitch_bend_range : Z) : py pystr :=
  let program_change :=
    match program with
    | Some p => set_program p channels
    | None => []
    end in
  xs <- iterate music ;;
  chords <- mapM (fun x => chord_to_midi x f0 channels pitch_bend_range)
                 xs ;;
  let body := program_change ++ concat chords in
  let body := body ++ END_OF_TRACK in
  header <- track_header body ;;
  Ok (header ++ body).

(** [[i for i in range(16) if i not in {0, 9}]] *)
Definition all_channels : list Z :=
  filter (fun i => negb ((i =? 0) || (i =? 9)))
         (map Z.of_nat (seq 0 16)).

(** [programs[n] if n < len(programs) else programs[-1]] *)
Definition program_at (programs : list (option Z)) (n : nat)
  : py (option Z) :=
  if (n <? length programs)%nat then Ok (nth n programs None)
  else match rev programs with
       | [] => Raise IndexError
       | p :: _ => Ok p
       end.

(** The loop of [part_midi_tracks]: [n] counts the parts done,
    [program], [lowest_index], [midi_tracks] and [part_channels] are
    the variables the loop updates. *)
Fixpoint part_loop (f0 : float) (programs : option (list (option Z)))
         (pitch_bend_range : Z) (parts : list Music) (n : nat)
         (program : option Z) (lowest_index : nat)
         (midi_tracks : list pystr) (part_channels : list (list Z))
  : py (list pystr * list (list Z)) :=
  match parts with
  | [] => Ok (midi_tracks, part_channels)
  | part :: rest =>
      program <- match programs with
                 | Some ps => program_at ps n
                 | None => Ok program
                 end ;;
      let n_channels := Z.to_nat (height part) in
      assert (lowest_index <=? length all_channels - 1)%nat ;;;
      let channels :=
        slice all_channels lowest_index (lowest_index + n_channels) in
      track <- midi_track part f0 channels program pitch_bend_range ;;
      part_loop f0 programs pitch_bend_range rest (S n) program
                (lowest_index + n_channels)
                (midi_tracks ++ [track]) (part_channels ++ [channels])
  end.

(** [part_midi_tracks(music, f0, programs, pitch_bend_range)] *)
Definition part_midi_tracks (music : Music) (f0 : float)
           (programs : option (list (option Z))) (pitch_bend_range : Z)
  : py (list pystr * list (list Z)) :=
  parts <- iterate music ;;
  part_loop f0 programs pitch_bend_range parts 0 None 0 [] [].

End Encoder.

(** *** Shapes used in the statements *)

(** The events of a chord, as the MIDI file format names them.  A
    note-off carries its delta time; the other two are sent with delta
    time zero. *)
Inductive Event : Type :=
| PitchBend (channel bend : Z)
| NoteOn (channel pitch velocity : Z)
| NoteOff (delta channel pitch : Z).

Definition render (e : Event) : pystr :=
  match e with
  | PitchBend c b => str "00" ++ str "E" ++ format_X c ++ fourteen_bit b
  | NoteOn c p v => str "009" ++ format_X c ++ format_0X 2 p ++ format_0X 2 v
  | NoteOff d c p =>
      vlq_hex d ++ str "8" ++ format_X c ++ format_0X 2 p ++ str "00"
  end.

(** the bend of a note that has one *)
Definition bend_of (m : MidiNote) : Z :=
  match bend m with
  | Some b => b
  | None => 0
  end.

(** the events of a chord: the bends, the note-ons, then the note-offs,
    of which the first carries [ticks] and the others zero *)
Definition chord_events (ticks : Z) (notes_with_channels : list (MidiNote * Z))
  : list Event :=
  map (fun nc => PitchBend (snd nc) (bend_of (fst nc))) notes_with_channels
  ++ map (fun nc => NoteOn (snd nc) (pitch (fst nc)) (velocity (fst nc)))
         notes_with_channels
  ++ match notes_with_channels with
     | [] => []
     | nc :: rest =>
         NoteOff ticks (snd nc) (pitch (fst nc))
         :: map (fun nc' => NoteOff 0 (snd nc') (pitch (fst nc'))) rest
     end.

(** A [Chord] is a tuple of notes; a [Part] is a list of notes and
    chords; a [Piece] is a tuple of parts. *)
Definition is_note (m : Music) : bool :=
  match m with
  | MNote _ => true
  | _ => false
  end.

Definition is_note_or_chord (m : Music) : bool :=
  match m with
  | MNote _ => true
  | MTuple xs => forallb is_note xs
  | MList _ => false
  end.

Definition is_part (m : Music) : bool :=
  match m with
  | MList xs => forallb is_note_or_chord xs
  | _ => false
  end.

Definition is_piece (m : Music) : bool :=
  match m with
  | MTuple parts => forallb is_part parts
  | _ => false
  end.

(** the parts of a piece *)
Definition parts_of (m : Music) : list Music :=
  match m with
  | MTuple parts => parts
  | MList parts => parts
  | MNote _ => []
  end.

(** consecutive runs of [all_channels], one of each given length,
    the first starting at index [start] *)
Fixpoint consecutive_channels (start : nat) (lengths : list nat)
  : list (list Z) :=
  match lengths with
  | [] => []
  | n :: rest =>
      slice all_channels start (start + n)
      :: consecutive_channels (start + n) rest
  end.

End Midi.

Import Midi.

(** ** jird.midi: the tempo track, the file header and the Scala strategy *)

Module MidiFile.

Section Tempo.

(** [round(t0 / 1e-6)] is computed in floating point and is left open; it
    raises for an infinite or undefined [t0]. *)
Variable float : Type.
Variable microseconds : float -> py Z.

(** [tempo_track(t0)] *)
Definition tempo_track (t0 : float) : py pystr :=
  microseconds_per_beat <- microseconds t0 ;;
  let body :=
    str "00FF5103" ++ format_0X 6 microseconds_per_beat ++ END_OF_TRACK in
  header <- track_header body ;;
  Ok (header ++ body).

End Tempo.

(** The header chunk of [music_to_midi_file]:
    ["MThd".encode().hex() + "00000006" + "0001" + f"{len(all_tracks):04X}"
     + f"{DIVISION:04X}"] *)
Definition file_header (all_tracks : list pystr) : pystr :=
  str "4d546864" ++ str "00000006" ++ str "0001"
      ++ format_0X 4 (Z.of_nat (length all_tracks))
      ++ format_0X 4 DIVISION.

(** [s.replace(" ", "")] *)
Definition remove_spaces (s : pystr) : pystr :=
  filter (fun c => negb (Ascii.eqb c " "%char)) s.

(** The bytes [music_to_midi_file] writes, from the tempo track and the
    tracks of the parts; [None] where [bytes.fromhex] raises. *)
Definition midi_bytes (tempo : pystr) (part_tracks : list pystr)
  : option (list Z) :=
  let all_tracks := tempo :: part_tracks in
  let midi_hex_string := file_header all_tracks ++ concat all_tracks in
  let midi_hex_string := remove_spaces midi_hex_string in
  bytes_fromhex midi_hex_string.

(** *** Shapes used in the statements *)

(** a number as four bytes, most significant first *)
Definition be32 (k : Z) : list Z :=
  [k / 2 ^ 24 mod 256; k / 2 ^ 16 mod 256; k / 2 ^ 8 mod 256; k mod 256].

(** The bytes of an event in a MIDI file: the delta time, the status byte
    with the channel in its low four bits, and two data bytes. *)
Definition event_bytes (e : Event) : list Z :=
  match e with
  | PitchBend c b => [0; 224 + c; b mod 128; b / 128 mod 128]
  | NoteOn c p v => [0; 144 + c; p; v]
  | NoteOff d c p => vlq_bytes d ++ [128 + c; p; 0]
  end.

(** an event whose channel, data bytes and delta time are in range *)
Definition event_in_range (e : Event) : Prop :=
  match e with
  | PitchBend c b => 0 <= c < 16 /\ 0 <= b <= PITCH_BEND_MAX
  | NoteOn c p v => 0 <= c < 16 /\ 0 <= p <= 127 /\ 0 <= v <= 127
  | NoteOff d c p => 0 <= c < 16 /\ 0 <= p <= 127 /\ 0 <= d
  end.

(** the events of a chord on any list of channels: a note-off carries
    [ticks] when its channel is the first of [channels] *)
Definition chord_events_on (channels : list Z) (ticks : Z)
           (notes_with_channels : list (MidiNote * Z)) : list Event :=
  map (fun nc => PitchBend (snd nc) (bend_of (fst nc))) notes_with_channels
  ++ map (fun nc => NoteOn (snd nc) (pitch (fst nc)) (velocity (fst nc)))
         notes_with_channels
  ++ map (fun nc => NoteOff (if snd nc =? hd 0 channels then ticks else 0)
                            (snd nc) (pitch (fst nc)))
         notes_with_channels.

(** the bytes of the program changes of [set_program] *)
Definition program_bytes (program : Z) (channels : list Z) : list Z :=
  flat_map (fun c => [0; 192 + c; program - 1]) channels.

End MidiFile.

Import MidiFile.

Module ScalaMidi.

Section Scala.

(** [jird.scala.scala_midi_note] and the frequency map it reads are left
    open. *)
Variable frequency_map : Type.
Variable scala_midi_note : Music -> frequency_map -> py MidiNote.

(** [enumerate(xs)] *)
Definition enumerate {A : Type} (xs : list A) : list (nat * A) :=
  combine (seq 0 (length xs)) xs.

(** [xs[i]] for [i >= 0] *)
Definition index {A : Type} (xs : list A) (i : nat) : py A :=
  match nth_error xs i with
  | Some x => Ok x
  | None => Raise IndexError
  end.

Definition scala_note_off (ticks channel : Z) (i_note : nat * MidiNote)
  : py pystr :=
  delta <- (if (fst i_note =? 0)%nat
            then variable_length_quantity ticks
            else Ok (str "00")) ;;
  Ok (delta ++ str "8" ++ format_X channel
            ++ format_0X 2 (pitch (snd i_note)) ++ str "00").

(** [chord_to_scala_midi(notes, frequency_map, channel)] *)
Definition chord_to_scala_midi (notes : Music) (fm : frequency_map)
           (channel : Z) : py pystr :=
  let notes := as_chord notes in
  midi_notes <- mapM (fun n => scala_midi_note n fm) notes ;;
  assert (length (nodup Z.eq_dec (map ticks midi_notes)) =? 1)%nat ;;;
  let ticks := ticks (hd (mkMidiNote 0 None 0 0) midi_notes) in
  let note_ons := map (fun note => note_on_event (note, channel)) midi_notes in
  note_offs <- mapM (scala_note_off ticks channel) (enumerate midi_notes) ;;
  Ok (concat (note_ons ++ note_offs)).

(** [list(range(16))] *)
Definition all_channels : list Z := map Z.of_nat (seq 0 16).

(** the track of part [i], before its header *)
Definition scala_part_track (fm : frequency_map) (i_part : nat * Music)
  : py pystr :=
  chords <- iterate (snd i_part) ;;
  events <- mapM (fun chord =>
                    channel <- index all_channels (fst i_part) ;;
                    chord_to_scala_midi chord fm channel)
                 chords ;;
  Ok (concat events ++ END_OF_TRACK).

(** [part_scala_midi_tracks(music, frequency_map)] *)
Definition part_scala_midi_tracks (music : Music) (fm : frequency_map)
  : py (list pystr * list (list Z)) :=
  parts <- iterate music ;;
  part_tracks <- mapM (scala_part_track fm) (enumerate parts) ;;
  part_channels <- mapM (fun i => c <- index all_channels i ;; Ok [c])
                        (seq 0 (length parts)) ;;
  tracks <- mapM (fun x => header <- track_header x ;; Ok (header ++ x))
                 part_tracks ;;
  Ok (tracks, part_channels).

End Scala.

End ScalaMidi.

(** ** jird.lilypond: durations in the notation backend *)

Module Lilypond.

(** Durations of basic lilypond notes *)
Definition DURATIONS : list Fraction :=
  [4 # 1; 2 # 1; 1 # 1; 1 # 2; 1 # 4; 1 # 8; 1 # 16; 1 # 32]%Q.

(** [x.numerator] and [x.denominator]: a [Fraction] is in lowest terms *)
Definition numerator (x : Fraction) : Z := Qnum (Qred x).
Definition denominator (x : Fraction) : Z := Zpos (Qden (Qred x)).

(** [Fraction(n, d)] for integers [n] and [d] *)
Definition Fraction_of (n d : Z) : Fraction := Qred (inject_Z n / inject_Z d).

(** [str(x)] for a [Fraction] *)
Definition str_of_fraction (x : Fraction) : pystr :=
  if denominator x =? 1 then str_of_int (numerator x)
  else str_of_int (numerator x) ++ str "/" ++ str_of_int (denominator x).

(** The loop of [_factorize]: [while n % 2 == 0: count += 1; n //= 2].
    Halving an even positive number drops the last binary digit. *)
Fixpoint factorize_loop (n : positive) (count : Z) : Z * Z :=
  match n with
  | xO half => factorize_loop half (count + 1)
  | _ => (count, Zpos n)
  end.

(** [_factorize(n)] *)
Definition _factorize (n : Z) : py (Z * Z) :=
  assert (0 <? n) ;;;
  match n with
  | Zpos p =>
      let '(count, n') := factorize_loop p 0 in
      let power_of_two := 2 ^ count in
      Ok (power_of_two, n')
  | _ => Raise AssertionError
  end.

(** [divmod(a, b)] for fractions: the quotient is an integer *)
Definition frac_divmod (a b : Fraction) : Z * Fraction :=
  let q := Qfloor (a / b) in
  (q, Qred (a - b * inject_Z q)).

(** The loop [for d in DURATIONS: coeffs[d], to_divide = divmod(to_divide, d)]:
    the coefficients in the order of the table, and what is left. *)
Fixpoint decompose (durations : list Fraction) (to_divide : Fraction)
  : list (Fraction * Z) * Fraction :=
  match durations with
  | [] => ([], to_divide)
  | d :: ds =>
      let '(c, r) := frac_divmod to_divide d in
      let '(coeffs, rest) := decompose ds r in
      ((d, c) :: coeffs, rest)
  end.

(** one duration symbol: [f"{{0}}{4 / k}"] *)
Definition symbol (k : Fraction) : pystr :=
  str "{0}" ++ str_of_fraction (Qred (4 / k)).

(** [parts]: [v] copies of the symbol of [k] for every non-zero
    coefficient [v] *)
Definition symbols (coeffs : list (Fraction * Z)) : list pystr :=
  flat_map (fun kv => repeat (symbol (fst kv)) (Z.to_nat (snd kv)))
           (filter (fun kv => negb (snd kv =? 0)) coeffs).

(** [base]: the symbols tied together, the annotation slot after the first *)
Definition tie (parts : list pystr) : py pystr :=
  match parts with
  | [] => Raise IndexError
  | [p] => Ok (p ++ str "{1}")
  | p :: rest => Ok (p ++ str "~" ++ str "{1}" ++ join (str "~") rest)
  end.

(** the tuplet bracket, when the odd factor is not one *)
Definition tuplet (odd_factor rescale : Z) (base : pystr) : pystr :=
  if odd_factor =? 1 then base
  else str "\tuplet" ++ str " " ++ str_of_int odd_factor ++ str "/"
           ++ str_of_int rescale ++ str " " ++ str "{{" ++ base ++ str "}}".

(** The second half of [lilypond_duration], from [to_divide] on *)
Definition encode_residual (odd_factor rescale : Z) (to_divide : Fraction)
  : py pystr :=
  let '(coeffs, rest) := decompose DURATIONS to_divide in
  assert (Qeq_bool rest 0) ;;;
  base <- tie (symbols coeffs) ;;
  Ok (tuplet odd_factor rescale base).

Section Rescale.
Context {fl : Floats}.

(** [2 ** floor(log2(odd_factor))], for the odd factor (at least one) of
    a denominator: the logarithm is the float one *)
Definition rescale_of (odd_factor : Z) : Z :=
  2 ^ Z.of_N (floor_log2 odd_factor).

(** [lilypond_duration(note)] *)
Definition lilypond_duration (note : Note) : py pystr :=
  let duration := evaluate_quantity (duration note) in
  assert (negb (Qle_bool duration 0)) ;;;
  pf <- _factorize (denominator duration) ;;
  let power_of_two := fst pf in
  let odd_factor := snd pf in
  let rescale := rescale_of odd_factor in
  let to_divide := Fraction_of (numerator duration) (power_of_two * rescale) in
  encode_residual odd_factor rescale to_divide.

(** *** The wording of the specification, for comparison *)

(** The residual as the specification words it: the duration [d] itself
    divided by [P * R]. *)
Definition residual_as_specified (d : Fraction) (power_of_two rescale : Z)
  : Fraction :=
  Qred (d / inject_Z (power_of_two * rescale)).

(** [lilypond_duration] with that residual in the place of [to_divide] *)
Definition lilypond_duration_as_specified (note : Note) : py pystr :=
  let duration := evaluate_quantity (duration note) in
  assert (negb (Qle_bool duration 0)) ;;;
  pf <- _factorize (denominator duration) ;;
  let power_of_two := fst pf in
  let odd_factor := snd pf in
  let rescale := rescale_of odd_factor in
  encode_residual odd_factor rescale
    (residual_as_specified duration power_of_two rescale).

End Rescale.

(** the sum of the terms of a decomposition *)
Definition weighted_sum (coeffs : list (Fraction * Z)) : Q :=
  fold_right (fun kv acc => (fst kv * inject_Z (snd kv) + acc)%Q) 0%Q coeffs.

End Lilypond.

Import Lilypond.

(** ** jird.lilypond: the ratios written next to a chord *)

Module LilypondChord.

(** [zip] of the unpacked [parts]: tuple number [i] holds element [i] of every part, for
    [i] below the length of the shortest part; nothing for no parts. *)
Definition zip_star (parts : list (list Fraction)) : list (list Fraction) :=
  match parts with
  | [] => []
  | p :: ps =>
      map (fun i => map (fun q => nth i q 0%Q) parts)
          (seq 0 (fold_left Nat.min (map (@length Fraction) ps) (length p)))
  end.

(** A [set] of fractions is kept as the list of its members, without
    repetition. *)
Definition add_fraction (s : list Fraction) (a : Fraction) : list Fraction :=
  if existsb (Qeq_bool a) s then s else s ++ [a].

(** [set(x)] *)
Definition set_of_fractions (x : list Fraction) : list Fraction :=
  fold_left add_fraction x [].

(** [shared.index(False)] *)
Fixpoint index_false (shared : list bool) : option nat :=
  match shared with
  | [] => None
  | b :: rest =>
      if b then option_map S (index_false rest) else Some O
  end.

(** [_count_leading_shared(parts)] *)
Definition _count_leading_shared (parts : list (list Fraction)) : nat :=
  let shared :=
    map (fun x => (length (set_of_fractions x) =? 1)%nat) (zip_star parts) in
  match index_false shared with
  | Some count => count
  | None => length shared
  end.

(** The ratios of [lilypond_chord], for frequencies that are all ratio
    products: [base] is [prod(parts[0][:common], Fraction(1))] and
    [chord_freqs] holds [prod(x[common:], Fraction(1))] for every [x]. *)
Definition chord_ratios (frequencies : list RatioProduct)
  : py (Fraction * list Fraction) :=
  let parts := map ratios frequencies in
  let common := _count_leading_shared parts in
  match parts with
  | [] => Raise IndexError
  | first :: _ =>
      let base := prod (firstn common first) 1%Q in
      let chord_freqs := map (fun x => prod (skipn common x) 1%Q) parts in
      Ok (base, chord_freqs)
  end.

End LilypondChord.

Import LilypondChord.
(** ** Exact steps: the mathematics that the floating-point code approximates

    Nothing in this module is a function of the program.  [nearest_step]
    is the step of an equal division that lies nearest to a frequency
    ratio, computed with integers; [exact_floats] fills the class [Floats]
    with it, cut off near the range of doubles.  It shows that the class
    can be filled, and the statements are run on it at sample inputs. *)

Module Exact.

(** whether [2 ** e <= a / b], for positive integers [a] and [b] *)
Definition pow2_leb (e a b : Z) : bool :=
  if 0 <=? e then b * 2 ^ e <=? a else b <=? a * 2 ^ (- e).

(** [floor (log2 (a / b))] for positive integers [a] and [b]: the
    difference of the bit lengths, or one less *)
Definition floor_log2_ratio (a b : Z) : Z :=
  let d := Z.log2 a - Z.log2 b in
  if pow2_leb d a b then d else d - 1.

(** whether [a / b] is exactly [2 ** l] *)
Definition is_pow2_ratio (a b l : Z) : bool :=
  if 0 <=? l then a =? b * 2 ^ l else a * 2 ^ (- l) =? b.

(** numerator and denominator of [x ** j] for a positive rational [x] *)
Definition Qpow_pair (x : Q) (j : Z) : Z * Z :=
  if 0 <=? j
  then (Qnum x ^ j, Zpos (Qden x) ^ j)
  else (Zpos (Qden x) ^ (- j), Qnum x ^ (- j)).

(** The integer nearest to the real number [edo * (m / n) * log2 x],
    for a positive rational [x] and [n <> 0], a tie going to the even
    neighbour: what [round(edo * math.log2(x ** (m / n)))] would be
    without rounding errors and without a largest float.  With
    [t = 2 * edo * (m / n) * log2 x], the answer is
    [floor ((floor t + 1) / 2)] unless [t] is an odd integer. *)
Definition nearest_step (edo : Z) (x : Q) (m n : Z) : Z :=
  let N := edo * m * Z.sgn n in
  let D := Z.abs n in
  let '(a, b) := Qpow_pair x (2 * N) in
  let L := floor_log2_ratio a b in
  let ft := L / D in
  let r := (ft + 1) / 2 in
  if is_pow2_ratio a b L && (L mod D =? 0) && Z.odd ft && Z.odd r
  then r - 1
  else r.

(** [floor (log2 x)] for a positive rational [x] *)
Definition floor_log2_Q (x : Q) : Z :=
  floor_log2_ratio (Qnum x) (Zpos (Qden x)).

(** a stand-in for [round(edo * math.log2(x))], [0 < x]: the nearest
    step, [OverflowError] from [2 ** 1024] on and [ValueError] where a
    double would be [0.0] *)
Definition exact_fraction_steps (edo : Z) (x : Fraction) : py Z :=
  if 1024 <=? floor_log2_Q x then Raise OverflowError
  else if floor_log2_Q x <? -1075 then Raise ValueError
  else Ok (nearest_step edo x 1 1).

(** a stand-in for the exception of [b ** (m / n)]: zero has no
    negative power, and a power of about [2 ** 1024] or more is out of
    range *)
Definition exact_power_raises (b m n : Z) : option exn :=
  if (b =? 0) && (m * n <? 0) then Some ZeroDivisionError
  else if (2 <=? Z.abs b)
          && (1024 <=? nearest_step 1 (inject_Z (Z.abs b)) m n)
       then Some OverflowError
       else None.

(** a stand-in for [round(edo * math.log2(b ** (m / n)))].  For a
    negative base Python computes a real number only when the exponent
    is an integer, and a complex number (which [math.log2] rejects with
    [TypeError]) otherwise. *)
Definition exact_power_steps (edo b m n : Z) : py Z :=
  if 0 <? b then Ok (nearest_step edo (inject_Z b) m n)
  else if b =? 0 then (if m =? 0 then Ok 0 else Raise ValueError)
  else if m mod n =? 0
       then (if Z.even (m / n)
             then Ok (nearest_step edo (inject_Z (- b)) m n)
             else Raise ValueError)
       else Raise TypeError.

Definition exact_floats : Floats :=
  {| power_raises := exact_power_raises;
     power_is_zero := fun b m _ => (b =? 0) && negb (m =? 0);
     log2_error := fun _ => ValueError;
     fraction_steps := exact_fraction_steps;
     power_steps := exact_power_steps;
     floor_log2 := fun n => Z.to_N (Z.log2 n);
     floor_log2_one := eq_refl |}.

End Exact.

Import Exact.


(** ** Sample music, used to exercise the statements *)

Module Examples.

(** a note with a single ratio as frequency and volume one, as
    [parse("f:d")] builds it *)
Definition note_of (f d : Fraction) : Note :=
  mkNote (FRatio (mkRatioProduct [f])) (QFraction d) (QFraction 1%Q).

(** [parse("<1 5/4 3/2>:1 6/5:1/2; 1/2:3/2 0:1/2")] *)
Definition two_parts : Music :=
  MTuple
    [MList [MTuple [MNote (note_of 1%Q 1%Q); MNote (note_of (5 # 4) 1%Q);
                    MNote (note_of (3 # 2) 1%Q)];
            MNote (note_of (6 # 5) (1 # 2))];
     MList [MNote (note_of (1 # 2) (3 # 2)); MNote (note_of 0%Q (1 # 2))]].

(** a tempered note *)
Definition step_of (k e : Z) (d : Fraction) : Note :=
  mkNote (FPower (mkPower 2 k e)) (QFraction d) (QFraction 1%Q).

(** [two_parts] in twelve equal divisions of the octave, every step the
    nearest one; the rest stays *)
Definition two_parts_tempered : Music :=
  MTuple
    [MList [MTuple [MNote (step_of 0 12 1%Q); MNote (step_of 4 12 1%Q);
                    MNote (step_of 7 12 1%Q)];
            MNote (step_of 3 12 (1 # 2))];
     MList [MNote (step_of (-12) 12 (3 # 2)); MNote (note_of 0%Q (1 # 2))]].

(** a note lasting half a beat *)
Definition half_beat : Note := note_of 1%Q (1 # 2).

(** [parse("0:1 <0 0>:2")]: rests only *)
Definition rests : Music :=
  MTuple [MList [MNote (note_of 0%Q 1%Q);
                 MTuple [MNote (note_of 0%Q (2 # 1));
                         MNote (note_of 0%Q (2 # 1))]]].

(** [N = 2 ** 600] *)
Definition huge : Fraction := inject_Z (2 ^ 600).

(** the note of [parse("N*N:1")] and the piece it makes *)
Definition huge_note : Note :=
  mkNote (FRatio (mkRatioProduct [huge; huge]))
         (QRatio (mkRatioProduct [1%Q])) (QFraction 1%Q).

Definition huge_squared : Music := MTuple [MList [MNote huge_note]].

(** a note whose frequency is the product of -2 and -3 *)
Definition negative_factors : Note :=
  mkNote (FRatio (mkRatioProduct [-2 # 1; -3 # 1]))
         (QFraction 1%Q) (QFraction 1%Q).

(** a part already tempered to twelve divisions *)
Definition tempered_part : Music :=
  MList [MNote (note_of (3 # 2) 1%Q);
         MNote (mkNote (FPower (mkPower 2 4 12)) (QFraction 1%Q)
                       (QFraction 1%Q))].

(** one part made of a single chord of fifteen notes *)
Definition wide_piece : Music :=
  MTuple [MList [MTuple (repeat (MNote (note_of 1%Q 1%Q)) 15)]].

(** comparisons of evaluated numbers that are exact on fractions *)
Definition frac_eqb (x y : Number) : bool :=
  match x, y with
  | NFraction a, NFraction b => Qeq_bool a b
  | NInf, NInf => true
  | _, _ => false
  end.

Definition frac_ltb (x y : Number) : bool :=
  match x, y with
  | NFraction a, NFraction b => negb (Qle_bool b a)
  | NFraction _, NInf => true
  | _, _ => false
  end.

(** a stand-in for the floating-point part of [Note.to_midi]: every
    sounding note is sent as pitch 69 with no bend *)
Definition flat_pitch (f : Number) (f0 : unit) (range : Z) : py (Z * Z) :=
  Ok (69, PITCH_BEND_CENTER).

Definition never_silent (f : Number) (f0 : unit) : bool := false.

End Examples.

(** ** Comparisons used to exercise the statements about ordering *)

Module Comparisons.

(** the place of a number on the line: a fraction at its value, every
    other number at the top *)
Definition place (x : Number) : option Fraction :=
  match x with
  | NFraction a => Some a
  | _ => None
  end.

Definition place_eqb (x y : Number) : bool :=
  match place x, place y with
  | Some a, Some b => Qeq_bool a b
  | None, None => true
  | _, _ => false
  end.

Definition place_ltb (x y : Number) : bool :=
  match place x, place y with
  | Some a, Some b => negb (Qle_bool b a)
  | Some _, None => true
  | None, _ => false
  end.

End Comparisons.
(** * Properties

    ** Results and comprehensions *)

Lemma raises_bind_l {A B : Type} (c : py A) (k : A -> py B) :
  raises c -> raises (bind c k).
Proof. intros [e ->]. exists e. reflexivity. Qed.

Lemma raises_not_ok {A : Type} (c : py A) (a : A) : raises c -> c <> Ok a.
Proof. intros [e ->]. discriminate. Qed.

Lemma mapM_ok_length {A B : Type} (f : A -> py B) (xs : list A) (ys : list B) :
  mapM f xs = Ok ys -> length ys = length xs.
Proof.
  revert ys; induction xs as [|x xs IH]; intros ys H; simpl in H.
  - injection H as <-. reflexivity.
  - destruct (f x) as [y|e]; simpl in H; [|discriminate].
    destruct (mapM f xs) as [ys'|e]; simpl in H; [|discriminate].
    injection H as <-. simpl. f_equal. apply IH. reflexivity.
Qed.

Lemma mapM_all_ok {A B : Type} (f : A -> py B) (g : A -> B) (xs : list A) :
  Forall (fun x => f x = Ok (g x)) xs -> mapM f xs = Ok (map g xs).
Proof.
  induction 1 as [|x xs Hx _ IH]; simpl; [reflexivity|].
  rewrite Hx, IH. reflexivity.
Qed.

Lemma mapM_raises_in {A B : Type} (f : A -> py B) (xs : list A) (x : A) :
  In x xs -> raises (f x) -> raises (mapM f xs).
Proof.
  induction xs as [|y xs IH]; intros Hin Hx; [destruct Hin|].
  simpl. destruct Hin as [->|Hin].
  - apply raises_bind_l. exact Hx.
  - destruct (f y) as [b|e]; simpl; [|exists e; reflexivity].
    apply raises_bind_l. apply IH; assumption.
Qed.


(** ** Induction on music *)

Lemma Music_nested_ind (P : Music -> Prop) :
  (forall n, P (MNote n)) ->
  (forall xs, Forall P xs -> P (MTuple xs)) ->
  (forall xs, Forall P xs -> P (MList xs)) ->
  forall music, P music.
Proof.
  intros Hnote Htuple Hlist.
  fix IH 1.
  intros [n|xs|xs].
  - apply Hnote.
  - apply Htuple. induction xs as [|x xs IHxs]; constructor; auto.
  - apply Hlist. induction xs as [|x xs IHxs]; constructor; auto.
Qed.

(** ** Exact nearest steps *)

Lemma inject_Z_pos (z : Z) : 0 < z -> (0 < inject_Z z)%Q.
Proof. intros H. change 0%Q with (inject_Z 0). rewrite <- Zlt_Qlt. exact H. Qed.

Lemma two_pow_Q (e : Z) : 0 <= e -> (inject_Z (2 ^ e) == (2 # 1) ^ e)%Q.
Proof. intros He. rewrite Zpower_Qpower by exact He. reflexivity. Qed.

Lemma Qle_div_iff (p a b : Q) :
  (0 < b)%Q -> (p <= a / b <-> p * b <= a)%Q.
Proof.
  intros Hb. rewrite <- (Qmult_le_r p (a / b) b Hb).
  assert (E : (a / b * b == a)%Q).
  { field. intros E. rewrite E in Hb. discriminate Hb. }
  rewrite E. reflexivity.
Qed.

Lemma pow2_leb_spec (e a b : Z) :
  0 < a -> 0 < b ->
  (pow2_leb e a b = true <-> ((2 # 1) ^ e <= inject_Z a / inject_Z b)%Q).
Proof.
  intros Ha Hb. unfold pow2_leb.
  pose proof (inject_Z_pos b Hb) as Hb'.
  rewrite (Qle_div_iff _ _ _ Hb').
  destruct (0 <=? e) eqn:He.
  - apply Z.leb_le in He. rewrite Z.leb_le.
    rewrite <- two_pow_Q by exact He.
    rewrite <- inject_Z_mult, <- Zle_Qle. split; lia.
  - apply Z.leb_gt in He. rewrite Z.leb_le.
    replace e with (- (- e)) at 2 by lia.
    rewrite Qpower_opp, <- two_pow_Q by lia.
    assert (Hp : 0 < 2 ^ (- e)) by (apply Z.pow_pos_nonneg; lia).
    pose proof (inject_Z_pos _ Hp) as Hp'.
    rewrite <- (Qmult_le_r _ _ _ Hp').
    assert (E : (/ inject_Z (2 ^ (- e)) * inject_Z b * inject_Z (2 ^ (- e))
                 == inject_Z b)%Q).
    { field. intros E. rewrite E in Hp'. discriminate Hp'. }
    rewrite E, <- inject_Z_mult, <- Zle_Qle. reflexivity.
Qed.

Lemma log2_bounds (a : Z) :
  0 < a -> 0 <= Z.log2 a /\ 2 ^ Z.log2 a <= a < 2 * 2 ^ Z.log2 a.
Proof.
  intros Ha. split; [apply Z.log2_nonneg|].
  pose proof (Z.log2_spec a Ha) as H.
  rewrite Z.pow_succ_r in H by apply Z.log2_nonneg. exact H.
Qed.

(** [2 ** (d - 1) <= a / b < 2 ** (d + 1)] for the difference [d] of the
    bit lengths *)
Lemma bit_length_bounds (a b : Z) :
  0 < a -> 0 < b ->
  pow2_leb (Z.log2 a - Z.log2 b - 1) a b = true
  /\ pow2_leb (Z.log2 a - Z.log2 b + 1) a b = false.
Proof.
  intros Ha Hb.
  destruct (log2_bounds a Ha) as (Hla & Ha1 & Ha2).
  destruct (log2_bounds b Hb) as (Hlb & Hb1 & Hb2).
  set (la := Z.log2 a) in *. set (lb := Z.log2 b) in *.
  unfold pow2_leb. split.
  - destruct (0 <=? la - lb - 1) eqn:E.
    + apply Z.leb_le in E. apply Z.leb_le.
      assert (Hpow : 2 ^ la = 2 * 2 ^ lb * 2 ^ (la - lb - 1)).
      { rewrite <- Z.pow_succ_r, <- Z.pow_add_r by lia. f_equal. lia. }
      assert (0 < 2 ^ (la - lb - 1)) by (apply Z.pow_pos_nonneg; lia).
      nia.
    + apply Z.leb_gt in E. apply Z.leb_le.
      assert (Hpow : 2 * 2 ^ lb = 2 ^ la * 2 ^ (- (la - lb - 1))).
      { rewrite <- Z.pow_succ_r, <- Z.pow_add_r by lia. f_equal. lia. }
      assert (0 < 2 ^ (- (la - lb - 1))) by (apply Z.pow_pos_nonneg; lia).
      nia.
  - destruct (0 <=? la - lb + 1) eqn:E.
    + apply Z.leb_le in E. apply Z.leb_gt.
      assert (Hpow : 2 * 2 ^ la = 2 ^ lb * 2 ^ (la - lb + 1)).
      { rewrite <- Z.pow_succ_r, <- Z.pow_add_r by lia. f_equal. lia. }
      assert (0 < 2 ^ (la - lb + 1)) by (apply Z.pow_pos_nonneg; lia).
      nia.
    + apply Z.leb_gt in E. apply Z.leb_gt.
      assert (Hpow : 2 ^ lb = 2 * 2 ^ la * 2 ^ (- (la - lb + 1))).
      { rewrite <- Z.pow_succ_r, <- Z.pow_add_r by lia. f_equal. lia. }
      assert (0 < 2 ^ (- (la - lb + 1))) by (apply Z.pow_pos_nonneg; lia).
      nia.
Qed.

Lemma floor_log2_ratio_spec (a b : Z) :
  0 < a -> 0 < b ->
  ((2 # 1) ^ floor_log2_ratio a b <= inject_Z a / inject_Z b
   < (2 # 1) ^ (floor_log2_ratio a b + 1))%Q.
Proof.
  intros Ha Hb. unfold floor_log2_ratio.
  destruct (bit_length_bounds a b Ha Hb) as [Hlow Hhigh].
  set (d := Z.log2 a - Z.log2 b) in *.
  destruct (pow2_leb d a b) eqn:E.
  - split; [apply pow2_leb_spec; assumption|].
    apply Qnot_le_lt. intros H. apply pow2_leb_spec in H; try assumption.
    congruence.
  - split; [apply pow2_leb_spec; assumption|].
    replace (d - 1 + 1) with d by lia.
    apply Qnot_le_lt. intros H. apply pow2_leb_spec in H; try assumption.
    congruence.
Qed.

Lemma Qpow_pair_spec (x : Q) (j : Z) :
  (0 < x)%Q ->
  0 < fst (Qpow_pair x j) /\ 0 < snd (Qpow_pair x j)
  /\ (x ^ j == inject_Z (fst (Qpow_pair x j)) / inject_Z (snd (Qpow_pair x j)))%Q.
Proof.
  intros Hx. destruct x as [num den].
  assert (Hnum : 0 < num) by (unfold Qlt in Hx; simpl in Hx; lia).
  unfold Qpow_pair. cbn [Qnum Qden].
  assert (Hx' : (num # den == inject_Z num / inject_Z (Zpos den))%Q)
    by apply Qmake_Qdiv.
  destruct (0 <=? j) eqn:Hj; cbn [fst snd].
  - apply Z.leb_le in Hj.
    split; [apply Z.pow_pos_nonneg; lia|].
    split; [apply Z.pow_pos_nonneg; lia|].
    rewrite Hx', Qdiv_power, !Zpower_Qpower by exact Hj. reflexivity.
  - apply Z.leb_gt in Hj.
    split; [apply Z.pow_pos_nonneg; lia|].
    split; [apply Z.pow_pos_nonneg; lia|].
    replace j with (- (- j)) at 1 by lia.
    rewrite Qpower_opp, Hx', Qdiv_power, !Zpower_Qpower by lia.
    assert (Hn : ~ (inject_Z num ^ (- j) == 0)%Q).
    { apply Qpower_not_0. intros E.
      pose proof (inject_Z_pos num Hnum) as H. rewrite E in H. discriminate H. }
    assert (Hd : ~ (inject_Z (Zpos den) ^ (- j) == 0)%Q).
    { apply Qpower_not_0. intros E.
      pose proof (inject_Z_pos (Zpos den) eq_refl) as H.
      rewrite E in H. discriminate H. }
    field. split; assumption.
Qed.

Lemma is_pow2_ratio_spec (a b l : Z) :
  0 < a -> 0 < b ->
  is_pow2_ratio a b l = true ->
  (inject_Z a / inject_Z b == (2 # 1) ^ l)%Q.
Proof.
  intros Ha Hb. unfold is_pow2_ratio.
  pose proof (inject_Z_pos b Hb) as Hb'.
  assert (Hbne : ~ (inject_Z b == 0)%Q)
    by (intros E; rewrite E in Hb'; discriminate Hb').
  destruct (0 <=? l) eqn:Hl; intros H; apply Z.eqb_eq in H.
  - apply Z.leb_le in Hl. rewrite <- two_pow_Q by exact Hl.
    rewrite H, inject_Z_mult. field. exact Hbne.
  - apply Z.leb_gt in Hl.
    replace l with (- (- l)) at 1 by lia.
    rewrite Qpower_opp, <- two_pow_Q by lia.
    assert (Hp : 0 < 2 ^ (- l)) by (apply Z.pow_pos_nonneg; lia).
    pose proof (inject_Z_pos _ Hp) as Hp'.
    assert (Hpne : ~ (inject_Z (2 ^ (- l)) == 0)%Q)
      by (intros E; rewrite E in Hp'; discriminate Hp').
    rewrite <- H, inject_Z_mult. field. split.
    + exact Hpne.
    + pose proof (inject_Z_pos a Ha) as Ha'. intros E. rewrite E in Ha'.
      discriminate Ha'.
Qed.

Lemma two_pow_mono (i j : Z) : i <= j -> ((2 # 1) ^ i <= (2 # 1) ^ j)%Q.
Proof. intros H. apply Qpower_le_compat_l; [exact H|discriminate]. Qed.

(** [nearest_step edo x m n] is an integer nearest to
    [edo * (m / n) * log2 x]: with [r] the result,
    [r - 1/2 <= edo * (m / n) * log2 x <= r + 1/2], stated on the powers
    of two. *)
Lemma nearest_step_nearest (edo : Z) (x : Q) (m n : Z) :
  (0 < x)%Q -> n <> 0 ->
  ((2 # 1) ^ ((2 * nearest_step edo x m n - 1) * Z.abs n)
   <= x ^ (2 * (edo * m * Z.sgn n))
   <= (2 # 1) ^ ((2 * nearest_step edo x m n + 1) * Z.abs n))%Q.
Proof.
  intros Hx Hn. unfold nearest_step.
  destruct (Qpow_pair_spec x (2 * (edo * m * Z.sgn n)) Hx) as (Ha & Hb & HX).
  destruct (Qpow_pair x (2 * (edo * m * Z.sgn n))) as [a b].
  cbn [fst snd] in Ha, Hb, HX. rewrite HX.
  destruct (floor_log2_ratio_spec a b Ha Hb) as [Hlow Hhigh].
  set (L := floor_log2_ratio a b) in *.
  set (D := Z.abs n) in *.
  assert (HD : 0 < D) by (subst D; lia).
  pose proof (Z.div_mod L D ltac:(lia)) as Hdiv.
  pose proof (Z.mod_pos_bound L D HD) as Hmod.
  set (ft := L / D) in *.
  pose proof (Z.div_mod (ft + 1) 2 ltac:(lia)) as Hdiv2.
  pose proof (Z.mod_pos_bound (ft + 1) 2 ltac:(lia)) as Hmod2.
  set (r0 := (ft + 1) / 2) in *.
  destruct (is_pow2_ratio a b L && (L mod D =? 0) && Z.odd ft && Z.odd r0)
    eqn:Etie.
  - apply andb_prop in Etie. destruct Etie as [Etie Hoddr].
    apply andb_prop in Etie. destruct Etie as [Etie Hoddft].
    apply andb_prop in Etie. destruct Etie as [Hexact Hdivides].
    apply Z.eqb_eq in Hdivides.
    apply (is_pow2_ratio_spec a b L Ha Hb) in Hexact.
    rewrite Z.odd_spec in Hoddft. destruct Hoddft as [q Hq].
    assert (Hft : ft = 2 * r0 - 1) by lia.
    rewrite Hexact. split; apply two_pow_mono; nia.
  - split.
    + eapply Qle_trans; [|exact Hlow]. apply two_pow_mono. nia.
    + apply Qlt_le_weak. eapply Qlt_le_trans; [exact Hhigh|].
      apply two_pow_mono. nia.
Qed.

(** ** Tempering *)

Lemma mapM_total {A B : Type} (f : A -> py B) (xs : list A) :
  Forall (fun x => exists y, f x = Ok y) xs -> exists ys, mapM f xs = Ok ys.
Proof.
  induction 1 as [|x xs [y Hy] _ [ys IH]]; simpl.
  - eexists. reflexivity.
  - rewrite Hy, IH. eexists. reflexivity.
Qed.

Lemma mapM_pointwise {A B : Type} (f : A -> py B) (xs : list A)
      (ys : list B) :
  Forall2 (fun x y => f x = Ok y) xs ys -> mapM f xs = Ok ys.
Proof.
  induction 1 as [|x y xs ys Hxy _ IH]; cbn [mapM].
  - reflexivity.
  - rewrite Hxy. cbn [bind]. rewrite IH. reflexivity.
Qed.

Lemma mapM_raises {A B : Type} (f : A -> py B) (xs : list A) :
  Exists (fun x => raises (f x)) xs -> raises (mapM f xs).
Proof.
  induction 1 as [x xs [e He]|x xs _ [e IH]]; cbn [mapM].
  - exists e. rewrite He. reflexivity.
  - destruct (f x) as [y|e']; cbn [bind].
    + exists e. rewrite IH. reflexivity.
    + exists e'. reflexivity.
Qed.

Section TemperFacts.
Context {fl : Floats}.

Lemma steps_of_fraction_pos (edo : Z) (r : Fraction) :
  (0 < r)%Q -> steps_of_fraction edo r = fraction_steps edo r.
Proof.
  intros Hr. unfold steps_of_fraction.
  destruct (Qle_bool r 0) eqn:E; [|reflexivity].
  apply Qle_bool_imp_le in E. exfalso. apply (Qlt_not_le _ _ Hr E).
Qed.

Lemma steps_of_fraction_nonpos (edo : Z) (r : Fraction) :
  (r <= 0)%Q -> steps_of_fraction edo r = Raise (log2_error r).
Proof.
  intros Hr. unfold steps_of_fraction.
  destruct (Qle_bool r 0) eqn:E; [reflexivity|].
  rewrite <- Qle_bool_iff in Hr. congruence.
Qed.

(** A sounding ratio product is tempered factor by factor. *)
Lemma temper_note_ratio_product (rs : list Fraction) (d v : Quantity)
      (edo : Z) :
  is_zero (NFraction (RatioProduct_evaluate (mkRatioProduct rs))) = false ->
  temper_note edo (mkNote (FRatio (mkRatioProduct rs)) d v)
  = bind (mapM (steps_of_fraction edo) rs)
      (fun steps =>
         Ok (mkNote (FPower (mkPower 2 (sum_int steps) edo)) d v)).
Proof.
  intros Hnonzero. unfold temper_note. cbn [frequency evaluate bind].
  rewrite Hnonzero. cbn [ratios duration volume].
  destruct (mapM (steps_of_fraction edo) rs); reflexivity.
Qed.

(** C9.  Tempering with no equal-division count is the identity:
    [temper(music, edo=None)] returns [music] itself. *)
Theorem temper_none_identity :
  forall music : Music, temper None music = Ok music.
Proof. intros music. reflexivity. Qed.

(** C2, as the code has it.  A note whose frequency is a non-zero ratio
    product with positive factors [r1 .. rk], for each of which
    [round(edo * math.log2(ri))] computes a step [si], is tempered to
    [Power(2, n, edo)] with [n] the sum of the [si], each factor taken on
    its own; duration and volume are kept.  With a factor that is zero or
    negative the call raises.  In particular 6/5 gives [Power(2, 3, 12)]
    at 12 divisions and [Power(2, 5, 19)] at 19, where the floats give
    the steps 3 and 5, which are the exact nearest ones. *)
Theorem temper_note_sums_factor_steps :
  (forall (rs : list Fraction) (steps : list Z) (d v : Quantity) (edo : Z),
      is_zero (NFraction (RatioProduct_evaluate (mkRatioProduct rs))) = false ->
      Forall2 (fun r s => (0 < r)%Q /\ fraction_steps edo r = Ok s)
              rs steps ->
      temper_note edo (mkNote (FRatio (mkRatioProduct rs)) d v)
      = Ok (mkNote (FPower (mkPower 2 (sum_int steps) edo)) d v))
  /\ (forall (rs : list Fraction) (d v : Quantity) (edo : Z),
         is_zero (NFraction (RatioProduct_evaluate (mkRatioProduct rs)))
         = false ->
         Exists (fun r => (r <= 0)%Q) rs ->
         raises (temper_note edo (mkNote (FRatio (mkRatioProduct rs)) d v)))
  /\ (forall d v,
         fraction_steps 12 (6 # 5) = Ok 3 ->
         temper_note 12 (mkNote (FRatio (mkRatioProduct [6 # 5])) d v)
         = Ok (mkNote (FPower (mkPower 2 3 12)) d v))
  /\ (forall d v,
         fraction_steps 19 (6 # 5) = Ok 5 ->
         temper_note 19 (mkNote (FRatio (mkRatioProduct [6 # 5])) d v)
         = Ok (mkNote (FPower (mkPower 2 5 19)) d v))
  /\ nearest_step 12 (6 # 5) 1 1 = 3
  /\ nearest_step 19 (6 # 5) 1 1 = 5.
Proof.
  assert (Hgeneral :
    forall (rs : list Fraction) (steps : list Z) (d v : Quantity) (edo : Z),
      is_zero (NFraction (RatioProduct_evaluate (mkRatioProduct rs))) = false ->
      Forall2 (fun r s => (0 < r)%Q /\ fraction_steps edo r = Ok s)
              rs steps ->
      temper_note edo (mkNote (FRatio (mkRatioProduct rs)) d v)
      = Ok (mkNote (FPower (mkPower 2 (sum_int steps) edo)) d v)).
  { intros rs steps d v edo Hnonzero Hsteps.
    rewrite (temper_note_ratio_product rs d v edo Hnonzero).
    rewrite (mapM_pointwise (steps_of_fraction edo) rs steps).
    - reflexivity.
    - eapply Forall2_impl; [|exact Hsteps].
      intros r s' [Hr Hs]. rewrite (steps_of_fraction_pos edo r Hr).
      exact Hs. }
  split; [exact Hgeneral|]. split; [|split; [|split]].
  - intros rs d v edo Hnonzero Hneg.
    rewrite (temper_note_ratio_product rs d v edo Hnonzero).
    destruct (mapM_raises (steps_of_fraction edo) rs) as [e He].
    + eapply Exists_impl; [|exact Hneg].
      intros r Hr. exists (log2_error r).
      apply steps_of_fraction_nonpos. exact Hr.
    + exists e. rewrite He. reflexivity.
  - intros d v H.
    apply (Hgeneral [6 # 5] [3] d v 12 eq_refl).
    repeat constructor. exact H.
  - intros d v H.
    apply (Hgeneral [6 # 5] [5] d v 19 eq_refl).
    repeat constructor. exact H.
  - split; reflexivity.
Qed.

(** C1, where the code departs from it.  For [N = 2 ** 600] the floats
    give [round(12 * math.log2(N)) = 7200], so [N*N] is tempered to
    [Power(2, 14400, 12)]; evaluating that power is the float
    [2 ** 1200.0], out of range.  Tempering once returns, tempering the
    result again raises [OverflowError]: the two outcomes differ. *)
Theorem temper_again_overflows :
  fraction_steps 12 Examples.huge = Ok 7200 ->
  power_raises 2 14400 12 = Some OverflowError ->
  temper (Some 12) Examples.huge_squared
  = Ok (MTuple
          [MList
             [MNote (mkNote (FPower (mkPower 2 14400 12))
                            (QRatio (mkRatioProduct [1%Q]))
                            (QFraction 1%Q))]])
  /\ bind (temper (Some 12) Examples.huge_squared) (temper (Some 12))
     = Raise OverflowError
  /\ bind (temper (Some 12) Examples.huge_squared) (temper (Some 12))
     <> temper (Some 12) Examples.huge_squared.
Proof.
  intros Hsteps Hpower.
  assert (Hpos : (0 < Examples.huge)%Q) by reflexivity.
  assert (Hnonzero :
    is_zero (NFraction
               (RatioProduct_evaluate
                  (mkRatioProduct [Examples.huge; Examples.huge])))
    = false) by reflexivity.
  assert (Honce :
    temper (Some 12) Examples.huge_squared
    = Ok (MTuple
            [MList
               [MNote (mkNote (FPower (mkPower 2 14400 12))
                              (QRatio (mkRatioProduct [1%Q]))
                              (QFraction 1%Q))]])).
  { unfold Examples.huge_squared, Examples.huge_note.
    cbn [temper apply_to_notes mapM bind].
    rewrite (temper_note_ratio_product _ _ _ 12 Hnonzero).
    cbn [mapM]. rewrite (steps_of_fraction_pos 12 _ Hpos), Hsteps.
    reflexivity. }
  assert (Htwice :
    bind (temper (Some 12) Examples.huge_squared) (temper (Some 12))
    = Raise OverflowError).
  { rewrite Honce.
    cbn [bind temper apply_to_notes mapM]. unfold temper_note.
    cbn [frequency evaluate]. unfold Power_evaluate.
    cbn [base exponent_numerator exponent_denominator Z.eqb].
    rewrite Hpower. reflexivity. }
  split; [exact Honce|]. split; [exact Htwice|].
  rewrite Htwice, Honce. discriminate.
Qed.

End TemperFacts.

(** C2, as the specification words it, fails: the non-zero product of
    the factors -2 and -3 is not tempered at all, [math.log2] raising on
    the first factor whatever the floats are. *)
Lemma temper_note_negative_factors :
  Qeq_bool (RatioProduct_evaluate (mkRatioProduct [-2 # 1; -3 # 1])) 0 = false
  /\ (forall fl : Floats,
         @is_zero fl (NFraction (RatioProduct_evaluate
                                   (mkRatioProduct [-2 # 1; -3 # 1])))
         = false
         /\ @temper_note fl 12 Examples.negative_factors
            = Raise (@log2_error fl (-2 # 1))
         /\ forall n' : Note,
              @temper_note fl 12 Examples.negative_factors <> Ok n').
Proof.
  split; [reflexivity|]. intros fl.
  assert (H : @temper_note fl 12 Examples.negative_factors
              = Raise (@log2_error fl (-2 # 1))).
  { unfold Examples.negative_factors.
    rewrite (temper_note_ratio_product [-2 # 1; -3 # 1] _ _ 12 eq_refl).
    cbn [mapM].
    rewrite (steps_of_fraction_nonpos 12 (-2 # 1)) by discriminate.
    reflexivity. }
  split; [reflexivity|]. split; [exact H|].
  intros n'. rewrite H. discriminate.
Qed.

(** ** Durations *)

Section AnalysisFacts.
Context {fl : Floats}.

Lemma sum_frac_from (xs : list Q) (acc : Q) :
  (fold_left frac_add xs acc == acc + fold_right Qplus 0 xs)%Q.
Proof.
  revert acc. induction xs as [|x xs IH]; intros acc; simpl.
  - ring.
  - rewrite IH. unfold frac_add. rewrite Qred_correct. ring.
Qed.

Lemma sum_frac_correct (xs : list Q) :
  (sum_frac xs == fold_right Qplus 0 xs)%Q.
Proof. unfold sum_frac. rewrite sum_frac_from. ring. Qed.

Lemma max_frac_spec (xs : list Fraction) (x : Fraction) :
  (x <= max_frac x xs)%Q
  /\ Forall (fun y => (y <= max_frac x xs)%Q) xs
  /\ (max_frac x xs = x \/ In (max_frac x xs) xs).
Proof.
  unfold max_frac. revert x.
  induction xs as [|y ys IH]; intros x; simpl.
  - split; [apply Qle_refl|]. split; [constructor|]. left; reflexivity.
  - destruct (Qle_bool y x) eqn:E.
    + destruct (IH x) as (Hx & Hall & Hmem).
      split; [exact Hx|]. split.
      * constructor; [|exact Hall].
        apply Qle_bool_imp_le in E. eapply Qle_trans; eassumption.
      * destruct Hmem as [->|Hin]; [left; reflexivity|right; right; exact Hin].
    + destruct (IH y) as (Hy & Hall & Hmem).
      assert (Hxy : (x <= y)%Q).
      { destruct (Qlt_le_dec y x) as [Hlt|Hle]; [|exact Hle].
        apply Qlt_le_weak in Hlt. apply Qle_bool_iff in Hlt. congruence. }
      split; [eapply Qle_trans; eassumption|]. split.
      * constructor; assumption.
      * right. destruct Hmem as [->|Hin]; [left; reflexivity|right; exact Hin].
Qed.

(** C7.  [total_duration] of a note is its evaluated duration; of a part
    (a list) the sum of its children's total durations; of a chord or piece
    (a tuple) the maximum of its children's total durations; and 0 for an
    empty list or tuple. *)
Theorem total_duration_by_shape :
  (forall n : Note, total_duration (MNote n) = evaluate_quantity (duration n))
  /\ (forall xs : list Music,
         (total_duration (MList xs)
          == fold_right Qplus 0 (map total_duration xs))%Q)
  /\ (forall (x : Music) (xs : list Music),
         Forall (fun y => (total_duration y
                           <= total_duration (MTuple (x :: xs)))%Q) (x :: xs)
         /\ Exists (fun y => total_duration y
                             = total_duration (MTuple (x :: xs))) (x :: xs))
  /\ total_duration (MList []) = 0%Q
  /\ total_duration (MTuple []) = 0%Q.
Proof.
  split; [reflexivity|]. split; [|split; [|split; reflexivity]].
  - intros [|x xs].
    + simpl. reflexivity.
    + cbn [total_duration]. apply sum_frac_correct.
  - intros x xs. cbn [total_duration map].
    fold total_duration.
    destruct (max_frac_spec (map total_duration xs) (total_duration x))
      as (Hx & Hall & Hmem).
    split.
    + constructor; [exact Hx|].
      rewrite Forall_map in Hall. exact Hall.
    + destruct Hmem as [Heq|Hin].
      * apply Exists_cons_hd. symmetry. exact Heq.
      * apply Exists_cons_tl. apply in_map_iff in Hin.
        destruct Hin as (y & Hy & Hin). apply Exists_exists.
        exists y. split; assumption.
Qed.

(** ** Frequencies *)

Lemma mapM_ok_Forall2 {A B : Type} (f : A -> py B) (xs : list A) (ys : list B) :
  mapM f xs = Ok ys -> Forall2 (fun x y => f x = Ok y) xs ys.
Proof.
  revert ys; induction xs as [|x xs IH]; intros ys H; simpl in H.
  - injection H as <-. constructor.
  - destruct (f x) as [y|e] eqn:Hx; simpl in H; [|discriminate].
    destruct (mapM f xs) as [ys'|e]; simpl in H; [|discriminate].
    injection H as <-. constructor; [exact Hx|]. apply IH. reflexivity.
Qed.

Lemma mapM_ok_Forall {A B : Type} (f : A -> py B) (P : B -> Prop)
      (xs : list A) (ys : list B) :
  Forall (fun x => forall y, f x = Ok y -> P y) xs ->
  mapM f xs = Ok ys -> Forall P ys.
Proof.
  intros HF H. apply mapM_ok_Forall2 in H.
  induction H as [|x y xs ys Hxy _ IH]; [constructor|].
  inversion HF as [|? ? Hx HF']; subst.
  constructor; [apply Hx; exact Hxy|apply IH; exact HF'].
Qed.

Section OrderingFacts.

Variable num_eqb : Number -> Number -> bool.
Variable num_ltb : Number -> Number -> bool.

Lemma set_of_from_subset (xs s : list Number) (x : Number) :
  In x (fold_left (set_add num_eqb) xs s) -> In x s \/ In x xs.
Proof.
  revert s. induction xs as [|y ys IH]; intros s H; simpl in H.
  - left. exact H.
  - apply IH in H. destruct H as [H|H]; [|right; right; exact H].
    unfold set_add in H. destruct (existsb (num_eqb y) s).
    + left. exact H.
    + apply in_app_or in H. destruct H as [H|[->|[]]].
      * left. exact H.
      * right. left. reflexivity.
Qed.

Lemma set_of_subset (xs : list Number) (x : Number) :
  In x (set_of num_eqb xs) -> In x xs.
Proof.
  intros H. apply set_of_from_subset in H. destruct H as [[]|H]. exact H.
Qed.

Lemma insert_sorted_subset (x y : Number) (l : list Number) :
  In y (insert_sorted num_ltb x l) -> y = x \/ In y l.
Proof.
  induction l as [|z l IH]; simpl.
  - intros [->|[]]. left. reflexivity.
  - destruct (num_ltb x z).
    + intros [->|H]; [left; reflexivity|right; exact H].
    + intros [->|H]; [right; left; reflexivity|].
      apply IH in H. destruct H as [->|H]; [left; reflexivity|].
      right. right. exact H.
Qed.

Lemma sorted_from_subset (xs acc : list Number) (y : Number) :
  In y (fold_left (fun a x => insert_sorted num_ltb x a) xs acc) ->
  In y acc \/ In y xs.
Proof.
  revert acc. induction xs as [|x xs IH]; intros acc H; simpl in H.
  - left. exact H.
  - apply IH in H. destruct H as [H|H]; [|right; right; exact H].
    apply insert_sorted_subset in H.
    destruct H as [->|H]; [right; left; reflexivity|left; exact H].
Qed.

Lemma sorted_subset (xs : list Number) (y : Number) :
  In y (sorted num_ltb xs) -> In y xs.
Proof.
  intros H. apply sorted_from_subset in H. destruct H as [[]|H]. exact H.
Qed.

Lemma min_number_member (xs : list Number) (x : Number) :
  min_number num_ltb x xs = x \/ In (min_number num_ltb x xs) xs.
Proof.
  unfold min_number. revert x.
  induction xs as [|y ys IH]; intros x; simpl.
  - left. reflexivity.
  - destruct (num_ltb y x).
    + destruct (IH y) as [->|H]; [right; left; reflexivity|right; right; exact H].
    + destruct (IH x) as [->|H]; [left; reflexivity|right; right; exact H].
Qed.

Lemma min_number_all_inf (xs : list Number) :
  Forall (fun y => y = NInf) xs -> min_number num_ltb NInf xs = NInf.
Proof.
  unfold min_number. induction 1 as [|y ys -> _ IH]; simpl; [reflexivity|].
  destruct (num_ltb NInf NInf); exact IH.
Qed.

Lemma frequencies_set_nonzero (music : Music) :
  forall s, frequencies_set num_eqb music = Ok s ->
            Forall (fun x => is_zero x = false) s.
Proof.
  assert (Hcontainer :
    forall xs : list Music,
      Forall (fun m => forall s, frequencies_set num_eqb m = Ok s ->
                                 Forall (fun x => is_zero x = false) s) xs ->
      forall sets, mapM (frequencies_set num_eqb) xs = Ok sets ->
                   Forall (fun x => is_zero x = false)
                          (set_of num_eqb (concat sets))).
  { intros xs IH sets Hsets.
    pose proof (mapM_ok_Forall _ _ _ _ IH Hsets) as Hall.
    apply Forall_forall. intros x Hx. apply set_of_subset in Hx.
    apply in_concat in Hx. destruct Hx as (s & Hs & Hx).
    rewrite Forall_forall in Hall. specialize (Hall s Hs).
    rewrite Forall_forall in Hall. apply Hall. exact Hx. }
  induction music as [n|xs IH|xs IH] using Music_nested_ind;
    intros s H; simpl in H.
  - destruct (evaluate (frequency n)) as [f|e]; simpl in H; [|discriminate].
    injection H as <-. destruct (is_zero f) eqn:Hz; repeat constructor.
    exact Hz.
  - destruct (mapM (frequencies_set num_eqb) xs) as [sets|e] eqn:Hs;
      simpl in H; [|discriminate].
    injection H as <-. eapply Hcontainer; eassumption.
  - destruct (mapM (frequencies_set num_eqb) xs) as [sets|e] eqn:Hs;
      simpl in H; [|discriminate].
    injection H as <-. eapply Hcontainer; eassumption.
Qed.

Lemma min_of_nonzero (ls : list Number) (x : Number) :
  Forall (fun y => is_zero y = false) ls ->
  min_of num_ltb ls = Ok x -> is_zero x = false.
Proof.
  intros Hall H. destruct ls as [|l ls]; simpl in H; [discriminate|].
  injection H as <-. inversion Hall as [|? ? Hl Hls]; subst.
  destruct (min_number_member ls l) as [->|Hin]; [exact Hl|].
  rewrite Forall_forall in Hls. apply Hls. exact Hin.
Qed.

Lemma lowest_nonzero (music : Music) :
  forall x, lowest num_ltb music = Ok x -> is_zero x = false.
Proof.
  induction music as [n|xs IH|xs IH] using Music_nested_ind;
    intros x H; simpl in H.
  - destruct (evaluate (frequency n)) as [f|e]; simpl in H; [|discriminate].
    injection H as <-. destruct (is_zero f) eqn:Hz; [reflexivity|exact Hz].
  - destruct xs as [|m xs]; [injection H as <-; reflexivity|].
    destruct (mapM (lowest num_ltb) (m :: xs)) as [ls|e] eqn:Hls;
      simpl in H; [|discriminate].
    eapply min_of_nonzero; [|exact H].
    eapply mapM_ok_Forall; eassumption.
  - destruct xs as [|m xs]; [injection H as <-; reflexivity|].
    destruct (mapM (lowest num_ltb) (m :: xs)) as [ls|e] eqn:Hls;
      simpl in H; [|discriminate].
    eapply min_of_nonzero; [|exact H].
    eapply mapM_ok_Forall; eassumption.
Qed.

Lemma mapM_const {A B : Type} (f : A -> py B) (b : B) (xs : list A) :
  Forall (fun x => f x = Ok b) xs -> mapM f xs = Ok (map (fun _ => b) xs).
Proof. apply mapM_all_ok. Qed.

Lemma lowest_only_rests (music : Music) :
  only_rests music = true -> lowest num_ltb music = Ok NInf.
Proof.
  assert (Hcontainer :
    forall xs : list Music,
      Forall (fun m => only_rests m = true -> lowest num_ltb m = Ok NInf) xs ->
      forallb only_rests xs = true ->
      match xs with
      | [] => Ok NInf
      | _ => bind (mapM (lowest num_ltb) xs) (min_of num_ltb)
      end = Ok NInf).
  { intros xs IH Hall. destruct xs as [|m xs]; [reflexivity|].
    rewrite (mapM_const _ NInf).
    - cbn [map bind min_of]. rewrite min_number_all_inf; [reflexivity|].
      apply Forall_forall. intros y Hy. apply in_map_iff in Hy.
      destruct Hy as (_ & <- & _). reflexivity.
    - rewrite forallb_forall in Hall. rewrite Forall_forall in IH |- *.
      intros y Hy. apply IH; [exact Hy|]. apply Hall. exact Hy. }
  induction music as [n|xs IH|xs IH] using Music_nested_ind;
    intros H; simpl in H.
  - simpl. destruct (evaluate (frequency n)) as [f|e]; [|discriminate].
    simpl. rewrite H. reflexivity.
  - apply Hcontainer; assumption.
  - apply Hcontainer; assumption.
Qed.

Lemma concat_all_nil {A : Type} (ls : list (list A)) :
  Forall (fun l => l = []) ls -> concat ls = [].
Proof. induction 1 as [|l ls -> _ IH]; simpl; [reflexivity|exact IH]. Qed.

Lemma frequencies_set_only_rests (music : Music) :
  only_rests music = true -> frequencies_set num_eqb music = Ok [].
Proof.
  assert (Hcontainer :
    forall xs : list Music,
      Forall (fun m => only_rests m = true ->
                       frequencies_set num_eqb m = Ok []) xs ->
      forallb only_rests xs = true ->
      bind (mapM (frequencies_set num_eqb) xs)
           (fun sets => Ok (set_of num_eqb (concat sets))) = Ok []).
  { intros xs IH Hall.
    rewrite (mapM_const _ []).
    - cbn [bind]. rewrite concat_all_nil; [reflexivity|].
      apply Forall_forall. intros y Hy. apply in_map_iff in Hy.
      destruct Hy as (_ & <- & _). reflexivity.
    - rewrite forallb_forall in Hall. rewrite Forall_forall in IH |- *.
      intros y Hy. apply IH; [exact Hy|]. apply Hall. exact Hy. }
  induction music as [n|xs IH|xs IH] using Music_nested_ind;
    intros H; simpl in H.
  - simpl. destruct (evaluate (frequency n)) as [f|e]; [|discriminate].
    simpl. rewrite H. reflexivity.
  - apply Hcontainer; assumption.
  - apply Hcontainer; assumption.
Qed.

End OrderingFacts.

(** C8.  Rests contribute nothing: zero is never a member of the result of
    [frequencies_set] or [all_frequencies] and is never returned by
    [lowest]; for music that is empty or holds only rests the set is empty
    and [lowest] returns +infinity.  This holds whatever Python's [==] and
    [<] decide between the evaluated numbers. *)
Theorem rests_contribute_nothing :
  forall (num_eqb num_ltb : Number -> Number -> bool) (music : Music),
    (forall s, frequencies_set num_eqb music = Ok s ->
               Forall (fun x => is_zero x = false) s)
    /\ (forall l, all_frequencies num_eqb num_ltb music = Ok l ->
                  Forall (fun x => is_zero x = false) l)
    /\ (forall x, lowest num_ltb music = Ok x -> is_zero x = false)
    /\ (only_rests music = true ->
        frequencies_set num_eqb music = Ok []
        /\ all_frequencies num_eqb num_ltb music = Ok []
        /\ lowest num_ltb music = Ok NInf).
Proof.
  intros num_eqb num_ltb music. split; [|split; [|split]].
  - apply frequencies_set_nonzero.
  - intros l H. unfold all_frequencies in H.
    destruct (frequencies_set num_eqb music) as [s|e] eqn:Hs;
      simpl in H; [|discriminate].
    injection H as <-. apply frequencies_set_nonzero in Hs.
    rewrite Forall_forall in Hs |- *.
    intros x Hx. apply Hs. eapply sorted_subset. exact Hx.
  - apply lowest_nonzero.
  - intros Hrests. split; [|split].
    + apply frequencies_set_only_rests. exact Hrests.
    + unfold all_frequencies.
      rewrite frequencies_set_only_rests by exact Hrests. reflexivity.
    + apply lowest_only_rests. exact Hrests.
Qed.

End AnalysisFacts.

(** ** Multiplying frequencies *)

Lemma last_child_snoc (front : list Child) (c : Child) :
  last_child (front ++ [c]) = Ok c.
Proof. unfold last_child. rewrite rev_unit. reflexivity. Qed.

Lemma prod_ratio_products_from (rs : list RatioProduct) (acc : RatioProduct) :
  fold_left
    (fun a r => bind a (fun a' => RatioProduct_mul a' (ArgRatioProduct r)))
    rs (Ok acc)
  = Ok (mkRatioProduct (ratios acc ++ concat (map ratios rs))).
Proof.
  revert acc. induction rs as [|r rs IH]; intros acc; simpl.
  - rewrite app_nil_r. destruct acc. reflexivity.
  - unfold RatioProduct_mul at 2. cbn [RatioProduct_init bind ratios].
    rewrite IH. cbn [ratios]. rewrite <- app_assoc. reflexivity.
Qed.

Lemma prod_ratio_products_ok (rs : list RatioProduct) :
  prod_ratio_products rs = Ok (mkRatioProduct (concat (map ratios rs))).
Proof. unfold prod_ratio_products. simpl. apply prod_ratio_products_from. Qed.

Section ApplyRejects.

Variable f : Note -> py Note.
Hypothesis f_power :
  forall n p, frequency n = FPower p -> f n = Raise ValueError.
Hypothesis f_other :
  forall n, (exists n', f n = Ok n') \/ f n = Raise ValueError.

Lemma mapM_ok_or_value_error (xs : list Music) :
  Forall (fun m => (exists m', apply_to_notes f m = Ok m')
                   \/ apply_to_notes f m = Raise ValueError) xs ->
  (exists ys, mapM (apply_to_notes f) xs = Ok ys)
  \/ mapM (apply_to_notes f) xs = Raise ValueError.
Proof.
  induction 1 as [|m xs Hm _ IH]; simpl.
  - left. eexists. reflexivity.
  - destruct Hm as [[m' ->]| ->]; [|right; reflexivity]. simpl.
    destruct IH as [[ys ->]| ->]; [left; eexists|right]; reflexivity.
Qed.

Lemma apply_ok_or_value_error (music : Music) :
  (exists m', apply_to_notes f music = Ok m')
  \/ apply_to_notes f music = Raise ValueError.
Proof.
  induction music as [n|xs IH|xs IH] using Music_nested_ind; simpl.
  - destruct (f_other n) as [[n' ->]| ->]; [left; eexists|right]; reflexivity.
  - destruct (mapM_ok_or_value_error xs IH) as [[ys ->]| ->];
      [left; eexists|right]; reflexivity.
  - destruct (mapM_ok_or_value_error xs IH) as [[ys ->]| ->];
      [left; eexists|right]; reflexivity.
Qed.

Lemma mapM_rejects (xs : list Music) :
  Forall (fun m => has_power_note m = true ->
                   apply_to_notes f m = Raise ValueError) xs ->
  existsb has_power_note xs = true ->
  mapM (apply_to_notes f) xs = Raise ValueError.
Proof.
  induction 1 as [|m xs Hm _ IH]; simpl; [discriminate|].
  intros H. destruct (apply_ok_or_value_error m) as [[m' Hok]|Herr].
  - rewrite Hok. simpl. destruct (has_power_note m) eqn:Hp.
    + rewrite (Hm eq_refl) in Hok. discriminate.
    + simpl in H. rewrite (IH H). reflexivity.
  - rewrite Herr. reflexivity.
Qed.

Lemma apply_to_notes_rejects (music : Music) :
  has_power_note music = true -> apply_to_notes f music = Raise ValueError.
Proof.
  induction music as [n|xs IH|xs IH] using Music_nested_ind;
    simpl; intros H.
  - destruct (frequency n) as [r|q|p] eqn:Hf; try discriminate.
    rewrite (f_power n p Hf). reflexivity.
  - rewrite (mapM_rejects xs IH H). reflexivity.
  - rewrite (mapM_rejects xs IH H). reflexivity.
Qed.

End ApplyRejects.

Lemma mult_note_power (multiplier : RatioProduct) (n : Note) (p : Power) :
  frequency n = FPower p ->
  bind (RatioProduct_init (ArgRatioProduct multiplier))
       (fun left =>
          bind (RatioProduct_mul left (arg_of_frequency (frequency n)))
               (fun f => Ok {| frequency := FRatio f;
                               duration := duration n;
                               volume := volume n |}))
  = Raise ValueError.
Proof. intros ->. reflexivity. Qed.

Lemma mult_note_total (multiplier : RatioProduct) (n : Note) :
  (exists n',
      bind (RatioProduct_init (ArgRatioProduct multiplier))
           (fun left =>
              bind (RatioProduct_mul left (arg_of_frequency (frequency n)))
                   (fun f => Ok {| frequency := FRatio f;
                                   duration := duration n;
                                   volume := volume n |}))
      = Ok n')
  \/ bind (RatioProduct_init (ArgRatioProduct multiplier))
          (fun left =>
             bind (RatioProduct_mul left (arg_of_frequency (frequency n)))
                  (fun f => Ok {| frequency := FRatio f;
                                  duration := duration n;
                                  volume := volume n |}))
     = Raise ValueError.
Proof.
  destruct (frequency n) as [r|q|p]; simpl;
    [left; eexists; reflexivity|left; eexists; reflexivity|right; reflexivity].
Qed.

(** C10.  [mult_expr] applied to music that holds an already tempered note
    (a [Power] frequency) raises instead of returning music: the
    [RatioProduct] constructor rejects a [Power] operand with [ValueError]
    (and [Power.__rmul__] raises as well), so when the leading children are
    ratio products the whole call raises [ValueError]. *)
Theorem mult_expr_rejects_tempered :
  forall (front : list Child) (music : Music),
    has_power_note music = true ->
    raises (mult_expr (front ++ [CMusic music]))
    /\ (forall rs : list RatioProduct,
           front = map CRatio rs ->
           mult_expr (front ++ [CMusic music]) = Raise ValueError)
    /\ (forall (p : Power) (other : RatioArg),
           Power_rmul p other = Raise NotImplementedError
           /\ RatioProduct_init (ArgPower p) = Raise ValueError
           /\ forall self, RatioProduct_mul self (ArgPower p) = Raise ValueError).
Proof.
  intros front music Hp.
  assert (Hbody :
    forall rps,
      bind (prod_ratio_products rps)
        (fun multiplier =>
           apply_to_notes
             (fun x =>
                bind (RatioProduct_init (ArgRatioProduct multiplier))
                  (fun left =>
                     bind (RatioProduct_mul left
                             (arg_of_frequency (frequency x)))
                       (fun f => Ok {| frequency := FRatio f;
                                       duration := duration x;
                                       volume := volume x |})))
             music)
      = Raise ValueError).
  { intros rps. rewrite prod_ratio_products_ok. cbn [bind].
    apply apply_to_notes_rejects; [|apply mult_note_total|exact Hp].
    intros n p. apply mult_note_power. }
  split; [|split].
  - unfold mult_expr. rewrite last_child_snoc, removelast_last. cbn [bind].
    match goal with
    | |- raises (bind ?c _) => destruct c as [rps|e]
    end; cbn [bind].
    + rewrite Hbody. exists ValueError. reflexivity.
    + exists e. reflexivity.
  - intros rs ->. unfold mult_expr.
    rewrite last_child_snoc, removelast_last. cbn [bind].
    rewrite (mapM_all_ok _ (fun c => match c with
                                     | CRatio r => r
                                     | CMusic _ => mkRatioProduct []
                                     end)).
    + cbn [bind]. apply Hbody.
    + apply Forall_forall. intros c Hc. apply in_map_iff in Hc.
      destruct Hc as (r & <- & _). reflexivity.
  - intros p other. repeat split.
Qed.

(** ** Variable-length quantities *)

Lemma int_of_bits_from (bits : bitstr) (acc : Z) :
  fold_left (fun a b => 2 * a + Z.b2z b) bits acc
  = acc * 2 ^ Z.of_nat (length bits) + int_of_bits bits.
Proof.
  unfold int_of_bits. revert acc.
  induction bits as [|b bits IH]; intros acc.
  - simpl. lia.
  - cbn [fold_left length]. rewrite IH, (IH (2 * 0 + Z.b2z b)).
    rewrite Nat2Z.inj_succ, Z.pow_succ_r by lia. ring.
Qed.

Lemma int_of_bits_app (l1 l2 : bitstr) :
  int_of_bits (l1 ++ l2)
  = int_of_bits l1 * 2 ^ Z.of_nat (length l2) + int_of_bits l2.
Proof.
  unfold int_of_bits at 1. rewrite fold_left_app.
  rewrite int_of_bits_from. reflexivity.
Qed.

Lemma int_of_bits_cons (b : bool) (l : bitstr) :
  int_of_bits (b :: l) = Z.b2z b * 2 ^ Z.of_nat (length l) + int_of_bits l.
Proof.
  change (b :: l) with ([b] ++ l). rewrite int_of_bits_app.
  unfold int_of_bits at 1. simpl. destruct b; reflexivity.
Qed.

Lemma int_of_bits_bounds (l : bitstr) :
  0 <= int_of_bits l < 2 ^ Z.of_nat (length l).
Proof.
  induction l as [|b l IH].
  - unfold int_of_bits. simpl. lia.
  - rewrite int_of_bits_cons. cbn [length].
    rewrite Nat2Z.inj_succ, Z.pow_succ_r by lia.
    destruct b; simpl Z.b2z; lia.
Qed.

Lemma int_of_bits_zeros (k : nat) (l : bitstr) :
  int_of_bits (repeat false k ++ l) = int_of_bits l.
Proof.
  induction k as [|k IH]; [reflexivity|].
  cbn [repeat app]. rewrite int_of_bits_cons, IH. simpl Z.b2z. lia.
Qed.

Lemma int_of_bits_pos (p : positive) : int_of_bits (bits_of_pos p) = Zpos p.
Proof.
  induction p as [p IH|p IH|]; cbn [bits_of_pos].
  - rewrite int_of_bits_app, IH. unfold int_of_bits at 1. simpl. lia.
  - rewrite int_of_bits_app, IH. unfold int_of_bits at 1. simpl. lia.
  - reflexivity.
Qed.

Lemma int_of_format_b (n : Z) : 0 <= n -> int_of_bits (format_b n) = n.
Proof.
  intros Hn. destruct n as [|p|p]; [reflexivity|apply int_of_bits_pos|lia].
Qed.

Lemma format_0b_length (n : Z) :
  length (format_0b (n_bytes_of (format_b n) * 7) n)
  = (7 * n_bytes_of (format_b n))%nat.
Proof.
  unfold format_0b, n_bytes_of. rewrite length_app, repeat_length.
  set (len := length (format_b n)).
  pose proof (Nat.div_mod_eq (len + 6) 7) as Hdiv.
  pose proof (Nat.mod_upper_bound (len + 6) 7) as Hmod.
  lia.
Qed.

Lemma n_bytes_positive (n : Z) : (1 <= n_bytes_of (format_b n))%nat.
Proof.
  unfold n_bytes_of.
  assert (Hlen : (1 <= length (format_b n))%nat).
  { destruct n as [|p|p]; simpl; try lia.
    destruct p; simpl; rewrite ?length_app; simpl; lia. }
  set (len := length (format_b n)) in *.
  pose proof (Nat.div_mod_eq (len + 6) 7) as Hdiv.
  pose proof (Nat.mod_upper_bound (len + 6) 7) as Hmod.
  lia.
Qed.

Lemma byte_strings_one (l : bitstr) :
  byte_strings l 1 = [false :: firstn 7 l].
Proof. reflexivity. Qed.

Lemma byte_strings_succ (l : bitstr) (k : nat) :
  (1 <= k)%nat ->
  byte_strings l (S k) = (true :: firstn 7 l) :: byte_strings (skipn 7 l) k.
Proof.
  intros Hk. unfold byte_strings.
  cbn [seq map]. f_equal.
  - unfold slice. f_equal.
    destruct k; [lia|reflexivity].
  - rewrite <- seq_shift, map_map. apply map_ext. intros i.
    f_equal.
    + destruct k; [lia|]. simpl. rewrite Nat.sub_0_r. reflexivity.
    + unfold slice. rewrite skipn_skipn.
      replace (7 * (S i + 1) - 7 * S i)%nat with (7 * (i + 1) - 7 * i)%nat by lia.
      replace (7 * S i)%nat with (7 * i + 7)%nat by lia. reflexivity.
Qed.

Lemma flagged_byte (flag : bool) (chunk : bitstr) :
  length chunk = 7%nat ->
  int_of_bits (flag :: chunk) = Z.b2z flag * 128 + int_of_bits chunk
  /\ 0 <= int_of_bits chunk < 128.
Proof.
  intros Hlen. rewrite int_of_bits_cons.
  pose proof (int_of_bits_bounds chunk) as Hb. rewrite Hlen in *.
  change (2 ^ Z.of_nat 7) with 128 in *. split; [reflexivity|exact Hb].
Qed.

Lemma lor_shiftl_7 (acc c : Z) :
  0 <= c < 128 -> Z.lor (Z.shiftl acc 7) c = acc * 128 + c.
Proof.
  intros Hc.
  assert (Hland : Z.land (Z.shiftl acc 7) c = 0).
  { apply Z.bits_inj'. intros i Hi. rewrite Z.land_spec, Z.bits_0.
    destruct (Z.lt_ge_cases i 7) as [Hlt|Hge].
    - rewrite Z.shiftl_spec_low by exact Hlt. reflexivity.
    - rewrite <- (Z.mod_small c (2 ^ 7)) by (change (2 ^ 7) with 128; lia).
      rewrite Z.mod_pow2_bits_high by lia. apply andb_false_r. }
  pose proof (Z.add_lor_land (Z.shiftl acc 7) c) as H.
  rewrite Hland, Z.add_0_r in H. rewrite H.
  rewrite Z.shiftl_mul_pow2 by lia. reflexivity.
Qed.

Lemma decode_byte (flag : bool) (c : Z) :
  0 <= c < 128 ->
  Z.testbit (Z.b2z flag * 128 + c) 7 = flag
  /\ Z.land (Z.b2z flag * 128 + c) 127 = c
  /\ (Z.b2z flag * 128 + c) mod 128 = c.
Proof.
  intros Hc.
  assert (Hmod : (Z.b2z flag * 128 + c) mod 128 = c).
  { rewrite Z.add_comm, Z.mod_add by lia. apply Z.mod_small. exact Hc. }
  split; [|split; [|exact Hmod]].
  - rewrite Z.testbit_odd, Z.shiftr_div_pow2 by lia.
    change (2 ^ 7) with 128.
    rewrite Z.add_comm, Z.div_add by lia.
    rewrite Z.div_small by exact Hc. destruct flag; reflexivity.
  - change 127 with (Z.ones 7). rewrite Z.land_ones by lia. exact Hmod.
Qed.

Lemma chunk_lengths (l : bitstr) (k : nat) :
  length l = (7 * S k)%nat ->
  length (firstn 7 l) = 7%nat /\ length (skipn 7 l) = (7 * k)%nat.
Proof.
  intros Hlen. rewrite length_firstn, length_skipn. lia.
Qed.

Lemma int_of_bits_split (l : bitstr) (k : nat) :
  length l = (7 * S k)%nat ->
  int_of_bits l
  = int_of_bits (firstn 7 l) * 2 ^ Z.of_nat (7 * k)
    + int_of_bits (skipn 7 l).
Proof.
  intros Hlen. destruct (chunk_lengths l k Hlen) as [_ Hskip].
  rewrite <- (firstn_skipn 7 l) at 1.
  rewrite int_of_bits_app, Hskip. reflexivity.
Qed.

(** The bytes made from a padded bit string of [7 * (k + 1)] bits: what
    they decode to, their number, their chunks and their top bits. *)
Lemma vlq_bytes_spec (k : nat) :
  forall (l : bitstr) (acc : Z),
    length l = (7 * S k)%nat ->
    let bytes := map int_of_bits (byte_strings l (S k)) in
    vlq_decode_from acc bytes
    = Some (acc * 2 ^ Z.of_nat (7 * S k) + int_of_bits l, [])
    /\ fold_left (fun a b => a * 128 + b mod 128) bytes acc
       = acc * 2 ^ Z.of_nat (7 * S k) + int_of_bits l
    /\ length bytes = S k
    /\ Forall (fun b => 128 <= b < 256) (removelast bytes)
    /\ 0 <= last bytes 0 < 128
    /\ Forall (fun b => 0 <= b < 256) bytes.
Proof.
  induction k as [|k IH]; intros l acc Hlen bytes; subst bytes.
  - rewrite byte_strings_one. cbn [map].
    destruct (chunk_lengths l 0 Hlen) as [Hfirst Hskip].
    destruct (flagged_byte false (firstn 7 l) Hfirst) as [-> Hc].
    destruct (decode_byte false _ Hc) as (Htest & Hland & Hmod).
    assert (Hl : int_of_bits l = int_of_bits (firstn 7 l)).
    { rewrite <- (firstn_skipn 7 l) at 1.
      destruct (skipn 7 l); [|discriminate Hskip].
      rewrite app_nil_r. reflexivity. }
    cbn [vlq_decode_from fold_left removelast last length].
    rewrite Htest, Hland, Hmod, lor_shiftl_7 by exact Hc.
    rewrite Hl. change (2 ^ Z.of_nat (7 * 1)) with 128.
    simpl Z.b2z. cbn [Z.mul Z.add].
    repeat split; try (constructor; fail); try lia.
    constructor; [lia|constructor].
  - rewrite byte_strings_succ by lia. cbn [map].
    destruct (chunk_lengths l (S k) Hlen) as [Hfirst Hskip].
    destruct (flagged_byte true (firstn 7 l) Hfirst) as [-> Hc].
    destruct (decode_byte true _ Hc) as (Htest & Hland & Hmod).
    specialize (IH (skipn 7 l) (acc * 128 + int_of_bits (firstn 7 l)) Hskip).
    cbv zeta in IH.
    destruct IH as (Hdec & Hfold & Hcount & Hfront & Hlast & Hall).
    cbn [vlq_decode_from fold_left length].
    rewrite Htest, Hland, Hmod, lor_shiftl_7 by exact Hc.
    rewrite Hdec, Hfold, Hcount.
    rewrite (int_of_bits_split l (S k) Hlen).
    replace (Z.of_nat (7 * S (S k))) with (7 + Z.of_nat (7 * S k)) by lia.
    rewrite Z.pow_add_r by lia. change (2 ^ 7) with 128.
    set (rest := map int_of_bits (byte_strings (skipn 7 l) (S k))) in *.
    assert (Hne : rest <> []) by (destruct rest; [discriminate Hcount|discriminate]).
    destruct rest as [|r rest'] eqn:Hrest; [contradiction|].
    cbn [removelast last]. simpl Z.b2z.
    split; [f_equal; f_equal; ring|].
    split; [ring|]. split; [reflexivity|].
    split; [constructor; [lia|exact Hfront]|].
    split; [exact Hlast|].
    constructor; [lia|exact Hall].
Qed.

Lemma hex_byte_parses :
  forallb
    (fun k =>
       match format_0X 2 (Z.of_nat k) with
       | [hi; lo] =>
           match hex_value hi, hex_value lo with
           | Some h, Some l => 16 * h + l =? Z.of_nat k
           | _, _ => false
           end
       | _ => false
       end)
    (seq 0 256) = true.
Proof. vm_compute. reflexivity. Qed.

Lemma bytes_fromhex_byte (v : Z) (rest : pystr) :
  0 <= v < 256 ->
  bytes_fromhex (format_0X 2 v ++ rest)
  = match bytes_fromhex rest with
    | Some bs => Some (v :: bs)
    | None => None
    end.
Proof.
  intros Hv. pose proof hex_byte_parses as H.
  rewrite forallb_forall in H. specialize (H (Z.to_nat v)).
  rewrite Z2Nat.id in H by lia.
  assert (Hin : In (Z.to_nat v) (seq 0 256)) by (apply in_seq; lia).
  specialize (H Hin).
  destruct (format_0X 2 v) as [|hi [|lo [|x xs]]]; try discriminate H.
  cbn [app bytes_fromhex].
  destruct (hex_value hi) as [h|]; [|discriminate H].
  destruct (hex_value lo) as [l|]; [|discriminate H].
  apply Z.eqb_eq in H. rewrite H. reflexivity.
Qed.

Lemma bytes_fromhex_bytes (bytes : list Z) :
  Forall (fun b => 0 <= b < 256) bytes ->
  bytes_fromhex (concat (map (format_0X 2) bytes)) = Some bytes.
Proof.
  induction 1 as [|b bs Hb _ IH]; [reflexivity|].
  cbn [map concat]. rewrite bytes_fromhex_byte by exact Hb.
  rewrite IH. reflexivity.
Qed.

(** C5.  For [n >= 0], [variable_length_quantity(n)] prints
    [ceil(bits / 7)] bytes that hold the bits of [n] in groups of seven,
    most significant first, with the top bit set on every byte but the
    last; the standard decoder reads [n] back from them.  [0x3FFF] gives
    [FF 7F] and [0x4000] gives [81 80 00]. *)
Theorem variable_length_quantity_round_trip :
  (forall n : Z,
      0 <= n ->
      exists bytes : list Z,
        variable_length_quantity n = Ok (concat (map (format_0X 2) bytes))
        /\ bytes_fromhex (concat (map (format_0X 2) bytes)) = Some bytes
        /\ length bytes = n_bytes_of (format_b n)
        /\ fold_left (fun a b => a * 128 + b mod 128) bytes 0 = n
        /\ Forall (fun b => 128 <= b < 256) (removelast bytes)
        /\ 0 <= last bytes 0 < 128
        /\ vlq_decode bytes = Some (n, []))
  /\ variable_length_quantity 16383 = Ok (str "FF7F")
  /\ variable_length_quantity 16384 = Ok (str "818000").
Proof.
  split; [|split; reflexivity].
  intros n Hn. exists (vlq_bytes n).
  unfold variable_length_quantity.
  destruct (n <? 0) eqn:Hneg; [apply Z.ltb_lt in Hneg; lia|].
  pose proof (n_bytes_positive n) as Hpos.
  pose proof (format_0b_length n) as Hlen.
  unfold vlq_bytes.
  destruct (n_bytes_of (format_b n)) as [|k] eqn:Hk; [lia|].
  destruct (vlq_bytes_spec k (format_0b (S k * 7) n) 0 Hlen)
    as (Hdec & Hfold & Hcount & Hfront & Hlast & Hall).
  assert (Hval : int_of_bits (format_0b (S k * 7) n) = n).
  { unfold format_0b. rewrite int_of_bits_zeros. apply int_of_format_b. exact Hn. }
  rewrite Hval in Hdec, Hfold. cbn [Z.mul Z.add] in Hdec, Hfold.
  unfold vlq_hex, vlq_bytes. rewrite Hk.
  split; [reflexivity|].
  split; [apply bytes_fromhex_bytes; exact Hall|].
  split; [exact Hcount|].
  split; [exact Hfold|].
  split; [exact Hfront|].
  split; [exact Hlast|exact Hdec].
Qed.

(** ** Chords in the pitch-bend strategy *)

Section ChordFloats.
Context {fl : Floats}.

Lemma is_integer_fraction (t : Q) :
  Qeq_bool (inject_Z (int_of_fraction t)) t = true ->
  exists k : Z, (t == inject_Z k)%Q.
Proof.
  intros H. apply Qeq_bool_eq in H.
  exists (int_of_fraction t). symmetry. exact H.
Qed.

(** one [assert] that held, in a hypothesis about a successful call *)
Ltac assert_held H :=
  match type of H with
  | context [if ?c then Ok tt else Raise AssertionError] =>
      destruct c; cbn [bind] in H; [|discriminate H]
  end.

Lemma MidiNote_new_ok (p : Z) (b : option Z) (t v : Z) (m : MidiNote) :
  MidiNote_new p b t v = Ok m -> m = mkMidiNote p b t v.
Proof.
  unfold MidiNote_new, assert. intros H.
  assert_held H.
  destruct b as [b|]; [assert_held H|cbn [bind] in H];
    assert_held H; injection H as <-; reflexivity.
Qed.

Lemma nodup_all_equal (t : Z) (ts : list Z) :
  Forall (fun x => x = t) ts -> nodup Z.eq_dec (t :: ts) = [t].
Proof.
  induction 1 as [|x ts -> _ IH].
  - reflexivity.
  - cbn [nodup] in *. destruct (in_dec Z.eq_dec t (t :: ts)) as [_|Hn].
    + destruct (in_dec Z.eq_dec t ts) as [Hin|Hnin].
      * destruct ts as [|y ts']; [destruct Hin|].
        exact IH.
      * exact IH.
    + exfalso. apply Hn. left. reflexivity.
Qed.

Lemma nodup_length_one (t : Z) (ts : list Z) :
  length (nodup Z.eq_dec (t :: ts)) = 1%nat -> Forall (fun x => x = t) ts.
Proof.
  intros Hlen.
  destruct (nodup Z.eq_dec (t :: ts)) as [|u [|v us]] eqn:E;
    try discriminate Hlen.
  assert (Hin : forall x, In x (t :: ts) -> x = u).
  { intros x Hx. apply (nodup_In Z.eq_dec) in Hx. rewrite E in Hx.
    destruct Hx as [<-|[]]. reflexivity. }
  apply Forall_forall. intros x Hx.
  rewrite (Hin x (or_intror Hx)), (Hin t (or_introl eq_refl)). reflexivity.
Qed.

Lemma mapM_ok_in {A B : Type} (f : A -> py B) (xs : list A) (ys : list B)
      (y : B) :
  mapM f xs = Ok ys -> In y ys -> exists x, In x xs /\ f x = Ok y.
Proof.
  intros H Hin. apply mapM_ok_Forall2 in H.
  induction H as [|x y' xs ys Hxy _ IH]; [destruct Hin|].
  destruct Hin as [->|Hin].
  - exists x. split; [left; reflexivity|exact Hxy].
  - destruct (IH Hin) as (x' & Hx' & Hf). exists x'.
    split; [right; exact Hx'|exact Hf].
Qed.

Section EncoderFacts.

Variable float : Type.
Variable real_frequency_is_zero : Number -> float -> bool.
Variable pitch_and_bend : Number -> float -> Z -> py (Z * Z).

Let to_midi := Midi.to_midi float real_frequency_is_zero pitch_and_bend.
Let element_to_midi :=
  Midi.element_to_midi float real_frequency_is_zero pitch_and_bend.
Let chord_to_midi :=
  Midi.chord_to_midi float real_frequency_is_zero pitch_and_bend.

Lemma to_midi_ok (note : Note) (f0 : float) (range : Z) (m : MidiNote) :
  to_midi note f0 range = Ok m ->
  (inject_Z (ticks m)
   == evaluate_quantity (duration note) * inject_Z DIVISION)%Q
  /\ bend m = Some (bend_of m).
Proof.
  unfold to_midi, Midi.to_midi, assert. intros H.
  destruct (Qeq_bool _ _) eqn:Hint; simpl in H; [|discriminate].
  apply Qeq_bool_eq in Hint. unfold frac_mul in Hint at 2.
  rewrite Qred_correct in Hint.
  destruct (evaluate (frequency note)) as [f|e]; simpl in H; [|discriminate].
  destruct (real_frequency_is_zero f f0).
  - apply MidiNote_new_ok in H. subst m. split; [exact Hint|reflexivity].
  - destruct (pitch_and_bend f f0 range) as [pb|e]; simpl in H; [|discriminate].
    apply MidiNote_new_ok in H. subst m. split; [exact Hint|reflexivity].
Qed.

Lemma to_midi_non_integral (note : Note) (f0 : float) (range : Z) :
  ~ (exists k : Z,
        (evaluate_quantity (duration note) * inject_Z DIVISION
         == inject_Z k)%Q) ->
  to_midi note f0 range = Raise AssertionError.
Proof.
  intros Hnot. unfold to_midi, Midi.to_midi, assert.
  destruct (Qeq_bool _ _) eqn:Hint; [|reflexivity].
  exfalso. apply Hnot. apply is_integer_fraction in Hint.
  destruct Hint as [k Hk]. exists k. rewrite <- Hk.
  unfold frac_mul. rewrite Qred_correct. reflexivity.
Qed.

Lemma element_to_midi_ok (x : Music) (f0 : float) (range : Z) (m : MidiNote) :
  element_to_midi f0 range x = Ok m ->
  exists n, x = MNote n
            /\ (inject_Z (ticks m)
                == evaluate_quantity (duration n) * inject_Z DIVISION)%Q
            /\ bend m = Some (bend_of m).
Proof.
  destruct x as [n|xs|xs]; simpl; try discriminate.
  intros H. exists n. split; [reflexivity|]. eapply to_midi_ok. exact H.
Qed.

Lemma pitch_bends_ok (nwc : list (MidiNote * Z)) :
  Forall (fun nc => bend (fst nc) = Some (bend_of (fst nc))) nwc ->
  mapM pitch_bend_event nwc
  = Ok (map (fun nc => render (PitchBend (snd nc) (bend_of (fst nc)))) nwc).
Proof.
  intros H. apply mapM_all_ok. eapply Forall_impl; [|exact H].
  intros nc Hb. unfold pitch_bend_event. rewrite Hb. reflexivity.
Qed.

Lemma later_note_offs_ok (t : Z) (c0 : Z) (cs : list Z)
      (nwc : list (MidiNote * Z)) :
  Forall (fun nc => snd nc <> c0) nwc ->
  mapM (note_off_event t (c0 :: cs)) nwc
  = Ok (map (fun nc => render (NoteOff 0 (snd nc) (pitch (fst nc)))) nwc).
Proof.
  intros H. apply mapM_all_ok. eapply Forall_impl; [|exact H].
  intros nc Hc. unfold note_off_event. cbn [hd].
  destruct (snd nc =? c0) eqn:E; [apply Z.eqb_eq in E; contradiction|].
  reflexivity.
Qed.

Lemma chord_to_midi_ok (notes : Music) (f0 : float) (channels : list Z)
      (range : Z) (m : MidiNote) (ms : list MidiNote) :
  NoDup channels ->
  mapM (element_to_midi f0 range) (as_chord notes) = Ok (m :: ms) ->
  Forall (fun x => ticks x = ticks m) ms ->
  0 <= ticks m ->
  (length (m :: ms) <= length channels)%nat ->
  chord_to_midi notes f0 channels range
  = Ok (concat (map render
                    (chord_events (ticks m) (combine (m :: ms) channels)))).
Proof.
  intros Hnodup Hmap Hticks Hpos Hlen.
  assert (E : (length (m :: ms) <=? length channels)%nat = true)
    by (apply Nat.leb_le; exact Hlen).
  unfold chord_to_midi, Midi.chord_to_midi.
  fold element_to_midi. rewrite Hmap. cbn [bind map hd].
  rewrite E.
  rewrite nodup_all_equal
    by (rewrite Forall_map; exact Hticks).
  cbn [length Nat.eqb assert bind].
  destruct channels as [|c0 cs]; [simpl in Hlen; lia|].
  assert (Hbends :
    Forall (fun nc => bend (fst nc) = Some (bend_of (fst nc)))
           (combine (m :: ms) (c0 :: cs))).
  { apply Forall_forall. intros [n c] Hin. apply in_combine_l in Hin.
    destruct (mapM_ok_in _ _ _ _ Hmap Hin) as (x & _ & Hxy). cbn [fst].
    apply element_to_midi_ok in Hxy. destruct Hxy as (_ & _ & _ & Hb).
    exact Hb. }
  rewrite (pitch_bends_ok _ Hbends). cbn [bind].
  cbn [combine mapM]. unfold note_off_event at 1. cbn [snd hd fst].
  rewrite Z.eqb_refl. unfold variable_length_quantity.
  destruct (ticks m <? 0) eqn:Hneg; [apply Z.ltb_lt in Hneg; lia|].
  cbn [bind].
  rewrite later_note_offs_ok.
  - cbn [bind]. f_equal. unfold chord_events. cbn [combine].
    rewrite !map_app, !map_map. cbn [map]. rewrite map_map.
    reflexivity.
  - apply Forall_forall. intros [n c] Hin. apply in_combine_r in Hin.
    cbn [snd]. inversion Hnodup as [|? ? Hnotin _]; subst.
    intros ->. contradiction.
Qed.

Lemma chord_to_midi_inv (notes : Music) (f0 : float) (channels : list Z)
      (range : Z) (out : pystr) :
  chord_to_midi notes f0 channels range = Ok out ->
  exists (m : MidiNote) (ms : list MidiNote),
    mapM (element_to_midi f0 range) (as_chord notes) = Ok (m :: ms)
    /\ Forall (fun x => ticks x = ticks m) ms
    /\ 0 <= ticks m
    /\ (length (m :: ms) <= length channels)%nat.
Proof.
  unfold chord_to_midi, Midi.chord_to_midi. fold element_to_midi.
  intros H.
  destruct (mapM (element_to_midi f0 range) (as_chord notes)) as [ms0|e];
    cbn [bind] in H; [|discriminate H].
  unfold assert in H.
  destruct (length (nodup Z.eq_dec (map ticks ms0)) =? 1)%nat eqn:Eset;
    cbn [bind] in H; [|discriminate H].
  destruct (length ms0 <=? length channels)%nat eqn:Elen;
    cbn [bind] in H; [|discriminate H].
  apply Nat.eqb_eq in Eset. apply Nat.leb_le in Elen.
  destruct ms0 as [|m ms]; [discriminate Eset|].
  exists m, ms. split; [reflexivity|].
  cbn [map] in Eset. apply nodup_length_one in Eset.
  rewrite Forall_map in Eset. split; [exact Eset|]. split; [|exact Elen].
  destruct channels as [|c0 cs]; [simpl in Elen; lia|].
  destruct (mapM pitch_bend_event (combine (m :: ms) (c0 :: cs))) as [bends|e];
    cbn [bind] in H; [|discriminate H].
  cbn [combine mapM hd] in H. unfold note_off_event at 1 in H.
  cbn [snd hd] in H. rewrite Z.eqb_refl in H.
  unfold variable_length_quantity in H.
  destruct (ticks m <? 0) eqn:Eneg; [discriminate H|].
  apply Z.ltb_ge in Eneg. exact Eneg.
Qed.

Lemma chord_to_midi_non_integral (notes : Music) (f0 : float)
      (channels : list Z) (range : Z) (n : Note) :
  In (MNote n) (as_chord notes) ->
  ~ (exists k : Z,
        (evaluate_quantity (duration n) * inject_Z DIVISION
         == inject_Z k)%Q) ->
  raises (chord_to_midi notes f0 channels range).
Proof.
  intros Hin Hnot. unfold Midi.chord_to_midi.
  apply raises_bind_l. eapply mapM_raises_in; [exact Hin|].
  exists AssertionError. simpl. apply to_midi_non_integral. exact Hnot.
Qed.

End EncoderFacts.

Lemma all_channels_NoDup : NoDup all_channels.
Proof.
  assert (H : nodup Z.eq_dec all_channels = all_channels)
    by (vm_compute; reflexivity).
  rewrite <- H. apply NoDup_nodup.
Qed.

Lemma NoDup_firstn {A : Type} (n : nat) (l : list A) :
  NoDup l -> NoDup (firstn n l).
Proof.
  revert n. induction l as [|x l IH]; intros [|n] H; simpl; try constructor.
  - inversion H as [|? ? Hx Hl]; subst. intros Hin.
    apply Hx. rewrite <- (firstn_skipn n l). apply in_or_app. left. exact Hin.
  - inversion H; subst. apply IH. assumption.
Qed.

Lemma NoDup_skipn {A : Type} (n : nat) (l : list A) :
  NoDup l -> NoDup (skipn n l).
Proof.
  revert n. induction l as [|x l IH]; intros [|n] H; simpl; try assumption.
  inversion H; subst. apply IH. assumption.
Qed.

(** The channels a part is given are distinct. *)
Lemma slice_all_channels_NoDup (lo hi : nat) : NoDup (slice all_channels lo hi).
Proof.
  unfold slice. apply NoDup_firstn, NoDup_skipn, all_channels_NoDup.
Qed.

(** C4.  A note or chord sent on distinct channels is encoded as all its
    pitch-bend events, then all its note-on events, then all its note-off
    events; the first note-off carries the delta time [duration * DIVISION]
    of the chord and every other note-off carries zero.  Every successful
    call is of this form, and a note whose [duration * DIVISION] is not an
    integer makes the call raise. *)
Theorem chord_to_midi_emission :
  forall (float : Type) (real_frequency_is_zero : Number -> float -> bool)
         (pitch_and_bend : Number -> float -> Z -> py (Z * Z))
         (notes : Music) (f0 : float) (channels : list Z) (range : Z),
    NoDup channels ->
    (forall (m : MidiNote) (ms : list MidiNote),
        mapM (element_to_midi float real_frequency_is_zero pitch_and_bend
                f0 range) (as_chord notes) = Ok (m :: ms) ->
        Forall (fun x => ticks x = ticks m) ms ->
        0 <= ticks m ->
        (length (m :: ms) <= length channels)%nat ->
        chord_to_midi float real_frequency_is_zero pitch_and_bend
          notes f0 channels range
        = Ok (concat
                (map render
                     (chord_events (ticks m) (combine (m :: ms) channels))))
        /\ Forall2
             (fun x m' =>
                exists n,
                  x = MNote n
                  /\ (inject_Z (ticks m')
                      == evaluate_quantity (duration n) * inject_Z DIVISION)%Q)
             (as_chord notes) (m :: ms))
    /\ (forall out : pystr,
           chord_to_midi float real_frequency_is_zero pitch_and_bend
             notes f0 channels range = Ok out ->
           exists (m : MidiNote) (ms : list MidiNote),
             mapM (element_to_midi float real_frequency_is_zero pitch_and_bend
                     f0 range) (as_chord notes) = Ok (m :: ms)
             /\ out = concat
                        (map render
                             (chord_events (ticks m)
                                (combine (m :: ms) channels))))
    /\ (forall n : Note,
           In (MNote n) (as_chord notes) ->
           ~ (exists k : Z,
                 (evaluate_quantity (duration n) * inject_Z DIVISION
                  == inject_Z k)%Q) ->
           raises (chord_to_midi float real_frequency_is_zero pitch_and_bend
                     notes f0 channels range)).
Proof.
  intros float rfz pab notes f0 channels range Hnodup. split; [|split].
  - intros m ms Hmap Hticks Hpos Hlen. split.
    + apply chord_to_midi_ok; assumption.
    + apply mapM_ok_Forall2 in Hmap.
      eapply Forall2_impl; [|exact Hmap].
      intros x m' H. apply element_to_midi_ok in H.
      destruct H as (n & Hx & Ht & _). exists n. split; assumption.
  - intros out Hout.
    destruct (chord_to_midi_inv _ _ _ _ _ _ _ _ Hout)
      as (m & ms & Hmap & Hticks & Hpos & Hlen).
    exists m, ms. split; [exact Hmap|].
    rewrite (chord_to_midi_ok _ _ _ _ _ _ _ _ _ Hnodup Hmap Hticks Hpos Hlen)
      in Hout.
    injection Hout as <-. reflexivity.
  - intros n Hin Hnot. eapply chord_to_midi_non_integral; eassumption.
Qed.

End ChordFloats.

(** ** Channels of the pitch-bend strategy *)

Section ChannelFloats.
Context {fl : Floats}.

Lemma sum_int_from (xs : list Z) (acc : Z) :
  fold_left Z.add xs acc = acc + fold_right Z.add 0 xs.
Proof.
  revert acc. induction xs as [|x xs IH]; intros acc; simpl; [lia|].
  rewrite IH. lia.
Qed.

Lemma sum_int_cons (x : Z) (xs : list Z) : sum_int (x :: xs) = x + sum_int xs.
Proof. unfold sum_int. simpl. rewrite !sum_int_from. lia. Qed.

Lemma sum_int_nonneg (xs : list Z) :
  Forall (fun x => 0 <= x) xs -> 0 <= sum_int xs.
Proof.
  induction 1 as [|x xs Hx _ IH]; [unfold sum_int; simpl; lia|].
  rewrite sum_int_cons. lia.
Qed.

Lemma max_int_spec (xs : list Z) (x : Z) :
  x <= max_int x xs
  /\ Forall (fun y => y <= max_int x xs) xs
  /\ (max_int x xs = x \/ In (max_int x xs) xs).
Proof.
  unfold max_int. revert x. induction xs as [|y ys IH]; intros x; simpl.
  - split; [lia|]. split; [constructor|left; reflexivity].
  - destruct (y <=? x) eqn:E.
    + apply Z.leb_le in E. destruct (IH x) as (Hx & Hall & Hmem).
      split; [exact Hx|]. split; [constructor; [lia|exact Hall]|].
      destruct Hmem as [->|Hin]; [left; reflexivity|right; right; exact Hin].
    + apply Z.leb_gt in E. destruct (IH y) as (Hy & Hall & Hmem).
      split; [lia|]. split; [constructor; [exact Hy|exact Hall]|].
      right. destruct Hmem as [->|Hin]; [left; reflexivity|right; exact Hin].
Qed.

Lemma height_nonneg (music : Music) : 0 <= height music.
Proof.
  induction music as [n|xs IH|xs IH] using Music_nested_ind; simpl.
  - lia.
  - destruct xs as [|x xs]; [lia|].
    apply sum_int_nonneg. rewrite Forall_map. exact IH.
  - destruct xs as [|x xs]; [simpl; lia|]. cbn [map].
    inversion IH as [|? ? Hx _]; subst.
    pose proof (max_int_spec (map height xs) (height x)). lia.
Qed.

Lemma height_of_notes (xs : list Music) :
  forallb is_note xs = true -> sum_int (map height xs) = Z.of_nat (length xs).
Proof.
  induction xs as [|x xs IH]; intros H; [reflexivity|].
  simpl in H. apply andb_prop in H. destruct H as [Hx Hxs].
  cbn [map length]. rewrite sum_int_cons, (IH Hxs).
  destruct x; try discriminate Hx. simpl height. lia.
Qed.

Lemma height_note_or_chord (x : Music) :
  is_note_or_chord x = true -> height x = Z.of_nat (length (as_chord x)).
Proof.
  destruct x as [n|xs|xs]; simpl; intros H; try discriminate; [reflexivity|].
  destruct xs as [|y ys]; [reflexivity|].
  apply height_of_notes. exact H.
Qed.

Lemma part_height_attained (xs : list Music) :
  0 < height (MList xs) -> exists x, In x xs /\ height x = height (MList xs).
Proof.
  simpl. destruct xs as [|x xs]; simpl; [lia|]. intros _.
  destruct (max_int_spec (map height xs) (height x)) as (_ & _ & [Heq|Hin]).
  - exists x. split; [left; reflexivity|symmetry; exact Heq].
  - apply in_map_iff in Hin. destruct Hin as (y & Hy & Hin).
    exists y. split; [right; exact Hin|exact Hy].
Qed.

Lemma firstn_add {A : Type} (a b : nat) (l : list A) :
  firstn (a + b) l = firstn a l ++ firstn b (skipn a l).
Proof.
  revert l. induction a as [|a IH]; intros l; [reflexivity|].
  destruct l as [|x l]; simpl.
  - rewrite firstn_nil. reflexivity.
  - rewrite IH. reflexivity.
Qed.

Lemma slice_from (lo n : nat) {A : Type} (l : list A) :
  slice l lo (lo + n) = firstn n (skipn lo l).
Proof. unfold slice. f_equal. lia. Qed.

Lemma slice_length (lo n : nat) :
  (lo + n <= length all_channels)%nat ->
  length (slice all_channels lo (lo + n)) = n.
Proof.
  intros H. rewrite slice_from, length_firstn, length_skipn. lia.
Qed.

Lemma slice_short (lo n : nat) :
  (lo <= length all_channels)%nat ->
  (length all_channels < lo + n)%nat ->
  (length (slice all_channels lo (lo + n)) < n)%nat.
Proof.
  intros Hlo H. rewrite slice_from, length_firstn, length_skipn. lia.
Qed.

Lemma consecutive_concat (lengths : list nat) (start : nat) :
  concat (consecutive_channels start lengths)
  = slice all_channels start (start + list_sum lengths).
Proof.
  revert start. induction lengths as [|n ns IH]; intros start; simpl.
  - rewrite slice_from. reflexivity.
  - rewrite IH, !slice_from, firstn_add, skipn_skipn.
    rewrite (Nat.add_comm n start). reflexivity.
Qed.

Lemma consecutive_lengths (lengths : list nat) (start : nat) :
  (start + list_sum lengths <= length all_channels)%nat ->
  map (@length Z) (consecutive_channels start lengths) = lengths.
Proof.
  revert start. induction lengths as [|n ns IH]; intros start H.
  - reflexivity.
  - change (list_sum (n :: ns)) with (n + list_sum ns)%nat in H.
    cbn [consecutive_channels map].
    rewrite slice_length by lia. f_equal. apply IH. lia.
Qed.

Lemma heights_sum (parts : list Music) :
  Z.of_nat (list_sum (map (fun p => Z.to_nat (height p)) parts))
  = sum_int (map height parts).
Proof.
  induction parts as [|p ps IH]; [reflexivity|].
  cbn [map]. rewrite sum_int_cons, <- IH.
  change (list_sum (?x :: ?xs)) with (x + list_sum xs)%nat.
  pose proof (height_nonneg p). lia.
Qed.

Section ChannelFacts.

Variable float : Type.
Variable real_frequency_is_zero : Number -> float -> bool.
Variable pitch_and_bend : Number -> float -> Z -> py (Z * Z).

Let chord_to_midi :=
  Midi.chord_to_midi float real_frequency_is_zero pitch_and_bend.
Let midi_track := Midi.midi_track float real_frequency_is_zero pitch_and_bend.
Let part_loop := Midi.part_loop float real_frequency_is_zero pitch_and_bend.

Lemma chord_to_midi_too_few_channels (notes : Music) (f0 : float)
      (channels : list Z) (range : Z) :
  (length channels < length (as_chord notes))%nat ->
  raises (chord_to_midi notes f0 channels range).
Proof.
  intros Hlen. unfold chord_to_midi, Midi.chord_to_midi.
  destruct (mapM _ (as_chord notes)) as [ms|e] eqn:Hmap;
    [|exists e; reflexivity].
  apply mapM_ok_length in Hmap. cbn [bind].
  destruct (assert (length (nodup Z.eq_dec (map ticks ms)) =? 1)%nat)
    as [[]|e]; [|exists e; reflexivity].
  cbn [bind]. unfold assert.
  destruct (length ms <=? length channels)%nat eqn:E.
  - apply Nat.leb_le in E. lia.
  - exists AssertionError. reflexivity.
Qed.

Lemma midi_track_too_few_channels (part : Music) (f0 : float)
      (channels : list Z) (program : option Z) (range : Z) :
  is_part part = true ->
  Z.of_nat (length channels) < height part ->
  raises (midi_track part f0 channels program range).
Proof.
  intros Hpart Hlen. destruct part as [n|xs|xs]; try discriminate Hpart.
  destruct (part_height_attained xs) as (x & Hin & Hx);
    [pose proof (Zle_0_nat (length channels)); lia|].
  unfold midi_track, Midi.midi_track. cbn [iterate bind].
  apply raises_bind_l. eapply mapM_raises_in; [exact Hin|].
  apply chord_to_midi_too_few_channels.
  simpl in Hpart. rewrite forallb_forall in Hpart.
  pose proof (height_note_or_chord x (Hpart x Hin)). lia.
Qed.

Lemma part_loop_channels (f0 : float) (programs : option (list (option Z)))
      (range : Z) (parts : list Music) :
  forall n program lowest_index tracks chans tracks' chans',
    part_loop f0 programs range parts n program lowest_index tracks chans
    = Ok (tracks', chans') ->
    chans'
    = chans ++ consecutive_channels lowest_index
                 (map (fun p => Z.to_nat (height p)) parts).
Proof.
  unfold part_loop.
  induction parts as [|p ps IH];
    intros n program lo tracks chans tracks' chans' H; simpl in H.
  - injection H as <- <-. cbn [map consecutive_channels].
    rewrite app_nil_r. reflexivity.
  - match type of H with
    | bind ?c _ = _ => destruct c as [prog|e]; cbn [bind] in H;
                       [|discriminate H]
    end.
    match type of H with
    | bind ?c _ = _ => destruct c as [[]|e]; cbn [bind] in H;
                       [|discriminate H]
    end.
    match type of H with
    | bind ?c _ = _ => destruct c as [track|e]; cbn [bind] in H;
                       [|discriminate H]
    end.
    apply IH in H. rewrite H, <- app_assoc. reflexivity.
Qed.

Lemma part_loop_raises (f0 : float) (programs : option (list (option Z)))
      (range : Z) (parts : list Music) :
  Forall (fun p => is_part p = true) parts ->
  forall n program lowest_index tracks chans,
    (lowest_index <= length all_channels)%nat ->
    (length all_channels
     < lowest_index + list_sum (map (fun p => Z.to_nat (height p)) parts))%nat ->
    raises (part_loop f0 programs range parts n program lowest_index
              tracks chans).
Proof.
  unfold part_loop.
  induction 1 as [|p ps Hp _ IH]; intros n program lo tracks chans Hlo Hsum.
  - cbn [map] in Hsum. change (list_sum []) with 0%nat in Hsum. lia.
  - cbn [map] in Hsum.
    change (list_sum (?x :: ?xs)) with (x + list_sum xs)%nat in Hsum.
    cbn [Midi.part_loop].
    match goal with
    | |- raises (bind ?c _) => destruct c as [prog|e]; cbn [bind];
                               [|exists e; reflexivity]
    end.
    unfold assert.
    destruct (lo <=? length all_channels - 1)%nat eqn:Eroom; cbn [bind];
      [|exists AssertionError; reflexivity].
    apply Nat.leb_le in Eroom.
    set (h := Z.to_nat (height p)) in *.
    destruct (Nat.le_gt_cases (lo + h) (length all_channels)) as [Hfit|Hover].
    + match goal with
      | |- raises (bind ?c _) => destruct c as [track|e]; cbn [bind];
                                 [|exists e; reflexivity]
      end.
      apply IH; lia.
    + apply raises_bind_l. apply midi_track_too_few_channels; [exact Hp|].
      pose proof (slice_short lo h Hlo Hover). pose proof (height_nonneg p).
      subst h. lia.
Qed.

End ChannelFacts.


(** C6.  The pitch-bend strategy uses the fourteen channels 1-8 and
    10-15.  For a piece, when [part_midi_tracks] returns, the parts have
    been given consecutive runs of that table, each of exactly
    [height(part)] channels and starting where the previous run stopped, so
    that no channel serves two parts; and when the heights of the parts add
    up to more than fourteen the call raises instead of returning. *)
Theorem pitch_bend_channel_allocation :
  forall (float : Type) (real_frequency_is_zero : Number -> float -> bool)
         (pitch_and_bend : Number -> float -> Z -> py (Z * Z))
         (music : Music) (f0 : float)
         (programs : option (list (option Z))) (range : Z),
    is_piece music = true ->
    all_channels = [1; 2; 3; 4; 5; 6; 7; 8; 10; 11; 12; 13; 14; 15]
    /\ (14 < sum_int (map height (parts_of music)) ->
        raises (part_midi_tracks float real_frequency_is_zero pitch_and_bend
                  music f0 programs range))
    /\ (forall tracks chans,
           part_midi_tracks float real_frequency_is_zero pitch_and_bend
             music f0 programs range = Ok (tracks, chans) ->
           chans = consecutive_channels 0
                     (map (fun p => Z.to_nat (height p)) (parts_of music))
           /\ Forall2 (fun p cs => Z.of_nat (length cs) = height p)
                      (parts_of music) chans
           /\ NoDup (concat chans)
           /\ sum_int (map height (parts_of music)) <= 14).
Proof.
  intros float rfz pab music f0 programs range Hpiece.
  destruct music as [n|parts|parts]; try discriminate Hpiece.
  cbn [is_piece] in Hpiece. cbn [parts_of].
  assert (Hparts : Forall (fun p => is_part p = true) parts)
    by (apply Forall_forall; apply forallb_forall; exact Hpiece).
  assert (Hraise :
    14 < sum_int (map height parts) ->
    raises (part_midi_tracks float rfz pab (MTuple parts) f0 programs range)).
  { intros Hsum. unfold part_midi_tracks. cbn [iterate bind].
    apply part_loop_raises; [exact Hparts|simpl; lia|].
    rewrite <- heights_sum in Hsum.
    change (length all_channels) with 14%nat. lia. }
  split; [reflexivity|]. split; [exact Hraise|].
  intros tracks chans Hok.
  assert (Hsum : sum_int (map height parts) <= 14).
  { destruct (Z.le_gt_cases (sum_int (map height parts)) 14) as [H|H];
      [exact H|].
    apply Hraise in H. destruct H as [e He]. congruence. }
  unfold part_midi_tracks in Hok. cbn [iterate bind] in Hok.
  apply part_loop_channels in Hok. cbn [app] in Hok. subst chans.
  pose proof Hsum as Hnat. rewrite <- heights_sum in Hnat.
  set (lengths := map (fun p => Z.to_nat (height p)) parts) in *.
  assert (Hfit : (0 + list_sum lengths <= length all_channels)%nat)
    by (change (length all_channels) with 14%nat; lia).
  split; [reflexivity|]. split; [|split].
  - pose proof (consecutive_lengths lengths 0 Hfit) as Hlens.
    subst lengths. clear - Hlens.
    revert Hlens. generalize (consecutive_channels 0
                                (map (fun p => Z.to_nat (height p)) parts)).
    induction parts as [|p ps IH]; intros [|cs css] H; try discriminate H.
    + constructor.
    + cbn [map] in H. injection H as Hcs Hcss. constructor.
      * rewrite Hcs. pose proof (height_nonneg p). lia.
      * apply IH. exact Hcss.
  - rewrite consecutive_concat. apply slice_all_channels_NoDup.
  - exact Hsum.
Qed.

End ChannelFloats.

(** ** Durations in the notation backend *)

Lemma factorize_loop_spec (p : positive) :
  forall count : Z,
    count <= fst (factorize_loop p count)
    /\ Zpos p = 2 ^ (fst (factorize_loop p count) - count)
                * snd (factorize_loop p count)
    /\ Z.odd (snd (factorize_loop p count)) = true
    /\ 0 < snd (factorize_loop p count).
Proof.
  induction p as [p IH|p IH|]; intros count; cbn [factorize_loop fst snd].
  - rewrite Z.sub_diag. repeat split; try lia.
  - destruct (IH (count + 1)) as (Hle & Heq & Hodd & Hpos).
    repeat split; try assumption; try lia.
    replace (fst (factorize_loop p (count + 1)) - count)
      with (Z.succ (fst (factorize_loop p (count + 1)) - (count + 1))) by lia.
    rewrite Z.pow_succ_r by lia.
    rewrite <- Z.mul_assoc, <- Heq. reflexivity.
  - rewrite Z.sub_diag. repeat split; try lia.
Qed.

Lemma _factorize_spec (n : Z) :
  0 < n ->
  exists k odd_factor,
    _factorize n = Ok (2 ^ k, odd_factor)
    /\ 0 <= k
    /\ n = 2 ^ k * odd_factor
    /\ Z.odd odd_factor = true
    /\ 0 < odd_factor.
Proof.
  intros Hn. destruct n as [|p|p]; try lia.
  destruct (factorize_loop_spec p 0) as (Hle & Heq & Hodd & Hpos).
  exists (fst (factorize_loop p 0)), (snd (factorize_loop p 0)).
  unfold _factorize. cbn [Z.ltb Z.compare assert bind].
  destruct (factorize_loop p 0) as [count n'] eqn:E. cbn [fst snd] in *.
  rewrite Z.sub_0_r in Heq. repeat split; assumption.
Qed.

Section RescaleFacts.
Context {fl : Floats}.

Lemma rescale_pos (odd_factor : Z) : 0 < rescale_of odd_factor.
Proof. unfold rescale_of. apply Z.pow_pos_nonneg; lia. Qed.

(** Where the float logarithm has the integer part of the exact one,
    the rescale is the largest power of two not above the odd factor. *)
Lemma rescale_exact (odd_factor : Z) :
  0 < odd_factor ->
  Z.of_N (floor_log2 odd_factor) = Z.log2 odd_factor ->
  rescale_of odd_factor <= odd_factor < 2 * rescale_of odd_factor.
Proof.
  intros H Hexact. unfold rescale_of. rewrite Hexact.
  pose proof (Z.log2_spec odd_factor H) as Hlog.
  rewrite Z.pow_succ_r in Hlog by apply Z.log2_nonneg.
  exact Hlog.
Qed.

End RescaleFacts.

Lemma fraction_num_den (d : Q) :
  (d == inject_Z (numerator d) / inject_Z (denominator d))%Q.
Proof.
  unfold numerator, denominator.
  rewrite <- (Qred_correct d) at 1.
  destruct (Qred d) as [a b]. cbn [Qnum Qden].
  rewrite (Qmake_Qdiv a b). reflexivity.
Qed.

Lemma residual_value (d : Q) (power_of_two odd_factor rescale : Z) :
  0 < power_of_two -> 0 < odd_factor -> 0 < rescale ->
  denominator d = power_of_two * odd_factor ->
  (Fraction_of (numerator d) (power_of_two * rescale)
   == d * inject_Z odd_factor / inject_Z rescale)%Q.
Proof.
  intros HP HO HR Hden. unfold Fraction_of. rewrite Qred_correct.
  rewrite (fraction_num_den d) at 2. rewrite Hden.
  rewrite !inject_Z_mult.
  assert (HP' : ~ (inject_Z power_of_two == 0)%Q)
    by (change 0%Q with (inject_Z 0); rewrite inject_Z_injective; lia).
  assert (HO' : ~ (inject_Z odd_factor == 0)%Q)
    by (change 0%Q with (inject_Z 0); rewrite inject_Z_injective; lia).
  assert (HR' : ~ (inject_Z rescale == 0)%Q)
    by (change 0%Q with (inject_Z 0); rewrite inject_Z_injective; lia).
  field. repeat split; assumption.
Qed.

Lemma frac_divmod_spec (a b : Q) :
  (0 < b)%Q -> (0 <= a)%Q ->
  (a == b * inject_Z (fst (frac_divmod a b)) + snd (frac_divmod a b))%Q
  /\ 0 <= fst (frac_divmod a b)
  /\ (0 <= snd (frac_divmod a b) < b)%Q.
Proof.
  intros Hb Ha. unfold frac_divmod. cbn [fst snd]. rewrite Qred_correct.
  set (q := Qfloor (a / b)).
  assert (Hbne : ~ (b == 0)%Q) by (intros E; rewrite E in Hb; discriminate Hb).
  assert (Hlo : (inject_Z q <= a / b)%Q) by apply Qfloor_le.
  assert (Hhi : (a / b < inject_Z (q + 1))%Q) by apply Qlt_floor.
  assert (Hab : (a == b * (a / b))%Q) by (field; exact Hbne).
  split; [ring|]. split.
  - change 0 with (Qfloor (inject_Z 0)). apply Qfloor_resp_le.
    apply Qle_shift_div_l; [exact Hb|]. rewrite Qmult_0_l. exact Ha.
  - split.
    + apply (Qmult_le_l _ _ b Hb) in Hlo.
      rewrite <- Hab in Hlo. unfold Qminus.
      rewrite <- Qle_minus_iff. exact Hlo.
    + apply (Qmult_lt_l _ _ b Hb) in Hhi.
      rewrite <- Hab in Hhi. rewrite inject_Z_plus in Hhi.
      apply Qlt_minus_iff in Hhi. apply Qlt_minus_iff.
      setoid_replace (b + - (a - b * inject_Z q))%Q
        with (b * (inject_Z q + inject_Z 1) + - a)%Q by ring.
      exact Hhi.
Qed.

Lemma decompose_spec (ds : list Q) :
  Forall (fun d => (0 < d)%Q) ds ->
  forall a : Q,
    (0 <= a)%Q ->
    map fst (fst (decompose ds a)) = ds
    /\ Forall (fun kv => 0 <= snd kv) (fst (decompose ds a))
    /\ (a == weighted_sum (fst (decompose ds a)) + snd (decompose ds a))%Q
    /\ (0 <= snd (decompose ds a) <= a)%Q
    /\ Forall (fun d => (snd (decompose ds a) < d)%Q) ds.
Proof.
  induction 1 as [|d ds Hd _ IH]; intros a Ha.
  - cbn [decompose fst snd map weighted_sum fold_right].
    repeat split; try constructor; try assumption; try apply Qle_refl.
    ring.
  - cbn [decompose].
    destruct (frac_divmod_spec a d Hd Ha) as (Hsplit & Hc & Hr0 & Hrd).
    destruct (frac_divmod a d) as [c r]. cbn [fst snd] in *.
    destruct (IH r Hr0) as (Hkeys & Hnonneg & Hsum & [Hrest0 Hrestr] & Hbelow).
    destruct (decompose ds r) as [coeffs rest]. cbn [fst snd] in *.
    assert (Hra : (r <= a)%Q).
    { rewrite Hsplit. rewrite <- (Qplus_0_l r) at 1.
      apply Qplus_le_l. apply Qmult_le_0_compat; [apply Qlt_le_weak; exact Hd|].
      change 0%Q with (inject_Z 0). rewrite <- Zle_Qle. exact Hc. }
    split; [cbn [map fst]; f_equal; exact Hkeys|].
    split; [constructor; [exact Hc|exact Hnonneg]|].
    split.
    { cbn [weighted_sum fold_right fst snd]. fold (weighted_sum coeffs).
      rewrite Hsplit at 1. rewrite Hsum. ring. }
    split; [split; [exact Hrest0|eapply Qle_trans; eassumption]|].
    constructor.
    + eapply Qle_lt_trans; eassumption.
    + exact Hbelow.
Qed.

Lemma symbols_length (coeffs : list (Fraction * Z)) :
  Forall (fun kv => 0 <= snd kv) coeffs ->
  Z.of_nat (length (symbols coeffs)) = sum_int (map snd coeffs).
Proof.
  unfold symbols.
  induction 1 as [|[k v] coeffs Hv _ IH]; [reflexivity|].
  cbn [map snd filter]. rewrite sum_int_cons, <- IH. cbn [snd] in Hv.
  destruct (v =? 0) eqn:E; cbn [negb].
  - apply Z.eqb_eq in E. lia.
  - cbn [flat_map fst snd]. rewrite length_app, repeat_length. lia.
Qed.

Lemma weighted_sum_all_zero (coeffs : list (Fraction * Z)) :
  Forall (fun kv => 0 <= snd kv) coeffs ->
  sum_int (map snd coeffs) = 0 ->
  (weighted_sum coeffs == 0)%Q.
Proof.
  induction 1 as [|[k v] coeffs Hv Hrest IH]; intros Hsum; [reflexivity|].
  cbn [map snd] in Hsum, Hv. rewrite sum_int_cons in Hsum.
  assert (Hnonneg : 0 <= sum_int (map snd coeffs)).
  { apply sum_int_nonneg. rewrite Forall_map. exact Hrest. }
  assert (v = 0) by lia. subst v.
  cbn [weighted_sum fold_right fst snd]. fold (weighted_sum coeffs).
  rewrite IH by lia. ring.
Qed.

Lemma tie_ok (parts : list pystr) :
  parts <> [] -> exists base, tie parts = Ok base.
Proof.
  destruct parts as [|p [|p' rest]]; intros H;
    [contradiction|eexists; reflexivity|eexists; reflexivity].
Qed.

Lemma DURATIONS_positive : Forall (fun d => (0 < d)%Q) DURATIONS.
Proof. repeat constructor. Qed.

Section DurationFacts.
Context {fl : Floats}.

(** C3, as the code has it.  For a note of positive duration [d], the
    denominator of [d] splits into a power of two [P] and an odd factor
    [O]; [R] is [2 ** floor(log2(O))] with the float logarithm, a power of
    two that is the largest one not above [O] wherever that logarithm has
    the integer part of the exact one; the numerator of [d] over [P * R],
    that is [d * O / R], is the residual, which repeated [divmod] writes
    as a sum of terms of the table [4, 2, 1, 1/2, 1/4, 1/8, 1/16, 1/32]
    plus a remainder below [1/32].  A non-zero remainder makes the call
    raise; otherwise every unit of a coefficient is one duration symbol,
    the symbols are tied, and the chain is wrapped in a tuplet [O/R]
    exactly when [O] is not one. *)
Theorem lilypond_duration_decomposition :
  forall note : Note,
    (0 < evaluate_quantity (duration note))%Q ->
    exists k odd_factor : Z,
      let d := evaluate_quantity (duration note) in
      let power_of_two := 2 ^ k in
      let rescale := rescale_of odd_factor in
      let residual := Fraction_of (numerator d) (power_of_two * rescale) in
      let coeffs := fst (decompose DURATIONS residual) in
      let rest := snd (decompose DURATIONS residual) in
      _factorize (denominator d) = Ok (power_of_two, odd_factor)
      /\ 0 <= k
      /\ Z.odd odd_factor = true
      /\ denominator d = power_of_two * odd_factor
      /\ rescale = 2 ^ Z.of_N (floor_log2 odd_factor)
      /\ 0 < rescale
      /\ (Z.of_N (floor_log2 odd_factor) = Z.log2 odd_factor ->
          rescale <= odd_factor < 2 * rescale)
      /\ (residual == d * inject_Z odd_factor / inject_Z rescale)%Q
      /\ map fst coeffs = DURATIONS
      /\ Forall (fun kv => 0 <= snd kv) coeffs
      /\ (residual == weighted_sum coeffs + rest)%Q
      /\ (0 <= rest < 1 # 32)%Q
      /\ (~ (rest == 0)%Q -> lilypond_duration note = Raise AssertionError)
      /\ ((rest == 0)%Q ->
          exists base : pystr,
            tie (symbols coeffs) = Ok base
            /\ Z.of_nat (length (symbols coeffs)) = sum_int (map snd coeffs)
            /\ lilypond_duration note = Ok (tuplet odd_factor rescale base)
            /\ (odd_factor = 1 -> tuplet odd_factor rescale base = base)
            /\ (odd_factor <> 1 ->
                tuplet odd_factor rescale base
                = str "\tuplet" ++ str " " ++ str_of_int odd_factor
                      ++ str "/" ++ str_of_int rescale ++ str " "
                      ++ str "{{" ++ base ++ str "}}")).
Proof.
  intros note Hd.
  set (d := evaluate_quantity (duration note)) in *.
  assert (Hden : 0 < denominator d) by (unfold denominator; lia).
  destruct (_factorize_spec (denominator d) Hden)
    as (k & odd_factor & Hfact & Hk & Hsplit & Hodd & HO).
  exists k, odd_factor. cbv zeta.
  pose proof (rescale_pos odd_factor) as HRpos.
  assert (HP : 0 < 2 ^ k) by (apply Z.pow_pos_nonneg; lia).
  pose proof (residual_value d (2 ^ k) odd_factor (rescale_of odd_factor)
                HP HO HRpos Hsplit) as Hres.
  set (residual := Fraction_of (numerator d) (2 ^ k * rescale_of odd_factor))
    in *.
  assert (Hrespos : (0 < residual)%Q).
  { rewrite Hres. apply Qlt_shift_div_l.
    - change 0%Q with (inject_Z 0). rewrite <- Zlt_Qlt. exact HRpos.
    - rewrite Qmult_0_l. apply Qmult_lt_0_compat; [exact Hd|].
      change 0%Q with (inject_Z 0). rewrite <- Zlt_Qlt. exact HO. }
  destruct (decompose_spec DURATIONS DURATIONS_positive residual
              (Qlt_le_weak _ _ Hrespos))
    as (Hkeys & Hnonneg & Hsum & [Hrest0 _] & Hbelow).
  assert (Hunfold :
    lilypond_duration note
    = bind (assert (Qeq_bool (snd (decompose DURATIONS residual)) 0))
        (fun _ =>
           bind (tie (symbols (fst (decompose DURATIONS residual))))
             (fun base => Ok (tuplet odd_factor (rescale_of odd_factor) base)))).
  { unfold lilypond_duration. fold d.
    destruct (Qle_bool d 0) eqn:E.
    - apply Qle_bool_imp_le in E. exfalso. apply (Qlt_not_le _ _ Hd E).
    - cbn [negb assert bind]. rewrite Hfact. cbn [bind fst snd].
      fold residual. unfold encode_residual.
      destruct (decompose DURATIONS residual) as [coeffs rest].
      reflexivity. }
  repeat (split;
          [first [assumption | reflexivity
                 | intros Hexact; apply rescale_exact; assumption]|]).
  split.
  { split; [exact Hrest0|].
    rewrite Forall_forall in Hbelow. apply Hbelow.
    unfold DURATIONS. do 7 right. left. reflexivity. }
  split.
  - intros Hne. rewrite Hunfold.
    destruct (Qeq_bool (snd (decompose DURATIONS residual)) 0) eqn:E;
      [apply Qeq_bool_eq in E; contradiction|reflexivity].
  - intros Hzero.
    pose proof (symbols_length _ Hnonneg) as Hlen.
    assert (Hparts : symbols (fst (decompose DURATIONS residual)) <> []).
    { intros Hnil. rewrite Hnil in Hlen. cbn [length] in Hlen.
      pose proof (weighted_sum_all_zero _ Hnonneg (eq_sym Hlen)) as Hw.
      rewrite Hsum, Hw, Hzero in Hrespos. discriminate Hrespos. }
    destruct (tie_ok _ Hparts) as [base Hbase].
    exists base. split; [exact Hbase|]. split; [exact Hlen|]. split.
    + rewrite Hunfold, (Qeq_eq_bool _ _ Hzero), Hbase. reflexivity.
    + split.
      * intros ->. reflexivity.
      * intros Hne. unfold tuplet.
        destruct (odd_factor =? 1) eqn:E; [apply Z.eqb_eq in E; contradiction|].
        reflexivity.
Qed.

(** When the denominator splits into [P] and [O], the call is the
    encoding of the numerator over [P * R]. *)
Lemma lilypond_duration_unfold (note : Note) (P O : Z) :
  (0 < evaluate_quantity (duration note))%Q ->
  _factorize (denominator (evaluate_quantity (duration note))) = Ok (P, O) ->
  lilypond_duration note
  = encode_residual O (rescale_of O)
      (Fraction_of (numerator (evaluate_quantity (duration note)))
                   (P * rescale_of O)).
Proof.
  intros Hd Hfact. unfold lilypond_duration.
  destruct (Qle_bool (evaluate_quantity (duration note)) 0) eqn:E.
  - apply Qle_bool_imp_le in E. exfalso. apply (Qlt_not_le _ _ Hd E).
  - cbn [negb assert bind]. rewrite Hfact. reflexivity.
Qed.

Lemma lilypond_duration_as_specified_unfold (note : Note) (P O : Z) :
  (0 < evaluate_quantity (duration note))%Q ->
  _factorize (denominator (evaluate_quantity (duration note))) = Ok (P, O) ->
  lilypond_duration_as_specified note
  = encode_residual O (rescale_of O)
      (residual_as_specified (evaluate_quantity (duration note)) P
                             (rescale_of O)).
Proof.
  intros Hd Hfact. unfold lilypond_duration_as_specified.
  destruct (Qle_bool (evaluate_quantity (duration note)) 0) eqn:E.
  - apply Qle_bool_imp_le in E. exfalso. apply (Qlt_not_le _ _ Hd E).
  - cbn [negb assert bind]. rewrite Hfact. reflexivity.
Qed.

Lemma rescale_of_one : rescale_of 1 = 1.
Proof. unfold rescale_of. rewrite floor_log2_one. reflexivity. Qed.

End DurationFacts.

(** C3, as the specification words it, fails: dividing [d] itself by
    [P * R] gives for the duration 1/2 the residual 1/4 and a sixteenth
    note, where the code works on 1/2 and writes an eighth note. *)
Lemma lilypond_duration_not_d_over_PR :
  (forall fl : Floats,
      @lilypond_duration fl Examples.half_beat = Ok (str "{0}8{1}")
      /\ @lilypond_duration_as_specified fl Examples.half_beat
         = Ok (str "{0}16{1}")
      /\ @lilypond_duration fl Examples.half_beat
         <> @lilypond_duration_as_specified fl Examples.half_beat)
  /\ ~ (Fraction_of (numerator (1 # 2)) (2 * 1)
        == residual_as_specified (1 # 2) 2 1)%Q.
Proof.
  split; [|vm_compute; discriminate].
  intros fl.
  assert (Hcode : @lilypond_duration fl Examples.half_beat
                  = Ok (str "{0}8{1}")).
  { rewrite (lilypond_duration_unfold Examples.half_beat 2 1);
      [|reflexivity|reflexivity].
    rewrite rescale_of_one. vm_compute. reflexivity. }
  assert (Hspec : @lilypond_duration_as_specified fl Examples.half_beat
                  = Ok (str "{0}16{1}")).
  { rewrite (lilypond_duration_as_specified_unfold Examples.half_beat 2 1);
      [|reflexivity|reflexivity].
    rewrite rescale_of_one. vm_compute. reflexivity. }
  split; [exact Hcode|]. split; [exact Hspec|].
  rewrite Hcode, Hspec. discriminate.
Qed.

(** ** What [apply_to_notes] keeps *)

Section ShapeFacts.
Context {fl : Floats}.

Lemma Forall2_map_eq {A B C : Type} (f : A -> C) (g : B -> C)
      (xs : list A) (ys : list B) :
  Forall2 (fun x y => g y = f x) xs ys -> map g ys = map f xs.
Proof.
  induction 1 as [|x y xs ys Hxy _ IH]; [reflexivity|].
  cbn [map]. rewrite Hxy, IH. reflexivity.
Qed.

Lemma mapM_ok_Forall2_with {A B : Type} (f : A -> py B) (R : A -> B -> Prop)
      (xs : list A) (ys : list B) :
  Forall (fun x => forall y, f x = Ok y -> R x y) xs ->
  mapM f xs = Ok ys -> Forall2 R xs ys.
Proof.
  intros HF H. apply mapM_ok_Forall2 in H.
  induction H as [|x y xs ys Hxy _ IH]; [constructor|].
  inversion HF as [|? ? Hx HF']; subst.
  constructor; [apply Hx; exact Hxy|apply IH; exact HF'].
Qed.

Lemma Forall2_same_shape {A B : Type} (R : A -> B -> Prop)
      (xs : list A) (ys : list B) :
  Forall2 R xs ys -> (xs = [] <-> ys = []).
Proof.
  intros HR. destruct HR; split; intros E; try reflexivity; discriminate E.
Qed.

Lemma apply_to_notes_height (f : Note -> py Note) (music : Music) :
  forall music', apply_to_notes f music = Ok music' ->
                 height music' = height music.
Proof.
  induction music as [n|xs IH|xs IH] using Music_nested_ind;
    intros music' H; cbn [apply_to_notes] in H.
  - destruct (f n) as [n'|e]; cbn [bind] in H; [|discriminate H].
    injection H as <-. reflexivity.
  - destruct (mapM (apply_to_notes f) xs) as [ys|e] eqn:Hys;
      cbn [bind] in H; [|discriminate H].
    injection H as <-.
    pose proof (mapM_ok_Forall2_with _ (fun x y => height y = height x)
                  _ _ IH Hys) as Hall.
    cbn [height]. rewrite (Forall2_map_eq _ _ _ _ Hall).
    destruct Hall; reflexivity.
  - destruct (mapM (apply_to_notes f) xs) as [ys|e] eqn:Hys;
      cbn [bind] in H; [|discriminate H].
    injection H as <-.
    pose proof (mapM_ok_Forall2_with _ (fun x y => height y = height x)
                  _ _ IH Hys) as Hall.
    cbn [height]. rewrite (Forall2_map_eq _ _ _ _ Hall). reflexivity.
Qed.

Lemma apply_to_notes_total_duration (f : Note -> py Note) :
  (forall n n', f n = Ok n' -> duration n' = duration n) ->
  forall music music',
    apply_to_notes f music = Ok music' ->
    total_duration music' = total_duration music.
Proof.
  intros Hf music.
  induction music as [n|xs IH|xs IH] using Music_nested_ind;
    intros music' H; cbn [apply_to_notes] in H.
  - destruct (f n) as [n'|e] eqn:Hn; cbn [bind] in H; [|discriminate H].
    injection H as <-. cbn [total_duration]. rewrite (Hf _ _ Hn). reflexivity.
  - destruct (mapM (apply_to_notes f) xs) as [ys|e] eqn:Hys;
      cbn [bind] in H; [|discriminate H].
    injection H as <-.
    pose proof (mapM_ok_Forall2_with _
                  (fun x y => total_duration y = total_duration x)
                  _ _ IH Hys) as Hall.
    cbn [total_duration]. rewrite (Forall2_map_eq _ _ _ _ Hall). reflexivity.
  - destruct (mapM (apply_to_notes f) xs) as [ys|e] eqn:Hys;
      cbn [bind] in H; [|discriminate H].
    injection H as <-.
    pose proof (mapM_ok_Forall2_with _
                  (fun x y => total_duration y = total_duration x)
                  _ _ IH Hys) as Hall.
    cbn [total_duration]. rewrite (Forall2_map_eq _ _ _ _ Hall).
    destruct Hall; reflexivity.
Qed.

Lemma Forall2_flat_map {A B C D : Type} (R : C -> D -> Prop)
      (f : A -> list C) (g : B -> list D) (xs : list A) (ys : list B) :
  Forall2 (fun x y => Forall2 R (f x) (g y)) xs ys ->
  Forall2 R (flat_map f xs) (flat_map g ys).
Proof.
  induction 1 as [|x y xs ys Hxy _ IH]; [constructor|].
  cbn [flat_map]. apply Forall2_app; assumption.
Qed.

Lemma apply_to_notes_notes (f : Note -> py Note) (music : Music) :
  forall music', apply_to_notes f music = Ok music' ->
                 Forall2 (fun n n' => f n = Ok n')
                         (notes_of music) (notes_of music').
Proof.
  induction music as [n|xs IH|xs IH] using Music_nested_ind;
    intros music' H; cbn [apply_to_notes] in H.
  - destruct (f n) as [n'|e] eqn:Hn; cbn [bind] in H; [|discriminate H].
    injection H as <-. cbn [notes_of]. constructor; [exact Hn|constructor].
  - destruct (mapM (apply_to_notes f) xs) as [ys|e] eqn:Hys;
      cbn [bind] in H; [|discriminate H].
    injection H as <-. cbn [notes_of]. apply Forall2_flat_map.
    eapply mapM_ok_Forall2_with; [|exact Hys]. exact IH.
  - destruct (mapM (apply_to_notes f) xs) as [ys|e] eqn:Hys;
      cbn [bind] in H; [|discriminate H].
    injection H as <-. cbn [notes_of]. apply Forall2_flat_map.
    eapply mapM_ok_Forall2_with; [|exact Hys]. exact IH.
Qed.

Lemma apply_to_notes_total (f : Note -> py Note) (music : Music) :
  Forall (fun n => exists n', f n = Ok n') (notes_of music) ->
  exists music', apply_to_notes f music = Ok music'.
Proof.
  induction music as [n|xs IH|xs IH] using Music_nested_ind;
    cbn [notes_of apply_to_notes]; intros H.
  - inversion H as [|? ? [n' Hn] _]; subst. rewrite Hn. eexists. reflexivity.
  - destruct (mapM_total (apply_to_notes f) xs) as [ys ->];
      [|eexists; reflexivity].
    induction IH as [|x xs Hx _ IHxs]; [constructor|].
    cbn [flat_map] in H. apply Forall_app in H. destruct H as [H1 H2].
    constructor; [apply Hx; exact H1|apply IHxs; exact H2].
  - destruct (mapM_total (apply_to_notes f) xs) as [ys ->];
      [|eexists; reflexivity].
    induction IH as [|x xs Hx _ IHxs]; [constructor|].
    cbn [flat_map] in H. apply Forall_app in H. destruct H as [H1 H2].
    constructor; [apply Hx; exact H1|apply IHxs; exact H2].
Qed.

(** X1.  [height] of a note is 1; of a chord or piece (a tuple) the sum of
    its children's heights; of a part (a list) the largest of its
    children's heights; 0 for an empty tuple or list; and never negative. *)
Theorem height_by_shape :
  (forall n : Note, height (MNote n) = 1)
  /\ (forall xs : list Music,
         height (MTuple xs) = fold_right Z.add 0 (map height xs))
  /\ (forall (x : Music) (xs : list Music),
         Forall (fun y => height y <= height (MList (x :: xs))) (x :: xs)
         /\ Exists (fun y => height y = height (MList (x :: xs))) (x :: xs))
  /\ height (MList []) = 0
  /\ (forall music : Music, 0 <= height music).
Proof.
  split; [reflexivity|]. split; [|split; [|split; [reflexivity|]]].
  - intros [|x xs]; [reflexivity|].
    cbn [height]. unfold sum_int. rewrite sum_int_from. lia.
  - intros x xs. cbn [height map].
    destruct (max_int_spec (map height xs) (height x)) as (Hx & Hall & Hmem).
    split.
    + constructor; [exact Hx|]. rewrite Forall_map in Hall. exact Hall.
    + destruct Hmem as [Heq|Hin].
      * apply Exists_cons_hd. symmetry. exact Heq.
      * apply Exists_cons_tl. apply in_map_iff in Hin.
        destruct Hin as (y & Hy & Hin). apply Exists_exists.
        exists y. split; assumption.
  - apply height_nonneg.
Qed.

(** ** Tempering keeps the shape *)

Lemma temper_note_shape (e : Z) (n n' : Note) :
  temper_note e n = Ok n' ->
  duration n' = duration n
  /\ volume n' = volume n
  /\ ((exists f, evaluate (frequency n) = Ok f /\ is_zero f = true /\ n' = n)
      \/ (exists f k, evaluate (frequency n) = Ok f /\ is_zero f = false
                      /\ frequency n' = FPower (mkPower 2 k e))).
Proof.
  unfold temper_note. intros H.
  destruct (evaluate (frequency n)) as [f|err]; cbn [bind] in H;
    [|discriminate H].
  destruct (is_zero f) eqn:Hz.
  - injection H as <-. split; [reflexivity|]. split; [reflexivity|].
    left. exists f. repeat split. exact Hz.
  - match type of H with
    | bind ?c _ = _ => destruct c as [k|err]; cbn [bind] in H; [|discriminate H]
    end.
    injection H as <-. split; [reflexivity|]. split; [reflexivity|].
    right. exists f, k. repeat split. exact Hz.
Qed.

(** X2.  Tempering touches frequencies only.  When [temper(music, edo=e)]
    returns, the result has the height and the total duration of [music];
    note by note, duration and volume are kept, a rest is returned as it
    is, and every sounding note gets a frequency [Power(2, k, e)]. *)
Theorem temper_keeps_shape :
  forall (e : Z) (music music' : Music),
    temper (Some e) music = Ok music' ->
    height music' = height music
    /\ total_duration music' = total_duration music
    /\ Forall2
         (fun n n' =>
            duration n' = duration n
            /\ volume n' = volume n
            /\ ((exists f, evaluate (frequency n) = Ok f
                           /\ is_zero f = true /\ n' = n)
                \/ (exists f k, evaluate (frequency n) = Ok f
                                /\ is_zero f = false
                                /\ frequency n'
                                   = FPower (mkPower 2 k e))))
         (notes_of music) (notes_of music').
Proof.
  intros e music music'.
  cbn [temper]. intros H. split; [|split].
  - eapply apply_to_notes_height. exact H.
  - eapply apply_to_notes_total_duration; [|exact H].
    intros n n' Hn. apply temper_note_shape in Hn. apply Hn.
  - apply apply_to_notes_notes in H.
    eapply Forall2_impl; [|exact H].
    intros n n' Hn. apply temper_note_shape. exact Hn.
Qed.

End ShapeFacts.

(** ** The rational algebra *)

Lemma prod_value (rs : list Q) (init : Q) :
  (prod rs init == init * fold_right Qmult 1 rs)%Q.
Proof.
  unfold prod. revert init. induction rs as [|r rs IH]; intros init; simpl.
  - ring.
  - rewrite IH. unfold frac_mul. rewrite Qred_correct. ring.
Qed.

Lemma evaluate_app (a b : list Q) :
  (RatioProduct_evaluate (mkRatioProduct (a ++ b))
   == RatioProduct_evaluate (mkRatioProduct a)
      * RatioProduct_evaluate (mkRatioProduct b))%Q.
Proof.
  unfold RatioProduct_evaluate. cbn [ratios].
  rewrite !prod_value, fold_right_app.
  induction a as [|x a IH]; simpl.
  - ring.
  - rewrite !Qmult_1_l in IH. rewrite IH. ring.
Qed.

Lemma evaluate_concat (rs : list RatioProduct) :
  (RatioProduct_evaluate (mkRatioProduct (concat (map ratios rs)))
   == fold_right Qmult 1 (map RatioProduct_evaluate rs))%Q.
Proof.
  induction rs as [|r rs IH]; [reflexivity|].
  cbn [map concat fold_right]. rewrite evaluate_app, IH.
  destruct r as [l]. reflexivity.
Qed.

(** X3.  Multiplying ratio products concatenates their factor tuples, in
    the order of the operands ([__rmul__] puts the other operand first, a
    fraction counts as a single factor), so the product is associative with
    the empty product as unit, the evaluated value is the product of the
    evaluated operands, and [ratio_product] keeps all factors of its
    children in order. *)
Theorem RatioProduct_mul_concatenates :
  forall (a b c : RatioProduct) (q : Fraction) (rs : list RatioProduct),
    RatioProduct_mul a (ArgRatioProduct b)
    = Ok (mkRatioProduct (ratios a ++ ratios b))
    /\ RatioProduct_rmul a (ArgRatioProduct b)
       = RatioProduct_mul b (ArgRatioProduct a)
    /\ RatioProduct_mul a (ArgFraction q) = Ok (mkRatioProduct (ratios a ++ [q]))
    /\ RatioProduct_rmul a (ArgFraction q) = Ok (mkRatioProduct (q :: ratios a))
    /\ bind (RatioProduct_mul a (ArgRatioProduct b))
            (fun ab => RatioProduct_mul ab (ArgRatioProduct c))
       = bind (RatioProduct_mul b (ArgRatioProduct c))
              (fun bc => RatioProduct_mul a (ArgRatioProduct bc))
    /\ bind (RatioProduct_init (ArgTuple []))
            (fun one => RatioProduct_mul one (ArgRatioProduct a))
       = Ok (mkRatioProduct (ratios a))
    /\ (RatioProduct_evaluate (mkRatioProduct (ratios a ++ ratios b))
        == RatioProduct_evaluate a * RatioProduct_evaluate b)%Q
    /\ ratio_product rs = Ok (mkRatioProduct (concat (map ratios rs)))
    /\ (RatioProduct_evaluate (mkRatioProduct (concat (map ratios rs)))
        == fold_right Qmult 1 (map RatioProduct_evaluate rs))%Q.
Proof.
  intros a b c q rs.
  split; [reflexivity|]. split; [reflexivity|]. split; [reflexivity|].
  split; [reflexivity|]. split.
  { unfold RatioProduct_mul. cbn [RatioProduct_init bind ratios].
    rewrite app_assoc. reflexivity. }
  split; [reflexivity|]. split.
  { rewrite evaluate_app. destruct a, b. reflexivity. }
  split; [apply prod_ratio_products_ok|apply evaluate_concat].
Qed.

Lemma tuple_eqb_refl (xs : list Q) : tuple_eqb xs xs = true.
Proof.
  induction xs as [|x xs IH]; [reflexivity|].
  cbn [tuple_eqb]. rewrite Qeq_bool_refl, IH. reflexivity.
Qed.

Lemma tuple_eqb_sym (xs ys : list Q) : tuple_eqb xs ys = tuple_eqb ys xs.
Proof.
  revert ys. induction xs as [|x xs IH]; intros [|y ys]; try reflexivity.
  cbn [tuple_eqb]. rewrite Qeq_bool_comm, IH. reflexivity.
Qed.

Lemma tuple_eqb_Forall2 (xs ys : list Q) :
  tuple_eqb xs ys = true <-> Forall2 Qeq xs ys.
Proof.
  revert ys. induction xs as [|x xs IH]; intros [|y ys]; cbn [tuple_eqb].
  - split; [constructor|reflexivity].
  - split; [discriminate|intros H; inversion H].
  - split; [discriminate|intros H; inversion H].
  - rewrite andb_true_iff, Qeq_bool_iff, IH. split.
    + intros [H1 H2]. constructor; assumption.
    + intros H. inversion H; subst. split; assumption.
Qed.

Lemma tuple_eqb_same_value (xs ys : list Q) (init init' : Q) :
  tuple_eqb xs ys = true -> (init == init')%Q ->
  (prod xs init == prod ys init')%Q.
Proof.
  intros H. apply tuple_eqb_Forall2 in H. revert init init'. unfold prod.
  induction H as [|x y xs ys Hxy _ IH]; intros init init' Hinit; simpl.
  - exact Hinit.
  - apply IH. unfold frac_mul. rewrite !Qred_correct, Hxy, Hinit. reflexivity.
Qed.

(** X4.  [RatioProduct.__eq__] compares the factor tuples: it is reflexive
    and symmetric, holds against a fraction exactly when that fraction is
    the only factor, never holds against a [Power], and two equal ratio
    products have the same value; but two ratio products of the same value
    need not be equal (5/4 * 6/5 and 3/2). *)
Theorem RatioProduct_eq_compares_factors :
  forall (a b : RatioProduct) (q : Fraction) (p : Power),
    RatioProduct_eq a (ArgRatioProduct a) = true
    /\ RatioProduct_eq a (ArgRatioProduct b)
       = RatioProduct_eq b (ArgRatioProduct a)
    /\ (RatioProduct_eq a (ArgRatioProduct b) = true <->
        Forall2 Qeq (ratios a) (ratios b))
    /\ (RatioProduct_eq a (ArgFraction q) = true <->
        exists x, ratios a = [x] /\ (x == q)%Q)
    /\ RatioProduct_eq a (ArgPower p) = false
    /\ (RatioProduct_eq a (ArgRatioProduct b) = true ->
        (RatioProduct_evaluate a == RatioProduct_evaluate b)%Q)
    /\ (RatioProduct_evaluate (mkRatioProduct [5 # 4; 6 # 5])
        == RatioProduct_evaluate (mkRatioProduct [3 # 2]))%Q
    /\ RatioProduct_eq (mkRatioProduct [5 # 4; 6 # 5])
                       (ArgRatioProduct (mkRatioProduct [3 # 2])) = false.
Proof.
  intros a b q p. unfold RatioProduct_eq. cbn [RatioProduct_init ratios].
  split; [apply tuple_eqb_refl|]. split; [apply tuple_eqb_sym|].
  split; [apply tuple_eqb_Forall2|]. split.
  { rewrite tuple_eqb_Forall2. split.
    - intros H. inversion H as [|x y xs ys Hxy Hrest E1 E2]; subst.
      inversion Hrest; subst. exists x. split; [reflexivity|exact Hxy].
    - intros (x & -> & Hx). constructor; [exact Hx|constructor]. }
  split; [reflexivity|]. split.
  { intros H. unfold RatioProduct_evaluate.
    apply tuple_eqb_same_value; [exact H|reflexivity]. }
  split; reflexivity.
Qed.

(** ** The transformer's music-valued methods *)

Lemma has_power_note_notes (music : Music) :
  has_power_note music = false <->
  Forall (fun n => forall p, frequency n <> FPower p) (notes_of music).
Proof.
  induction music as [n|xs IH|xs IH] using Music_nested_ind;
    cbn [has_power_note notes_of].
  - split.
    + intros H. constructor; [|constructor]. intros p Hp.
      rewrite Hp in H. discriminate H.
    + intros H. inversion H as [|? ? Hn _]; subst.
      destruct (frequency n) as [r|q|p]; try reflexivity.
      exfalso. apply (Hn p). reflexivity.
  - induction IH as [|x xs Hx _ IHxs]; cbn [existsb flat_map].
    + split; [constructor|reflexivity].
    + rewrite orb_false_iff, Forall_app, Hx, IHxs. reflexivity.
  - induction IH as [|x xs Hx _ IHxs]; cbn [existsb flat_map].
    + split; [constructor|reflexivity].
    + rewrite orb_false_iff, Forall_app, Hx, IHxs. reflexivity.
Qed.

Lemma mapM_CRatio (rs : list RatioProduct) :
  mapM (fun x => match x with
                 | CRatio r => Ok r
                 | CMusic _ => Raise AssertionError
                 end) (map CRatio rs)
  = Ok rs.
Proof.
  induction rs as [|r rs IH]; [reflexivity|].
  cbn [map mapM bind]. rewrite IH. reflexivity.
Qed.

Lemma mult_expr_unfold (rs : list RatioProduct) (music : Music) :
  mult_expr (map CRatio rs ++ [CMusic music])
  = apply_to_notes
      (fun x =>
         bind (RatioProduct_init
                 (ArgRatioProduct (mkRatioProduct (concat (map ratios rs)))))
           (fun left =>
              bind (RatioProduct_mul left (arg_of_frequency (frequency x)))
                (fun f => Ok {| frequency := FRatio f;
                                duration := duration x;
                                volume := volume x |})))
      music.
Proof.
  unfold mult_expr. rewrite last_child_snoc, removelast_last, mapM_CRatio.
  cbn [bind]. rewrite prod_ratio_products_ok. reflexivity.
Qed.

Lemma mult_note_shape (multiplier : RatioProduct) (n n' : Note) :
  bind (RatioProduct_init (ArgRatioProduct multiplier))
       (fun left =>
          bind (RatioProduct_mul left (arg_of_frequency (frequency n)))
               (fun f => Ok {| frequency := FRatio f;
                               duration := duration n;
                               volume := volume n |}))
  = Ok n' ->
  duration n' = duration n
  /\ volume n' = volume n
  /\ exists old,
      RatioProduct_init (arg_of_frequency (frequency n)) = Ok old
      /\ frequency n' = FRatio (mkRatioProduct (ratios multiplier ++ ratios old)).
Proof.
  destruct (frequency n) as [r|q|p]; cbn; intros H; try discriminate H;
    injection H as <-; (split; [reflexivity|]); (split; [reflexivity|]);
    eexists; split; reflexivity.
Qed.

(** X5.  [mult_expr] with ratio products in front of the music returns
    exactly when no note of the music is tempered.  The result has the
    height and the total duration of the music; note by note, duration and
    volume are kept and the new frequency is the ratio product whose
    factors are all factors of the multipliers, in order, followed by the
    factors of the old frequency, so that its value is the old value times
    the values of the multipliers. *)
Theorem mult_expr_multiplies_frequencies :
  forall (rs : list RatioProduct) (music : Music),
    ((exists music', mult_expr (map CRatio rs ++ [CMusic music]) = Ok music')
     <-> has_power_note music = false)
    /\ (forall music',
           mult_expr (map CRatio rs ++ [CMusic music]) = Ok music' ->
           height music' = height music
           /\ total_duration music' = total_duration music
           /\ Forall2
                (fun n n' =>
                   duration n' = duration n
                   /\ volume n' = volume n
                   /\ exists old new,
                       RatioProduct_init (arg_of_frequency (frequency n))
                       = Ok old
                       /\ frequency n' = FRatio new
                       /\ ratios new = concat (map ratios rs) ++ ratios old
                       /\ (RatioProduct_evaluate new
                           == fold_right Qmult 1 (map RatioProduct_evaluate rs)
                              * RatioProduct_evaluate old)%Q)
                (notes_of music) (notes_of music')).
Proof.
  intros rs music. rewrite mult_expr_unfold. split; [split|].
  - intros [music' H]. destruct (has_power_note music) eqn:Hp; [|reflexivity].
    rewrite apply_to_notes_rejects in H; [discriminate H| | |exact Hp].
    + intros n p. apply mult_note_power.
    + intros n. apply mult_note_total.
  - intros Hp. apply apply_to_notes_total.
    apply has_power_note_notes in Hp.
    eapply Forall_impl; [|exact Hp]. cbv beta. intros n Hn.
    destruct (frequency n) as [r|q|p]; cbn; try (eexists; reflexivity).
    exfalso. apply (Hn p). reflexivity.
  - intros music' H. split; [|split].
    + eapply apply_to_notes_height. exact H.
    + eapply apply_to_notes_total_duration; [|exact H].
      intros n n' Hn. apply mult_note_shape in Hn. apply Hn.
    + apply apply_to_notes_notes in H.
      eapply Forall2_impl; [|exact H]. cbv beta.
      intros n n' Hn. apply mult_note_shape in Hn.
      destruct Hn as (Hd & Hv & old & Hold & Hnew).
      split; [exact Hd|]. split; [exact Hv|].
      exists old, (mkRatioProduct (concat (map ratios rs) ++ ratios old)).
      split; [exact Hold|]. split; [exact Hnew|]. split; [reflexivity|].
      rewrite evaluate_app, evaluate_concat. destruct old. reflexivity.
Qed.

Lemma power_note_shape (multiplier : RatioProduct) (n : Note) :
  exists v,
    bind (RatioProduct_mul multiplier (RatioProduct_of_quantity (volume n)))
         (fun v => Ok {| frequency := frequency n;
                         duration := duration n;
                         volume := QRatio v |})
    = Ok {| frequency := frequency n;
            duration := duration n;
            volume := QRatio v |}
    /\ (RatioProduct_evaluate v
        == RatioProduct_evaluate multiplier * evaluate_quantity (volume n))%Q.
Proof.
  destruct (volume n) as [r|q]; cbn [RatioProduct_of_quantity].
  - exists (mkRatioProduct (ratios multiplier ++ ratios r)).
    split; [reflexivity|]. rewrite evaluate_app.
    destruct multiplier, r. reflexivity.
  - exists (mkRatioProduct (ratios multiplier ++ [q])).
    split; [reflexivity|]. rewrite evaluate_app.
    cbn [evaluate_quantity]. destruct multiplier.
    apply Qmult_comp; [reflexivity|].
    unfold RatioProduct_evaluate. cbn [ratios]. rewrite prod_value.
    cbn [fold_right]. ring.
Qed.

(** X6.  [power] (a volume multiplier after the music) always returns,
    also on tempered music.  The result has the height and the total
    duration of the music; every note keeps its frequency and duration, and
    its volume becomes a ratio product whose value is the multiplier's
    value times the old volume. *)
Theorem power_multiplies_volumes :
  forall (music : Music) (multiplier : RatioProduct),
  exists music',
    power [CMusic music; CRatio multiplier] = Ok music'
    /\ height music' = height music
    /\ total_duration music' = total_duration music
    /\ Forall2
         (fun n n' =>
            frequency n' = frequency n
            /\ duration n' = duration n
            /\ exists v, volume n' = QRatio v
                         /\ (RatioProduct_evaluate v
                             == RatioProduct_evaluate multiplier
                                * evaluate_quantity (volume n))%Q)
         (notes_of music) (notes_of music').
Proof.
  intros music multiplier. cbn [power bind].
  match goal with
  | |- exists m, apply_to_notes ?f _ = _ /\ _ => set (g := f)
  end.
  assert (Hg : forall n, exists v,
               g n = Ok {| frequency := frequency n;
                           duration := duration n;
                           volume := QRatio v |}
               /\ (RatioProduct_evaluate v
                   == RatioProduct_evaluate multiplier
                      * evaluate_quantity (volume n))%Q)
    by (intros n; apply power_note_shape).
  destruct (apply_to_notes_total g music) as [music' H].
  { apply Forall_forall. intros n _. destruct (Hg n) as (v & Hv & _).
    eexists. exact Hv. }
  exists music'. split; [exact H|]. split; [|split].
  - eapply apply_to_notes_height. exact H.
  - eapply apply_to_notes_total_duration; [|exact H].
    intros n n' Hn. destruct (Hg n) as (v & Hv & _).
    rewrite Hv in Hn. injection Hn as <-. reflexivity.
  - apply apply_to_notes_notes in H.
    eapply Forall2_impl; [|exact H]. cbv beta.
    intros n n' Hn. destruct (Hg n) as (v & Hv & Hval).
    rewrite Hv in Hn. injection Hn as <-.
    split; [reflexivity|]. split; [reflexivity|].
    exists v. split; [reflexivity|exact Hval].
Qed.

Lemma from_end_app {A : Type} (front : list A) (x y : A) :
  from_end (front ++ [x; y]) 2 = Ok x /\ from_end (front ++ [x; y]) 1 = Ok y.
Proof. unfold from_end. rewrite rev_app_distr. split; reflexivity. Qed.

Lemma firstn_all_but_two {A : Type} (front : list A) (x y : A) :
  firstn (length (front ++ [x; y]) - 2) (front ++ [x; y]) = front.
Proof.
  rewrite length_app. cbn [length].
  replace (length front + 2 - 2)%nat with (length front + 0)%nat by lia.
  rewrite firstn_app_2. cbn [firstn]. apply app_nil_r.
Qed.

Lemma max_frac_same (d : Fraction) (n : nat) :
  max_frac d (repeat d n) = d.
Proof.
  unfold max_frac. induction n as [|n IH]; [reflexivity|].
  cbn [repeat fold_left].
  destruct (Qle_bool d d) eqn:E; [|destruct (Qlt_le_dec d d); exact IH].
  exact IH.
Qed.

(** X7.  [chord] builds one tuple with a note for every frequency, in
    order, all with the chord's duration and volume (volume 1 when none is
    given).  That chord is as high as it has frequencies and, with at least
    one frequency, lasts the chord's duration; an empty chord lasts 0.
    [note] builds the same for a single frequency without the tuple.  With
    fewer than two children [chord] raises [IndexError]. *)
Theorem chord_builds_simultaneous_notes :
  forall (fs : list RatioProduct) (d : RatioProduct)
         (v : option RatioProduct),
    let built :=
      MTuple (map (fun f => MNote (mkNote (FRatio f) (QRatio d)
                                          (volume_or_one v))) fs) in
    chord (map Some fs ++ [Some d; v]) = Ok [built]
    /\ height built = Z.of_nat (length fs)
    /\ (fs <> [] -> total_duration built = RatioProduct_evaluate d)
    /\ (fs = [] -> total_duration built = 0%Q)
    /\ (forall f, note [Some f; Some d; v]
                  = Ok [MNote (mkNote (FRatio f) (QRatio d) (volume_or_one v))])
    /\ chord [] = Raise IndexError
    /\ (forall x, chord [x] = Raise IndexError)
    /\ chord (map Some fs ++ [None; v]) = Raise AssertionError.
Proof.
  intros fs d v built. split; [|split; [|split; [|split; [|split;
    [|split; [|split]]]]]]; try reflexivity.
  - unfold chord. rewrite firstn_all_but_two.
    destruct (from_end_app (map Some fs) (Some d) v) as [-> ->].
    cbn [bind].
    rewrite (mapM_all_ok _
               (fun f => match f with
                         | Some f' => MNote (mkNote (FRatio f') (QRatio d)
                                                    (volume_or_one v))
                         | None => MNote (mkNote (FRatio d) (QRatio d)
                                                 (volume_or_one v))
                         end)).
    + cbn [bind]. rewrite map_map. reflexivity.
    + apply Forall_forall. intros x Hx. apply in_map_iff in Hx.
      destruct Hx as (f & <- & _). reflexivity.
  - subst built. destruct fs as [|f0 fs0]; [reflexivity|].
    remember (f0 :: fs0) as fs eqn:Efs. cbn [height].
    replace (match map (fun f => MNote (mkNote (FRatio f) (QRatio d)
                                              (volume_or_one v))) fs with
             | [] => 0
             | _ :: _ =>
                 sum_int (map height
                            (map (fun f => MNote (mkNote (FRatio f) (QRatio d)
                                                         (volume_or_one v)))
                                 fs))
             end)
      with (sum_int (map height
                       (map (fun f => MNote (mkNote (FRatio f) (QRatio d)
                                                    (volume_or_one v))) fs)))
      by (rewrite Efs; reflexivity).
    clear Efs. rewrite map_map. cbn [height].
    unfold sum_int. rewrite sum_int_from.
    induction fs as [|f fs IH]; [reflexivity|].
    cbn [map fold_right length]. rewrite Nat2Z.inj_succ. lia.
  - intros Hne. subst built. destruct fs as [|f fs]; [contradiction|].
    cbn [total_duration map]. rewrite map_map.
    cbn [total_duration duration evaluate_quantity].
    rewrite map_const. apply max_frac_same.
  - intros ->. reflexivity.
  - unfold chord. rewrite firstn_all_but_two.
    destruct (from_end_app (map Some fs) None v) as [-> ->]. reflexivity.
Qed.

(** ** Hexadecimal output *)

Lemma hex_digits_acc (fuel : nat) :
  forall (n : Z) (acc : pystr),
    hex_digits fuel n acc = hex_digits fuel n [] ++ acc.
Proof.
  induction fuel as [|fuel IH]; intros n acc; [reflexivity|].
  cbn [hex_digits]. destruct (n =? 0); [reflexivity|].
  rewrite IH, (IH _ [_]), <- app_assoc. reflexivity.
Qed.

Lemma hex_digits_fuel (fuel : nat) :
  forall (fuel' : nat) (n : Z) (acc : pystr),
    0 <= n < 16 ^ Z.of_nat fuel -> 0 <= n < 16 ^ Z.of_nat fuel' ->
    hex_digits fuel n acc = hex_digits fuel' n acc.
Proof.
  induction fuel as [|fuel IH]; intros fuel' n acc Hn Hn'.
  - assert (n = 0) by (change (16 ^ Z.of_nat 0) with 1 in Hn; lia). subst n.
    destruct fuel'; reflexivity.
  - cbn [hex_digits]. destruct (n =? 0) eqn:E.
    + apply Z.eqb_eq in E. subst n. destruct fuel'; reflexivity.
    + apply Z.eqb_neq in E. destruct fuel' as [|fuel'].
      * change (16 ^ Z.of_nat 0) with 1 in Hn'. lia.
      * cbn [hex_digits]. apply Z.eqb_neq in E. rewrite E.
        rewrite Nat2Z.inj_succ, Z.pow_succ_r in Hn, Hn' by lia.
        apply IH; split;
          try (apply Z.div_pos; lia);
          apply Z.div_lt_upper_bound; lia.
Qed.

Lemma enough_fuel (n : Z) :
  0 < n -> 0 <= n < 16 ^ Z.of_nat (S (Z.to_nat (Z.log2 n))).
Proof.
  intros Hn. split; [lia|].
  pose proof (Z.log2_nonneg n) as Hnonneg.
  destruct (Z.log2_spec n Hn) as [_ Hup].
  rewrite Nat2Z.inj_succ, Z2Nat.id by lia.
  eapply Z.lt_le_trans; [exact Hup|].
  change 16 with (2 ^ 4). rewrite <- Z.pow_mul_r by lia.
  apply Z.pow_le_mono_r; lia.
Qed.

Lemma hex_of_nonneg_step (a d : Z) :
  0 < a -> 0 <= d < 16 ->
  hex_of_nonneg (16 * a + d) = hex_of_nonneg a ++ [hex_digit d].
Proof.
  intros Ha Hd. unfold hex_of_nonneg.
  assert (Hdiv : (16 * a + d) / 16 = a).
  { rewrite Z.mul_comm, Z.div_add_l by lia. rewrite Z.div_small by lia. lia. }
  assert (Hmod : (16 * a + d) mod 16 = d).
  { rewrite Z.add_comm, Z.mul_comm, Z.mod_add by lia.
    apply Z.mod_small. exact Hd. }
  destruct (16 * a + d =? 0) eqn:E; [apply Z.eqb_eq in E; lia|].
  destruct (a =? 0) eqn:E'; [apply Z.eqb_eq in E'; lia|].
  set (f := Z.to_nat (Z.log2 (16 * a + d))).
  set (g := hex_digits (S (Z.to_nat (Z.log2 a))) a []).
  cbn [hex_digits]. rewrite E, Hdiv, Hmod.
  rewrite hex_digits_acc. f_equal. subst g.
  assert (Hf : 0 <= a < 16 ^ Z.of_nat f).
  { split; [lia|]. subst f.
    pose proof (enough_fuel (16 * a + d) ltac:(lia)) as [_ Hup].
    rewrite Nat2Z.inj_succ, Z.pow_succ_r in Hup by lia. lia. }
  apply hex_digits_fuel; [exact Hf|apply enough_fuel; exact Ha].
Qed.

Lemma hex_of_digit (d : Z) :
  0 <= d < 16 -> hex_of_nonneg d = [hex_digit d].
Proof.
  intros Hd.
  assert (H : In (Z.to_nat d) (seq 0 16)) by (apply in_seq; lia).
  assert (Hall : forall k, In k (seq 0 16) ->
                           hex_of_nonneg (Z.of_nat k) = [hex_digit (Z.of_nat k)]).
  { intros k Hk. cbn in Hk.
    repeat (destruct Hk as [<-|Hk]; [reflexivity|]). destruct Hk. }
  specialize (Hall _ H). rewrite Z2Nat.id in Hall by lia. exact Hall.
Qed.

Lemma repeat_snoc {A : Type} (x : A) (k : nat) :
  repeat x (S k) = repeat x k ++ [x].
Proof.
  induction k as [|k IH]; [reflexivity|].
  cbn [repeat app] in *. rewrite <- IH. reflexivity.
Qed.

Lemma hex_of_nonneg_length (n : Z) : (1 <= length (hex_of_nonneg n))%nat.
Proof.
  unfold hex_of_nonneg. destruct (n =? 0) eqn:E; [simpl; lia|].
  cbn [hex_digits]. rewrite E, hex_digits_acc, length_app. simpl. lia.
Qed.

(** the last digit of a zero-padded number *)
Lemma format_0X_step (w : nat) (a d : Z) :
  (1 <= w)%nat -> 0 <= a -> 0 <= d < 16 ->
  format_0X (S w) (16 * a + d) = format_0X w a ++ [hex_digit d].
Proof.
  intros Hw Ha Hd. unfold format_0X.
  destruct (16 * a + d <? 0) eqn:E; [apply Z.ltb_lt in E; lia|].
  destruct (a <? 0) eqn:E'; [apply Z.ltb_lt in E'; lia|].
  rewrite !Z.abs_eq by lia. cbn [app length]. rewrite !Nat.sub_0_r.
  destruct (Z.eq_dec a 0) as [->|Hne].
  - rewrite Z.mul_0_r, Z.add_0_l, hex_of_digit by exact Hd.
    change (hex_of_nonneg 0) with [hex_digit 0]. cbn [length].
    destruct w as [|w]; [lia|].
    replace (S (S w) - 1)%nat with (S w) by lia.
    replace (S w - 1)%nat with w by lia.
    rewrite <- app_assoc. cbn [app].
    rewrite repeat_snoc, <- app_assoc. reflexivity.
  - rewrite hex_of_nonneg_step by lia.
    rewrite length_app. cbn [length].
    replace (S w - (length (hex_of_nonneg a) + 1))%nat
      with (w - length (hex_of_nonneg a))%nat by lia.
    rewrite <- app_assoc. reflexivity.
Qed.

Lemma format_0X_digit (d : Z) :
  0 <= d < 16 -> format_0X 1 d = [hex_digit d].
Proof.
  intros Hd. unfold format_0X.
  destruct (d <? 0) eqn:E; [apply Z.ltb_lt in E; lia|].
  rewrite Z.abs_eq, hex_of_digit by lia. reflexivity.
Qed.

(** the last byte of a zero-padded number *)
Lemma format_0X_byte (w : nat) (hi lo : Z) :
  (1 <= w)%nat -> 0 <= hi -> 0 <= lo < 256 ->
  format_0X (S (S w)) (256 * hi + lo) = format_0X w hi ++ format_0X 2 lo.
Proof.
  intros Hw Hhi Hlo.
  pose proof (Z.div_mod lo 16 ltac:(lia)) as Hdm.
  pose proof (Z.mod_pos_bound lo 16 ltac:(lia)) as Hm.
  assert (Hq : 0 <= lo / 16 < 16).
  { split; [apply Z.div_pos; lia|apply Z.div_lt_upper_bound; lia]. }
  replace (256 * hi + lo) with (16 * (16 * hi + lo / 16) + lo mod 16) by lia.
  rewrite format_0X_step by lia.
  rewrite format_0X_step by lia.
  rewrite Hdm at 3. rewrite (format_0X_step 1) by lia.
  rewrite format_0X_digit by lia. rewrite <- !app_assoc. reflexivity.
Qed.

Lemma format_0X_two_length (v : Z) :
  0 <= v < 256 -> length (format_0X 2 v) = 2%nat.
Proof.
  intros Hv. pose proof hex_byte_parses as H.
  rewrite forallb_forall in H. specialize (H (Z.to_nat v)).
  rewrite Z2Nat.id in H by lia.
  assert (Hin : In (Z.to_nat v) (seq 0 256)) by (apply in_seq; lia).
  specialize (H Hin).
  destruct (format_0X 2 v) as [|hi [|lo [|x xs]]]; try discriminate H.
  reflexivity.
Qed.

Lemma bytes_fromhex_app (bytes : list Z) (rest : pystr) :
  Forall (fun b => 0 <= b < 256) bytes ->
  bytes_fromhex (concat (map (format_0X 2) bytes) ++ rest)
  = match bytes_fromhex rest with
    | Some bs => Some (bytes ++ bs)
    | None => None
    end.
Proof.
  induction 1 as [|b bs Hb _ IH]; cbn [map concat app].
  - destruct (bytes_fromhex rest); reflexivity.
  - rewrite <- app_assoc, bytes_fromhex_byte by exact Hb.
    rewrite IH. destruct (bytes_fromhex rest); reflexivity.
Qed.

(** ** Delta times can be told apart from what follows *)

Lemma vlq_bytes_decode (n : Z) :
  0 <= n ->
  vlq_decode (vlq_bytes n) = Some (n, [])
  /\ Forall (fun b => 0 <= b < 256) (vlq_bytes n).
Proof.
  intros Hn.
  pose proof (n_bytes_positive n) as Hpos.
  pose proof (format_0b_length n) as Hlen.
  unfold vlq_bytes, vlq_decode.
  destruct (n_bytes_of (format_b n)) as [|k] eqn:Hk; [lia|].
  destruct (vlq_bytes_spec k (format_0b (S k * 7) n) 0 Hlen)
    as (Hdec & _ & _ & _ & _ & Hall).
  assert (Hval : int_of_bits (format_0b (S k * 7) n) = n).
  { unfold format_0b. rewrite int_of_bits_zeros. apply int_of_format_b.
    exact Hn. }
  rewrite Hval in Hdec. cbn [Z.mul Z.add] in Hdec.
  split; [exact Hdec|exact Hall].
Qed.

Lemma vlq_decode_from_app (bytes rest : list Z) :
  forall (acc v : Z),
    vlq_decode_from acc bytes = Some (v, []) ->
    vlq_decode_from acc (bytes ++ rest) = Some (v, rest).
Proof.
  induction bytes as [|b bytes IH]; intros acc v H; [discriminate H|].
  cbn [vlq_decode_from app] in *.
  destruct (Z.testbit b 7); [apply IH; exact H|].
  injection H as <- ->. reflexivity.
Qed.

(** X8.  A variable-length quantity is self-delimiting: whatever bytes
    follow the bytes of [variable_length_quantity(n)], the standard decoder
    reads [n] and stops exactly where they begin; the hex string followed
    by further bytes still parses byte by byte; and so two quantities that
    agree on their bytes, each followed by anything, are the same number
    followed by the same bytes.  A negative [n] is rejected. *)
Theorem variable_length_quantity_self_delimiting :
  forall (n : Z),
    (n < 0 -> variable_length_quantity n = Raise ValueError)
    /\ (0 <= n ->
        variable_length_quantity n = Ok (vlq_hex n)
        /\ (forall rest : list Z,
               vlq_decode (vlq_bytes n ++ rest) = Some (n, rest)
               /\ (Forall (fun b => 0 <= b < 256) rest ->
                   bytes_fromhex (vlq_hex n ++ concat (map (format_0X 2) rest))
                   = Some (vlq_bytes n ++ rest)))
        /\ (forall (m : Z) (rest rest' : list Z),
               0 <= m ->
               vlq_bytes n ++ rest = vlq_bytes m ++ rest' ->
               n = m /\ rest = rest')).
Proof.
  intros n. unfold variable_length_quantity. split.
  - intros Hn. apply Z.ltb_lt in Hn. rewrite Hn. reflexivity.
  - intros Hn. destruct (vlq_bytes_decode n Hn) as [Hdec Hall].
    assert (Hself : forall rest,
               vlq_decode (vlq_bytes n ++ rest) = Some (n, rest))
      by (intros rest; apply vlq_decode_from_app; exact Hdec).
    split; [|split].
    + destruct (n <? 0) eqn:E; [apply Z.ltb_lt in E; lia|reflexivity].
    + intros rest. split; [apply Hself|].
      intros Hrest. unfold vlq_hex.
      rewrite bytes_fromhex_app by exact Hall.
      rewrite bytes_fromhex_bytes by exact Hrest. reflexivity.
    + intros m rest rest' Hm Heq.
      destruct (vlq_bytes_decode m Hm) as [Hdec' _].
      pose proof (Hself rest) as H1. rewrite Heq in H1.
      unfold vlq_decode in H1.
      rewrite (vlq_decode_from_app _ rest' _ _ Hdec') in H1.
      injection H1 as -> ->. split; reflexivity.
Qed.

(** ** Pitch-bend values *)

Lemma int_of_bits_last (k : nat) (l : bitstr) :
  (k <= length l)%nat ->
  int_of_bits (skipn (length l - k) l) = int_of_bits l mod 2 ^ Z.of_nat k.
Proof.
  intros Hk. rewrite <- (firstn_skipn (length l - k) l) at 3.
  rewrite int_of_bits_app.
  assert (Hlen : length (skipn (length l - k) l) = k)
    by (rewrite length_skipn; lia).
  pose proof (int_of_bits_bounds (skipn (length l - k) l)) as Hb.
  rewrite Hlen in *.
  rewrite Z.add_comm, Z.mod_add by lia.
  symmetry. apply Z.mod_small. exact Hb.
Qed.

Lemma format_0b_value (w : nat) (n : Z) :
  0 <= n -> int_of_bits (format_0b w n) = n /\ (w <= length (format_0b w n))%nat.
Proof.
  intros Hn. unfold format_0b. split.
  - rewrite int_of_bits_zeros. apply int_of_format_b. exact Hn.
  - rewrite length_app, repeat_length. lia.
Qed.

Lemma fourteen_bit_split (n : Z) :
  fourteen_bit n
  = format_0X 2 (Z.abs n mod 128) ++ format_0X 2 (Z.abs n / 128 mod 128).
Proof.
  unfold fourteen_bit.
  destruct (format_0b_value 16 (Z.abs n) (Z.abs_nonneg n)) as [Hval Hlen].
  set (l := format_0b 16 (Z.abs n)) in *.
  set (t := skipn (length l - 14) l).
  assert (Ht : length t = 14%nat) by (subst t; rewrite length_skipn; lia).
  assert (Hleast : slice l (length l - 7) (length l) = skipn 7 t).
  { unfold slice. subst t. rewrite skipn_skipn.
    replace (7 + (length l - 14))%nat with (length l - 7)%nat by lia.
    apply firstn_all2. rewrite length_skipn. lia. }
  assert (Hmost : slice l (length l - 14) (length l - 7) = firstn 7 t).
  { unfold slice. fold t. f_equal. lia. }
  rewrite Hleast, Hmost.
  assert (Hl7 : length (skipn 7 t) = 7%nat) by (rewrite length_skipn; lia).
  assert (Hf7 : length (firstn 7 t) = 7%nat) by (rewrite length_firstn; lia).
  assert (Hlo : int_of_bits (skipn 7 t) = Z.abs n mod 128).
  { replace (skipn 7 t) with (skipn (length l - 7) l).
    - rewrite int_of_bits_last by lia. rewrite Hval. reflexivity.
    - subst t. rewrite skipn_skipn. f_equal. lia. }
  assert (Hhi : int_of_bits (firstn 7 t) = Z.abs n / 128 mod 128).
  { assert (Hsum : int_of_bits t = Z.abs n mod 2 ^ 14).
    { subst t. rewrite int_of_bits_last by lia. rewrite Hval. reflexivity. }
    rewrite <- (firstn_skipn 7 t) in Hsum at 1.
    rewrite int_of_bits_app, Hl7, Hlo in Hsum.
    change (2 ^ Z.of_nat 7) with 128 in Hsum.
    pose proof (int_of_bits_bounds (firstn 7 t)) as Hb. rewrite Hf7 in Hb.
    change (2 ^ Z.of_nat 7) with 128 in Hb.
    change (2 ^ 14) with (128 * 128) in Hsum.
    rewrite Z.rem_mul_r in Hsum by lia. lia. }
  change ([false] ++ skipn 7 t ++ [false] ++ firstn 7 t)
    with ((false :: skipn 7 t) ++ false :: firstn 7 t).
  rewrite int_of_bits_app, !int_of_bits_cons. cbn [length].
  rewrite Hf7, Hlo, Hhi. simpl Z.b2z.
  change (2 ^ Z.of_nat 8) with 256.
  replace (0 * 2 ^ Z.of_nat 7 + Z.abs n mod 128) with (Z.abs n mod 128) by lia.
  replace (0 * 2 ^ Z.of_nat 7 + Z.abs n / 128 mod 128)
    with (Z.abs n / 128 mod 128) by lia.
  pose proof (Z.mod_pos_bound (Z.abs n) 128 ltac:(lia)) as Hb1.
  pose proof (Z.mod_pos_bound (Z.abs n / 128) 128 ltac:(lia)) as Hb2.
  rewrite Z.mul_comm. rewrite (format_0X_byte 2) by lia. reflexivity.
Qed.

(** X9.  [fourteen_bit(n)] prints two bytes, each below 128: first the low
    seven bits, then the next seven bits, of the magnitude of [n]; bits
    above the fourteenth are dropped.  For a bend in range the two bytes
    give the bend back. *)
Theorem fourteen_bit_low_byte_first :
  forall n : Z,
  exists lo hi : Z,
    bytes_fromhex (fourteen_bit n) = Some [lo; hi]
    /\ length (fourteen_bit n) = 4%nat
    /\ 0 <= lo < 128 /\ 0 <= hi < 128
    /\ lo + 128 * hi = Z.abs n mod 2 ^ 14
    /\ (0 <= n <= PITCH_BEND_MAX -> lo + 128 * hi = n).
Proof.
  intros n. exists (Z.abs n mod 128), (Z.abs n / 128 mod 128).
  pose proof (Z.mod_pos_bound (Z.abs n) 128 ltac:(lia)) as Hb1.
  pose proof (Z.mod_pos_bound (Z.abs n / 128) 128 ltac:(lia)) as Hb2.
  assert (Hsum : Z.abs n mod 128 + 128 * (Z.abs n / 128 mod 128)
                 = Z.abs n mod 2 ^ 14).
  { change (2 ^ 14) with (128 * 128). rewrite Z.rem_mul_r by lia. reflexivity. }
  rewrite fourteen_bit_split. split; [|split].
  - rewrite bytes_fromhex_byte by lia.
    rewrite <- (app_nil_r (format_0X 2 _)).
    rewrite bytes_fromhex_byte by lia. reflexivity.
  - rewrite length_app, !format_0X_two_length by lia. reflexivity.
  - split; [exact Hb1|]. split; [exact Hb2|]. split; [exact Hsum|].
    unfold PITCH_BEND_MAX. intros Hn. rewrite Hsum.
    rewrite Z.abs_eq by lia. apply Z.mod_small.
    change (2 ^ 14) with 16384. lia.
Qed.

(** ** Track headers *)

Lemma div_256_bounds (k b : Z) :
  0 <= k < 256 * b -> 0 <= k / 256 < b.
Proof.
  intros Hk. split; [apply Z.div_pos; lia|apply Z.div_lt_upper_bound; lia].
Qed.

Lemma be32_format (k : Z) :
  0 <= k < 2 ^ 32 -> format_0X 8 k = concat (map (format_0X 2) (be32 k)).
Proof.
  intros Hk. unfold be32.
  change (2 ^ 24) with (256 * (256 * 256)). change (2 ^ 16) with (256 * 256).
  change (2 ^ 8) with 256. change (2 ^ 32) with (256 * (256 * (256 * 256))) in Hk.
  rewrite <- !Z.div_div by lia.
  set (k1 := k / 256). set (k2 := k1 / 256). set (k3 := k2 / 256).
  assert (H1 : 0 <= k1 < 256 * (256 * 256)) by (apply div_256_bounds; lia).
  assert (H2 : 0 <= k2 < 256 * 256) by (apply div_256_bounds; lia).
  assert (H3 : 0 <= k3 < 256) by (apply div_256_bounds; lia).
  pose proof (Z.mod_pos_bound k 256 ltac:(lia)) as Hb0.
  pose proof (Z.mod_pos_bound k1 256 ltac:(lia)) as Hb1.
  pose proof (Z.mod_pos_bound k2 256 ltac:(lia)) as Hb2.
  rewrite (Z.mod_small k3) by exact H3.
  rewrite (Z.div_mod k 256) at 1 by lia. fold k1.
  rewrite (format_0X_byte 6) by lia.
  rewrite (Z.div_mod k1 256) at 1 by lia. fold k2.
  rewrite (format_0X_byte 4) by lia.
  rewrite (Z.div_mod k2 256) at 1 by lia. fold k3.
  rewrite (format_0X_byte 2) by lia.
  cbn [map concat]. rewrite app_nil_r, <- !app_assoc. reflexivity.
Qed.

Lemma be32_bytes (k : Z) : Forall (fun b => 0 <= b < 256) (be32 k).
Proof.
  unfold be32. repeat constructor;
    try (apply Z.mod_pos_bound; lia);
    apply Z.mod_pos_bound; lia.
Qed.

Lemma be24_format (k : Z) :
  0 <= k < 2 ^ 24 ->
  format_0X 6 k
  = concat (map (format_0X 2) [k / 2 ^ 16 mod 256; k / 2 ^ 8 mod 256; k mod 256]).
Proof.
  intros Hk.
  change (2 ^ 16) with (256 * 256). change (2 ^ 8) with 256.
  change (2 ^ 24) with (256 * (256 * 256)) in Hk.
  rewrite <- !Z.div_div by lia.
  set (k1 := k / 256). set (k2 := k1 / 256).
  assert (H1 : 0 <= k1 < 256 * 256) by (apply div_256_bounds; lia).
  assert (H2 : 0 <= k2 < 256) by (apply div_256_bounds; lia).
  pose proof (Z.mod_pos_bound k 256 ltac:(lia)) as Hb0.
  pose proof (Z.mod_pos_bound k1 256 ltac:(lia)) as Hb1.
  rewrite (Z.mod_small k2) by exact H2.
  rewrite (Z.div_mod k 256) at 1 by lia. fold k1.
  rewrite (format_0X_byte 4) by lia.
  rewrite (Z.div_mod k1 256) at 1 by lia. fold k2.
  rewrite (format_0X_byte 2) by lia.
  cbn [map concat]. rewrite app_nil_r, <- !app_assoc. reflexivity.
Qed.

Lemma hex_of_nonneg_digits (k : nat) :
  forall n : Z,
    16 ^ Z.of_nat k <= n < 16 ^ Z.of_nat (S k) ->
    length (hex_of_nonneg n) = S k.
Proof.
  induction k as [|k IH]; intros n Hn.
  - change (16 ^ Z.of_nat 0) with 1 in Hn. change (16 ^ Z.of_nat 1) with 16 in Hn.
    rewrite hex_of_digit by lia. reflexivity.
  - rewrite !Nat2Z.inj_succ, !Z.pow_succ_r in Hn by lia.
    rewrite Nat2Z.inj_succ, Z.pow_succ_r in IH by lia.
    pose proof (Z.pow_pos_nonneg 16 (Z.of_nat k) ltac:(lia) ltac:(lia)) as Hpos.
    pose proof (Z.mod_pos_bound n 16 ltac:(lia)) as Hm.
    assert (Hq : 16 ^ Z.of_nat k <= n / 16 < 16 * 16 ^ Z.of_nat k).
    { split; [apply Z.div_le_lower_bound; lia
             |apply Z.div_lt_upper_bound; lia]. }
    rewrite (Z.div_mod n 16) by lia.
    rewrite hex_of_nonneg_step by lia.
    rewrite length_app, IH by exact Hq. cbn [length]. lia.
Qed.

Lemma even_length_parity (n : nat) :
  (Z.of_nat n mod 2 =? 0) = Nat.even n.
Proof.
  destruct (Nat.even n) eqn:E.
  - apply Nat.even_spec in E. destruct E as [k ->].
    apply Z.eqb_eq. rewrite Nat2Z.inj_mul, Z.mul_comm.
    apply Z.mod_mul. lia.
  - apply Z.eqb_neq. intros H.
    assert (Hodd : Nat.odd n = true)
      by (rewrite <- Nat.negb_even, E; reflexivity).
    apply Nat.odd_spec in Hodd. destruct Hodd as [k ->].
    rewrite Nat2Z.inj_add, Nat2Z.inj_mul in H.
    change (Z.of_nat 2) with 2 in H. change (Z.of_nat 1) with 1 in H.
    rewrite Z.add_comm, Z.mul_comm, Z.mod_add in H by lia. discriminate H.
Qed.

Lemma track_header_even (track_hex : pystr) :
  Nat.even (length track_hex) = true ->
  track_header track_hex
  = Ok (str "4d54726b" ++ format_0X 8 (Z.of_nat (length track_hex) / 2)).
Proof.
  intros H. unfold track_header, assert.
  rewrite even_length_parity, H. reflexivity.
Qed.

Lemma bytes_fromhex_MTrk (rest : pystr) :
  bytes_fromhex (str "4d54726b" ++ rest)
  = match bytes_fromhex rest with
    | Some bs => Some ([77; 84; 114; 107] ++ bs)
    | None => None
    end.
Proof.
  change (str "4d54726b" ++ rest)
    with ("4"%char :: "d"%char :: "5"%char :: "4"%char :: "7"%char
          :: "2"%char :: "6"%char :: "b"%char :: rest).
  cbn [bytes_fromhex]. destruct (bytes_fromhex rest); reflexivity.
Qed.

(** X10.  [track_header] raises [AssertionError] for an odd number of hex
    digits and otherwise returns the chunk type "MTrk" in lower-case hex
    followed by the number of bytes of the track; for a track shorter than
    2^32 bytes these are eight bytes, the last four being the byte count,
    most significant first. *)
Theorem track_header_counts_bytes :
  forall track_hex : pystr,
    (Nat.even (length track_hex) = false ->
     track_header track_hex = Raise AssertionError)
    /\ (Nat.even (length track_hex) = true ->
        exists size : pystr,
          track_header track_hex = Ok (str "4d54726b" ++ size)
          /\ (Z.of_nat (length track_hex) / 2 < 2 ^ 32 ->
              length size = 8%nat
              /\ bytes_fromhex (str "4d54726b" ++ size)
                 = Some ([77; 84; 114; 107]
                           ++ be32 (Z.of_nat (length track_hex) / 2))
              /\ fold_left (fun a b => 256 * a + b)
                           (be32 (Z.of_nat (length track_hex) / 2)) 0
                 = Z.of_nat (length track_hex) / 2)).
Proof.
  intros track_hex. split.
  - intros H. unfold track_header, assert.
    rewrite even_length_parity, H. reflexivity.
  - intros H. eexists. split; [apply track_header_even; exact H|].
    set (k := Z.of_nat (length track_hex) / 2).
    assert (Hk : 0 <= k) by (apply Z.div_pos; lia).
    intros Hlt. rewrite be32_format by lia.
    pose proof (be32_bytes k) as Hall. split; [|split].
    + unfold be32 in *. cbn [map concat].
      rewrite !length_app.
      inversion Hall as [|? ? H3 Hall3]; subst.
      inversion Hall3 as [|? ? H2 Hall2]; subst.
      inversion Hall2 as [|? ? H1 Hall1]; subst.
      inversion Hall1 as [|? ? H0 _]; subst.
      rewrite !format_0X_two_length by assumption. reflexivity.
    + rewrite bytes_fromhex_MTrk, bytes_fromhex_bytes by exact Hall.
      reflexivity.
    + unfold be32. cbn [fold_left].
      change (2 ^ 24) with (256 * (256 * 256)).
      change (2 ^ 16) with (256 * 256). change (2 ^ 8) with 256.
      change (2 ^ 32) with (256 * (256 * (256 * 256))) in Hlt.
      rewrite <- !Z.div_div by lia.
      set (k1 := k / 256). set (k2 := k1 / 256). set (k3 := k2 / 256).
      assert (H1 : 0 <= k1 < 256 * (256 * 256)) by (apply div_256_bounds; lia).
      assert (H2 : 0 <= k2 < 256 * 256) by (apply div_256_bounds; lia).
      assert (H3 : 0 <= k3 < 256) by (apply div_256_bounds; lia).
      rewrite (Z.mod_small k3) by exact H3.
      pose proof (Z.div_mod k 256 ltac:(lia)) as E0. fold k1 in E0.
      pose proof (Z.div_mod k1 256 ltac:(lia)) as E1. fold k2 in E1.
      pose proof (Z.div_mod k2 256 ltac:(lia)) as E2. fold k3 in E2.
      lia.
Qed.

(** X11.  [tempo_track]: when the rounded number of microseconds per beat
    fits in three bytes the track is the header of an eleven-byte track,
    the set-tempo meta event [FF 51 03] with the three bytes of the tempo,
    most significant first, and the end of track; a tempo of seven hex
    digits makes the number of digits odd and [track_header] raises
    [AssertionError]; an exception of the rounding is passed on. *)
Theorem tempo_track_three_byte_tempo :
  forall (float : Type) (microseconds : float -> py Z) (t0 : float),
    (forall us : Z,
        microseconds t0 = Ok us -> 0 <= us < 2 ^ 24 ->
        exists track : pystr,
          tempo_track float microseconds t0 = Ok track
          /\ bytes_fromhex track
             = Some ([77; 84; 114; 107; 0; 0; 0; 11; 0; 255; 81; 3]
                       ++ [us / 2 ^ 16 mod 256; us / 2 ^ 8 mod 256; us mod 256]
                       ++ [0; 255; 47; 0]))
    /\ (forall us : Z,
           microseconds t0 = Ok us -> 2 ^ 24 <= us < 2 ^ 28 ->
           tempo_track float microseconds t0 = Raise AssertionError)
    /\ (forall e : exn,
           microseconds t0 = Raise e ->
           tempo_track float microseconds t0 = Raise e).
Proof.
  intros float microseconds t0. split; [|split].
  - intros us Hus Hrange. unfold tempo_track. rewrite Hus. cbn [bind].
    rewrite be24_format by exact Hrange.
    set (b2 := us / 2 ^ 16 mod 256). set (b1 := us / 2 ^ 8 mod 256).
    set (b0 := us mod 256).
    assert (H2 : 0 <= b2 < 256) by (apply Z.mod_pos_bound; lia).
    assert (H1 : 0 <= b1 < 256) by (apply Z.mod_pos_bound; lia).
    assert (H0 : 0 <= b0 < 256) by (apply Z.mod_pos_bound; lia).
    set (body := str "00FF5103" ++ concat (map (format_0X 2) [b2; b1; b0])
                     ++ END_OF_TRACK).
    assert (Hbody : body = concat (map (format_0X 2)
                                     ([0; 255; 81; 3] ++ [b2; b1; b0]
                                        ++ [0; 255; 47; 0]))).
    { subst body. rewrite !map_app, !concat_app. reflexivity. }
    assert (Hlen : length body = 22%nat).
    { subst body. cbn [map concat]. rewrite !length_app.
      rewrite !format_0X_two_length by assumption. reflexivity. }
    rewrite track_header_even by (rewrite Hlen; reflexivity).
    rewrite Hlen. cbn [bind]. eexists. split; [reflexivity|].
    change (format_0X 8 (Z.of_nat 22 / 2))
      with (concat (map (format_0X 2) [0; 0; 0; 11])).
    rewrite <- app_assoc, bytes_fromhex_MTrk.
    rewrite Hbody, <- concat_app, <- map_app.
    rewrite bytes_fromhex_bytes; [reflexivity|].
    repeat (constructor; [lia|]). constructor.
  - intros us Hus Hrange. unfold tempo_track. rewrite Hus. cbn [bind].
    assert (Hdigits : length (hex_of_nonneg us) = 7%nat).
    { apply (hex_of_nonneg_digits 6).
      change (16 ^ Z.of_nat 6) with (2 ^ 24).
      change (16 ^ Z.of_nat 7) with (2 ^ 28). exact Hrange. }
    assert (Hfmt : format_0X 6 us = hex_of_nonneg us).
    { unfold format_0X.
      destruct (us <? 0) eqn:E; [apply Z.ltb_lt in E; lia|].
      rewrite Z.abs_eq by lia. rewrite Hdigits. reflexivity. }
    unfold track_header, assert. rewrite even_length_parity.
    rewrite !length_app, Hfmt, Hdigits. reflexivity.
  - intros e He. unfold tempo_track. rewrite He. reflexivity.
Qed.

(** ** Events as bytes *)

Section EventFloats.
Context {fl : Floats}.

Lemma Ok_inj {A : Type} (a b : A) : Ok a = Ok b -> a = b.
Proof. intros H. injection H as ->. reflexivity. Qed.

Lemma status_bytes (c : Z) :
  0 <= c < 16 ->
  str "E" ++ format_X c = format_0X 2 (224 + c)
  /\ str "9" ++ format_X c = format_0X 2 (144 + c)
  /\ str "8" ++ format_X c = format_0X 2 (128 + c)
  /\ str "C" ++ format_X c = format_0X 2 (192 + c).
Proof.
  intros Hc.
  assert (H : In (Z.to_nat c) (seq 0 16)) by (apply in_seq; lia).
  assert (Hall : forall k, In k (seq 0 16) ->
            str "E" ++ format_X (Z.of_nat k) = format_0X 2 (224 + Z.of_nat k)
            /\ str "9" ++ format_X (Z.of_nat k) = format_0X 2 (144 + Z.of_nat k)
            /\ str "8" ++ format_X (Z.of_nat k) = format_0X 2 (128 + Z.of_nat k)
            /\ str "C" ++ format_X (Z.of_nat k) = format_0X 2 (192 + Z.of_nat k)).
  { intros k Hk. cbn in Hk.
    repeat (destruct Hk as [<-|Hk]; [repeat split; reflexivity|]).
    destruct Hk. }
  specialize (Hall _ H). rewrite Z2Nat.id in Hall by lia. exact Hall.
Qed.

Lemma hex_bytes_length (bytes : list Z) :
  Forall (fun b => 0 <= b < 256) bytes ->
  length (concat (map (format_0X 2) bytes)) = (2 * length bytes)%nat.
Proof.
  induction 1 as [|b bs Hb _ IH]; [reflexivity|].
  cbn [map concat length]. rewrite length_app, IH.
  rewrite format_0X_two_length by exact Hb. lia.
Qed.

Lemma render_bytes (e : Event) :
  event_in_range e ->
  render e = concat (map (format_0X 2) (event_bytes e))
  /\ Forall (fun b => 0 <= b < 256) (event_bytes e).
Proof.
  destruct e as [c b|c p v|d c p]; cbn [event_in_range render event_bytes].
  - intros [Hc Hb]. destruct (status_bytes c Hc) as (HE & _).
    pose proof (Z.mod_pos_bound b 128 ltac:(lia)) as Hb1.
    pose proof (Z.mod_pos_bound (b / 128) 128 ltac:(lia)) as Hb2.
    split.
    + rewrite fourteen_bit_split, Z.abs_eq by lia.
      rewrite (app_assoc (str "E")), HE. cbn [map concat].
      rewrite app_nil_r. reflexivity.
    + repeat (constructor; [lia|]). constructor.
  - intros (Hc & Hp & Hv). destruct (status_bytes c Hc) as (_ & H9 & _).
    split.
    + change (str "009") with (str "00" ++ str "9").
      rewrite <- (app_assoc (str "00")), (app_assoc (str "9")), H9.
      cbn [map concat]. rewrite app_nil_r. reflexivity.
    + repeat (constructor; [lia|]). constructor.
  - intros (Hc & Hp & Hd). destruct (status_bytes c Hc) as (_ & _ & H8 & _).
    destruct (vlq_bytes_decode d Hd) as [_ Hall].
    split.
    + rewrite map_app, concat_app. unfold vlq_hex. f_equal.
      rewrite (app_assoc (str "8")), H8. cbn [map concat].
      rewrite app_nil_r. reflexivity.
    + apply Forall_app. split; [exact Hall|].
      repeat (constructor; [lia|]). constructor.
Qed.

Lemma render_all_bytes (events : list Event) :
  Forall event_in_range events ->
  concat (map render events)
  = concat (map (format_0X 2) (concat (map event_bytes events)))
  /\ Forall (fun b => 0 <= b < 256) (concat (map event_bytes events)).
Proof.
  induction 1 as [|e es He _ [IH1 IH2]]; [split; [reflexivity|constructor]|].
  destruct (render_bytes e He) as [Hr Hb].
  cbn [map concat]. rewrite map_app, concat_app, Hr, IH1.
  split; [reflexivity|]. apply Forall_app. split; assumption.
Qed.

Lemma MidiNote_new_range (p : Z) (b : option Z) (t v : Z) (m : MidiNote) :
  MidiNote_new p b t v = Ok m ->
  0 <= pitch m <= 127 /\ 0 <= velocity m <= 127
  /\ (forall b', bend m = Some b' -> 0 <= b' <= PITCH_BEND_MAX).
Proof.
  unfold MidiNote_new, assert, PITCH_BEND_MAX. intros H.
  destruct ((0 <=? p) && (p <=? 127)) eqn:Ep; cbn [bind] in H;
    [|discriminate H].
  apply andb_true_iff in Ep. destruct Ep as [Ep1 Ep2].
  apply Z.leb_le in Ep1. apply Z.leb_le in Ep2.
  assert (Hb : forall b', b = Some b' -> 0 <= b' <= 16383
               /\ (bind (if (0 <=? v) && (v <=? 127) then Ok tt
                         else Raise AssertionError)
                        (fun _ => Ok (mkMidiNote p b t v)) = Ok m)).
  { intros b' ->.
    destruct ((0 <=? b') && (b' <=? 2 ^ 14 - 1)) eqn:Eb; cbn [bind] in H;
      [|discriminate H].
    apply andb_true_iff in Eb. destruct Eb as [Eb1 Eb2].
    apply Z.leb_le in Eb1. apply Z.leb_le in Eb2.
    change (2 ^ 14 - 1) with 16383 in Eb2. split; [lia|exact H]. }
  assert (Hv : bind (if (0 <=? v) && (v <=? 127) then Ok tt
                     else Raise AssertionError)
                    (fun _ => Ok (mkMidiNote p b t v)) = Ok m).
  { destruct b as [b'|]; [apply (Hb b' eq_refl)|exact H]. }
  destruct ((0 <=? v) && (v <=? 127)) eqn:Ev; cbn [bind] in Hv;
    [|discriminate Hv].
  apply andb_true_iff in Ev. destruct Ev as [Ev1 Ev2].
  apply Z.leb_le in Ev1. apply Z.leb_le in Ev2.
  injection Hv as <-. cbn [pitch velocity bend].
  split; [lia|]. split; [lia|].
  intros b' Hb'. apply (Hb b' Hb').
Qed.

Section EventFacts.

Variable float : Type.
Variable real_frequency_is_zero : Number -> float -> bool.
Variable pitch_and_bend : Number -> float -> Z -> py (Z * Z).

Let to_midi := Midi.to_midi float real_frequency_is_zero pitch_and_bend.
Let element_to_midi :=
  Midi.element_to_midi float real_frequency_is_zero pitch_and_bend.
Let chord_to_midi :=
  Midi.chord_to_midi float real_frequency_is_zero pitch_and_bend.
Let midi_track := Midi.midi_track float real_frequency_is_zero pitch_and_bend.

Lemma to_midi_range (note : Note) (f0 : float) (range : Z) (m : MidiNote) :
  to_midi note f0 range = Ok m ->
  0 <= pitch m <= 127 /\ 0 <= velocity m <= 127
  /\ 0 <= bend_of m <= PITCH_BEND_MAX
  /\ bend m = Some (bend_of m).
Proof.
  intros H.
  assert (Hb : bend m = Some (bend_of m)).
  { eapply to_midi_ok. exact H. }
  assert (Hr : 0 <= pitch m <= 127 /\ 0 <= velocity m <= 127
               /\ (forall b', bend m = Some b' -> 0 <= b' <= PITCH_BEND_MAX)).
  { unfold to_midi, Midi.to_midi, assert in H.
    destruct (Qeq_bool _ _); cbn [bind] in H; [|discriminate H].
    destruct (evaluate (frequency note)) as [f|e]; cbn [bind] in H;
      [|discriminate H].
    destruct (real_frequency_is_zero f f0).
    - eapply MidiNote_new_range. exact H.
    - destruct (pitch_and_bend f f0 range) as [pb|e]; cbn [bind] in H;
        [|discriminate H].
      eapply MidiNote_new_range. exact H. }
  destruct Hr as (Hp & Hv & Hbend).
  split; [exact Hp|]. split; [exact Hv|]. split; [|exact Hb].
  apply Hbend. exact Hb.
Qed.

Lemma element_to_midi_range (x : Music) (f0 : float) (range : Z)
      (m : MidiNote) :
  element_to_midi f0 range x = Ok m ->
  0 <= pitch m <= 127 /\ 0 <= velocity m <= 127
  /\ 0 <= bend_of m <= PITCH_BEND_MAX
  /\ bend m = Some (bend_of m).
Proof.
  destruct x as [n|xs|xs]; cbn; try discriminate.
  apply to_midi_range.
Qed.

Lemma note_offs_ok (t : Z) (channels : list Z) (nwc : list (MidiNote * Z)) :
  0 <= t ->
  mapM (note_off_event t channels) nwc
  = Ok (map (fun nc =>
               render (NoteOff (if snd nc =? hd 0 channels then t else 0)
                               (snd nc) (pitch (fst nc)))) nwc).
Proof.
  intros Ht. apply mapM_all_ok. apply Forall_forall. intros nc _.
  unfold note_off_event, variable_length_quantity.
  destruct (t <? 0) eqn:E; [apply Z.ltb_lt in E; lia|].
  destruct (snd nc =? hd 0 channels); reflexivity.
Qed.

Lemma chord_to_midi_events (notes : Music) (f0 : float) (channels : list Z)
      (range : Z) (out : pystr) :
  chord_to_midi notes f0 channels range = Ok out ->
  exists (m : MidiNote) (ms : list MidiNote),
    mapM (element_to_midi f0 range) (as_chord notes) = Ok (m :: ms)
    /\ Forall (fun x => ticks x = ticks m) ms
    /\ 0 <= ticks m
    /\ (length (m :: ms) <= length channels)%nat
    /\ out = concat (map render
                         (chord_events_on channels (ticks m)
                            (combine (m :: ms) channels))).
Proof.
  intros H.
  destruct (chord_to_midi_inv float real_frequency_is_zero pitch_and_bend
              notes f0 channels range out H)
    as (m & ms & Hmap & Hticks & Hpos & Hlen).
  exists m, ms. split; [exact Hmap|]. split; [exact Hticks|].
  split; [exact Hpos|]. split; [exact Hlen|].
  assert (E : (length (m :: ms) <=? length channels)%nat = true)
    by (apply Nat.leb_le; exact Hlen).
  unfold chord_to_midi, Midi.chord_to_midi in H.
  unfold element_to_midi. rewrite Hmap in H. cbn [bind map hd] in H.
  rewrite E in H.
  rewrite nodup_all_equal in H by (rewrite Forall_map; exact Hticks).
  cbn [length Nat.eqb assert bind] in H.
  assert (Hbends :
    Forall (fun nc => bend (fst nc) = Some (bend_of (fst nc)))
           (combine (m :: ms) channels)).
  { apply Forall_forall. intros [n c] Hin. apply in_combine_l in Hin.
    destruct (mapM_ok_in _ _ _ _ Hmap Hin) as (x & _ & Hxy). cbn [fst].
    apply element_to_midi_range in Hxy. apply Hxy. }
  rewrite (pitch_bends_ok _ Hbends) in H. cbn [bind] in H.
  rewrite note_offs_ok in H by exact Hpos. cbn [bind] in H.
  injection H as <-. unfold chord_events_on.
  rewrite !map_app, !map_map. reflexivity.
Qed.

Lemma chord_events_in_range (channels : list Z) (t : Z)
      (nwc : list (MidiNote * Z)) :
  0 <= t ->
  Forall (fun nc => 0 <= snd nc < 16
                    /\ 0 <= pitch (fst nc) <= 127
                    /\ 0 <= velocity (fst nc) <= 127
                    /\ 0 <= bend_of (fst nc) <= PITCH_BEND_MAX) nwc ->
  Forall event_in_range (chord_events_on channels t nwc).
Proof.
  intros Ht H. unfold chord_events_on.
  repeat (apply Forall_app; split); apply Forall_map;
    (eapply Forall_impl; [|exact H]); cbv beta;
    intros nc (Hc & Hp & Hv & Hb); cbn [event_in_range].
  - split; assumption.
  - repeat split; lia.
  - split; [exact Hc|]. split; [exact Hp|].
    destruct (snd nc =? hd 0 channels); lia.
Qed.

(** X12.  When [chord_to_midi] returns on channels between 0 and 15, its
    hex string is a whole number of bytes that [bytes.fromhex] reads as
    three events for every note of the chord: the pitch bends [E<c> lo hi],
    the note-ons [9<c> pitch velocity], both with delta time 0, and the
    note-offs [8<c> pitch 00], a note-off on the first channel carrying the
    duration in ticks as a variable-length delta time. *)
Theorem chord_to_midi_writes_whole_events :
  forall (notes : Music) (f0 : float) (channels : list Z) (range : Z)
         (out : pystr),
    Forall (fun c => 0 <= c < 16) channels ->
    chord_to_midi notes f0 channels range = Ok out ->
    exists (m : MidiNote) (ms : list MidiNote),
      mapM (element_to_midi f0 range) (as_chord notes) = Ok (m :: ms)
      /\ length (chord_events_on channels (ticks m)
                   (combine (m :: ms) channels))
         = (3 * length (as_chord notes))%nat
      /\ Forall event_in_range
                (chord_events_on channels (ticks m)
                   (combine (m :: ms) channels))
      /\ bytes_fromhex out
         = Some (concat (map event_bytes
                             (chord_events_on channels (ticks m)
                                (combine (m :: ms) channels))))
      /\ Nat.even (length out) = true.
Proof.
  intros notes f0 channels range out Hch H.
  destruct (chord_to_midi_events notes f0 channels range out H)
    as (m & ms & Hmap & Hticks & Hpos & Hlen & ->).
  exists m, ms. split; [exact Hmap|].
  assert (Hrange : Forall event_in_range
                     (chord_events_on channels (ticks m)
                        (combine (m :: ms) channels))).
  { apply chord_events_in_range; [exact Hpos|].
    apply Forall_forall. intros [n c] Hin. cbn [fst snd]. split.
    - apply in_combine_r in Hin. rewrite Forall_forall in Hch.
      apply Hch. exact Hin.
    - apply in_combine_l in Hin.
      destruct (mapM_ok_in _ _ _ _ Hmap Hin) as (x & _ & Hxy).
      apply element_to_midi_range in Hxy.
      destruct Hxy as (Hp & Hv & Hb & _). repeat split; lia. }
  destruct (render_all_bytes _ Hrange) as [Hr Hb].
  split; [|split; [exact Hrange|split]].
  - unfold chord_events_on. rewrite !length_app, !length_map, length_combine.
    apply mapM_ok_length in Hmap. rewrite <- Hmap.
    rewrite Nat.min_l by exact Hlen. lia.
  - rewrite Hr. apply bytes_fromhex_bytes. exact Hb.
  - rewrite Hr, hex_bytes_length by exact Hb.
    rewrite Nat.even_mul. reflexivity.
Qed.

Lemma chord_to_midi_hex (notes : Music) (f0 : float) (channels : list Z)
      (range : Z) (out : pystr) :
  Forall (fun c => 0 <= c < 16) channels ->
  chord_to_midi notes f0 channels range = Ok out ->
  exists bytes : list Z,
    out = concat (map (format_0X 2) bytes)
    /\ Forall (fun b => 0 <= b < 256) bytes.
Proof.
  intros Hch H.
  destruct (chord_to_midi_events notes f0 channels range out H)
    as (m & ms & Hmap & Hticks & Hpos & Hlen & ->).
  eexists. apply render_all_bytes.
  apply chord_events_in_range; [exact Hpos|].
  apply Forall_forall. intros [n c] Hin. cbn [fst snd]. split.
  - apply in_combine_r in Hin. rewrite Forall_forall in Hch.
    apply Hch. exact Hin.
  - apply in_combine_l in Hin.
    destruct (mapM_ok_in _ _ _ _ Hmap Hin) as (x & _ & Hxy).
    apply element_to_midi_range in Hxy.
    destruct Hxy as (Hp & Hv & Hb & _). repeat split; lia.
Qed.

Lemma chords_hex (f0 : float) (channels : list Z) (range : Z)
      (xs : list Music) (chords : list pystr) :
  Forall (fun c => 0 <= c < 16) channels ->
  mapM (fun x => chord_to_midi x f0 channels range) xs = Ok chords ->
  exists bytes : list Z,
    concat chords = concat (map (format_0X 2) bytes)
    /\ Forall (fun b => 0 <= b < 256) bytes.
Proof.
  intros Hch H. apply mapM_ok_Forall2 in H.
  induction H as [|x out xs outs Hx _ (bytes & IH1 & IH2)].
  - exists []. split; [reflexivity|constructor].
  - destruct (chord_to_midi_hex _ _ _ _ _ Hch Hx) as (b & -> & Hb).
    exists (b ++ bytes). cbn [concat].
    rewrite IH1, map_app, concat_app.
    split; [reflexivity|]. apply Forall_app. split; assumption.
Qed.

Lemma set_program_hex (program : Z) (channels : list Z) :
  Forall (fun c => 0 <= c < 16) channels ->
  1 <= program <= 256 ->
  set_program program channels
  = concat (map (format_0X 2) (program_bytes program channels))
  /\ Forall (fun b => 0 <= b < 256) (program_bytes program channels).
Proof.
  intros Hch Hp. unfold set_program, program_bytes.
  induction Hch as [|c cs Hc _ [IH1 IH2]]; [split; [reflexivity|constructor]|].
  destruct (status_bytes c Hc) as (_ & _ & _ & HC).
  cbn [map concat flat_map]. rewrite IH1. split.
  - rewrite map_app, concat_app. f_equal.
    change (str "00C") with (str "00" ++ str "C").
    rewrite <- (app_assoc (str "00")), (app_assoc (str "C")), HC.
    cbn [map concat app]. rewrite app_nil_r. reflexivity.
  - apply Forall_app. split; [|exact IH2].
    repeat (constructor; [lia|]). constructor.
Qed.

(** X13.  In [midi_track] the assertion of [track_header] cannot fail:
    on channels between 0 and 15 and with no program or a program between
    1 and 256, once every chord of the part is encoded the track is
    returned.  It is the chunk type "MTrk", the number of bytes of the
    body, and the body: the program changes [C<c> program-1] of all
    channels when a program is given, the chords, and the end of track
    [FF 2F 00]; [bytes.fromhex] reads it back when the body is shorter
    than 2^32 bytes. *)
Theorem midi_track_is_a_chunk :
  forall (music : Music) (f0 : float) (channels : list Z)
         (program : option Z) (range : Z)
         (xs : list Music) (chords : list pystr),
    Forall (fun c => 0 <= c < 16) channels ->
    (forall p, program = Some p -> 1 <= p <= 256) ->
    iterate music = Ok xs ->
    mapM (fun x => chord_to_midi x f0 channels range) xs = Ok chords ->
    exists (events : list Z),
      let body := match program with
                  | Some p => program_bytes p channels
                  | None => []
                  end ++ events ++ [0; 255; 47; 0] in
      bytes_fromhex (concat chords) = Some events
      /\ midi_track music f0 channels program range
         = Ok (str "4d54726b" ++ format_0X 8 (Z.of_nat (length body))
                   ++ concat (map (format_0X 2) body))
      /\ (Z.of_nat (length body) < 2 ^ 32 ->
          forall track,
            midi_track music f0 channels program range = Ok track ->
            bytes_fromhex track
            = Some ([77; 84; 114; 107] ++ be32 (Z.of_nat (length body))
                      ++ body)).
Proof.
  intros music f0 channels program range xs chords Hch Hprog Hiter Hchords.
  destruct (chords_hex _ _ _ _ _ Hch Hchords) as (events & Hev & Hevb).
  exists events. cbv zeta.
  set (pbytes := match program with
                 | Some p => program_bytes p channels
                 | None => []
                 end).
  assert (Hp : match program with
               | Some p => set_program p channels
               | None => []
               end = concat (map (format_0X 2) pbytes)
               /\ Forall (fun b => 0 <= b < 256) pbytes).
  { subst pbytes. destruct program as [p|]; [|split; [reflexivity|constructor]].
    apply set_program_hex; [exact Hch|apply Hprog; reflexivity]. }
  destruct Hp as [Hp Hpb].
  assert (Hbody : Forall (fun b => 0 <= b < 256)
                         (pbytes ++ events ++ [0; 255; 47; 0])).
  { repeat (apply Forall_app; split); try assumption.
    repeat (constructor; [lia|]). constructor. }
  assert (Htrack :
    midi_track music f0 channels program range
    = Ok (str "4d54726b"
            ++ format_0X 8 (Z.of_nat (length (pbytes ++ events
                                                ++ [0; 255; 47; 0])))
            ++ concat (map (format_0X 2)
                           (pbytes ++ events ++ [0; 255; 47; 0])))).
  { unfold midi_track, Midi.midi_track. rewrite Hiter. cbn [bind].
    fold chord_to_midi. rewrite Hchords. cbn [bind].
    rewrite Hp, Hev.
    change END_OF_TRACK with (concat (map (format_0X 2) [0; 255; 47; 0])).
    rewrite <- !concat_app, <- !map_app, <- app_assoc.
    rewrite track_header_even
      by (rewrite hex_bytes_length by exact Hbody;
          rewrite Nat.even_mul; reflexivity).
    cbn [bind]. rewrite hex_bytes_length by exact Hbody.
    rewrite Nat2Z.inj_mul, Z.mul_comm, Z.div_mul by lia.
    rewrite <- app_assoc. reflexivity. }
  split; [|split].
  - rewrite Hev. apply bytes_fromhex_bytes. exact Hevb.
  - exact Htrack.
  - intros Hlt track Ht. rewrite Htrack in Ht. apply Ok_inj in Ht.
    rewrite <- Ht.
    rewrite bytes_fromhex_MTrk, be32_format by lia.
    rewrite <- concat_app, <- map_app.
    rewrite bytes_fromhex_bytes; [reflexivity|].
    apply Forall_app. split; [apply be32_bytes|exact Hbody].
Qed.

End EventFacts.

End EventFloats.

(** ** Tracks of a piece *)

Section PieceFloats.
Context {fl : Floats}.

Lemma In_slice {A : Type} (l : list A) (lo hi : nat) (x : A) :
  In x (slice l lo hi) -> In x l.
Proof.
  unfold slice. intros H.
  rewrite <- (firstn_skipn lo l). apply in_or_app. right.
  rewrite <- (firstn_skipn (hi - lo) (skipn lo l)).
  apply in_or_app. left. exact H.
Qed.

Lemma all_channels_range :
  Forall (fun c => 1 <= c <= 15 /\ c <> 9) all_channels.
Proof. repeat constructor; try lia; discriminate. Qed.

Lemma program_at_in (ps : list (option Z)) (n : nat) (pr : option Z) :
  program_at ps n = Ok pr -> In pr ps.
Proof.
  unfold program_at. destruct (n <? length ps)%nat eqn:E.
  - apply Nat.ltb_lt in E. intros H. injection H as <-.
    apply nth_In. exact E.
  - destruct (rev ps) as [|p rest] eqn:Hrev; [discriminate|].
    intros H. injection H as <-. apply in_rev. rewrite Hrev. left. reflexivity.
Qed.

Section PieceFacts.

Variable float : Type.
Variable real_frequency_is_zero : Number -> float -> bool.
Variable pitch_and_bend : Number -> float -> Z -> py (Z * Z).

Let midi_track := Midi.midi_track float real_frequency_is_zero pitch_and_bend.
Let part_loop := Midi.part_loop float real_frequency_is_zero pitch_and_bend.
Let part_midi_tracks :=
  Midi.part_midi_tracks float real_frequency_is_zero pitch_and_bend.

Lemma part_loop_tracks (f0 : float) (programs : option (list (option Z)))
      (range : Z) (parts : list Music) :
  forall n program lowest_index tracks chans tracks' chans',
    part_loop f0 programs range parts n program lowest_index tracks chans
    = Ok (tracks', chans') ->
    exists new : list (pystr * list Z),
      tracks' = tracks ++ map fst new
      /\ chans' = chans ++ map snd new
      /\ Forall2
           (fun part tc =>
              exists pr : option Z,
                (pr = program
                 \/ exists ps, programs = Some ps /\ In pr ps)
                /\ midi_track part f0 (snd tc) pr range = Ok (fst tc)
                /\ Forall (fun c => 1 <= c <= 15 /\ c <> 9) (snd tc))
           parts new.
Proof.
  unfold part_loop, midi_track.
  induction parts as [|p ps IH];
    intros n program lo tracks chans tracks' chans' H; cbn [Midi.part_loop] in H.
  - injection H as <- <-. exists []. cbn [map]. rewrite !app_nil_r.
    split; [reflexivity|]. split; [reflexivity|constructor].
  - match type of H with
    | bind ?c _ = _ => destruct c as [prog|e] eqn:Hprog; cbn [bind] in H;
                       [|discriminate H]
    end.
    match type of H with
    | bind ?c _ = _ => destruct c as [[]|e]; cbn [bind] in H;
                       [|discriminate H]
    end.
    match type of H with
    | bind ?c _ = _ => destruct c as [track|e] eqn:Htrack; cbn [bind] in H;
                       [|discriminate H]
    end.
    apply IH in H. destruct H as (new & -> & -> & Hall).
    set (channels := slice all_channels lo (lo + Z.to_nat (height p))) in *.
    assert (Hprog' : prog = program
                     \/ exists ps', programs = Some ps' /\ In prog ps').
    { destruct programs as [ps'|].
      - right. exists ps'. split; [reflexivity|].
        eapply program_at_in. exact Hprog.
      - left. injection Hprog as <-. reflexivity. }
    exists ((track, channels) :: new). cbn [map fst snd].
    rewrite <- !app_assoc. split; [reflexivity|]. split; [reflexivity|].
    constructor.
    + exists prog. split; [exact Hprog'|]. split; [exact Htrack|].
      cbn [snd]. apply Forall_forall. intros c Hc.
      apply In_slice in Hc. pose proof all_channels_range as Hr.
      rewrite Forall_forall in Hr. apply Hr. exact Hc.
    + eapply Forall2_impl; [|exact Hall]. cbv beta.
      intros part tc (pr & Hpr & Hrest). exists pr. split; [|exact Hrest].
      destruct Hpr as [->|Hpr]; [exact Hprog'|right; exact Hpr].
Qed.

(** X14.  When [part_midi_tracks] returns, it returns one track and one
    channel list for every part, in order; the track of a part is what
    [midi_track] returns for that part on its own channel list, with a
    program that is either absent or one of the given programs; and every
    channel used lies between 1 and 15 and is not the percussion channel
    9.  A piece without parts gives no tracks, and a single note in place
    of a piece raises [TypeError]. *)
Theorem part_midi_tracks_one_track_per_part :
  forall (music : Music) (f0 : float)
         (programs : option (list (option Z))) (range : Z),
    (forall tracks chans,
        part_midi_tracks music f0 programs range = Ok (tracks, chans) ->
        length tracks = length (parts_of music)
        /\ length chans = length (parts_of music)
        /\ Forall2
             (fun part tc =>
                exists pr : option Z,
                  (pr = None \/ exists ps, programs = Some ps /\ In pr ps)
                  /\ midi_track part f0 (snd tc) pr range = Ok (fst tc)
                  /\ Forall (fun c => 1 <= c <= 15 /\ c <> 9) (snd tc))
             (parts_of music) (combine tracks chans))
    /\ (forall n, music = MNote n ->
                  part_midi_tracks music f0 programs range = Raise TypeError)
    /\ (music = MTuple [] ->
        part_midi_tracks music f0 programs range = Ok ([], [])).
Proof.
  intros music f0 programs range. split; [|split].
  - intros tracks chans H.
    unfold part_midi_tracks, Midi.part_midi_tracks in H.
    assert (Hparts : iterate music = Ok (parts_of music) \/ exists n, music = MNote n)
      by (destruct music; [right; eexists|left|left]; reflexivity).
    destruct Hparts as [Hparts|[n ->]]; [|discriminate H].
    rewrite Hparts in H. cbn [bind] in H.
    apply part_loop_tracks in H. destruct H as (new & -> & -> & Hall).
    cbn [app]. rewrite !length_map.
    pose proof (Forall2_length Hall) as Hlen.
    split; [symmetry; exact Hlen|]. split; [symmetry; exact Hlen|].
    assert (Hnew : combine (map fst new) (map snd new) = new).
    { clear. induction new as [|[t c] new IH]; [reflexivity|].
      cbn [map combine fst snd]. rewrite IH. reflexivity. }
    rewrite Hnew. exact Hall.
  - intros n ->. reflexivity.
  - intros ->. reflexivity.
Qed.

End PieceFacts.

End PieceFloats.

(** ** The Scala strategy *)

Section ScalaFacts.

Variable frequency_map : Type.
Variable scala_midi_note : Music -> frequency_map -> py MidiNote.

Let chord_to_scala_midi :=
  ScalaMidi.chord_to_scala_midi frequency_map scala_midi_note.
Let part_scala_midi_tracks :=
  ScalaMidi.part_scala_midi_tracks frequency_map scala_midi_note.

Lemma later_scala_note_offs (t channel : Z) (ms : list MidiNote) :
  forall start : nat,
    (1 <= start)%nat ->
    mapM (ScalaMidi.scala_note_off t channel)
         (combine (seq start (length ms)) ms)
    = Ok (map (fun n => render (NoteOff 0 channel (pitch n))) ms).
Proof.
  induction ms as [|m ms IH]; intros start Hstart; [reflexivity|].
  cbn [length seq combine mapM].
  unfold ScalaMidi.scala_note_off at 1. cbn [fst snd].
  destruct start as [|start]; [lia|]. cbn [Nat.eqb bind].
  rewrite IH by lia. reflexivity.
Qed.

(** X15.  In the Scala strategy a chord is sent on one channel and without
    pitch bends: when the notes of the chord are converted and all last the
    same non-negative number of ticks, [chord_to_scala_midi] returns the
    note-ons of all notes followed by their note-offs, of which only the
    first carries the duration.  Notes of different lengths, or no note at
    all, raise [AssertionError]; a negative duration raises [ValueError]. *)
Theorem chord_to_scala_midi_emission :
  forall (notes : Music) (fm : frequency_map) (channel : Z)
         (midi_notes : list MidiNote),
    mapM (fun n => scala_midi_note n fm) (as_chord notes) = Ok midi_notes ->
    (forall m ms,
        midi_notes = m :: ms ->
        Forall (fun x => ticks x = ticks m) ms ->
        (0 <= ticks m ->
         chord_to_scala_midi notes fm channel
         = Ok (concat
                 (map render
                      (map (fun n => NoteOn channel (pitch n) (velocity n))
                           (m :: ms)
                       ++ NoteOff (ticks m) channel (pitch m)
                       :: map (fun n => NoteOff 0 channel (pitch n)) ms))))
        /\ (ticks m < 0 ->
            chord_to_scala_midi notes fm channel = Raise ValueError))
    /\ (length (nodup Z.eq_dec (map ticks midi_notes)) <> 1%nat ->
        chord_to_scala_midi notes fm channel = Raise AssertionError)
    /\ (midi_notes = [] ->
        chord_to_scala_midi notes fm channel = Raise AssertionError).
Proof.
  intros notes fm channel midi_notes Hmap.
  unfold chord_to_scala_midi, ScalaMidi.chord_to_scala_midi.
  rewrite Hmap. cbn [bind]. split; [|split].
  - intros m ms -> Hticks. cbn [map].
    rewrite nodup_all_equal by (rewrite Forall_map; exact Hticks).
    cbn [length Nat.eqb assert bind hd].
    unfold ScalaMidi.enumerate. cbn [length seq combine mapM].
    unfold ScalaMidi.scala_note_off at 1 3. cbn [fst snd Nat.eqb].
    unfold variable_length_quantity. split.
    + intros Hpos.
      destruct (ticks m <? 0) eqn:E; [apply Z.ltb_lt in E; lia|].
      cbn [bind]. rewrite later_scala_note_offs by lia. cbn [bind].
      rewrite map_app. cbn [map]. rewrite !map_map. reflexivity.
    + intros Hneg. apply Z.ltb_lt in Hneg. rewrite Hneg. reflexivity.
  - intros Hne. unfold assert.
    destruct (length (nodup Z.eq_dec (map ticks midi_notes)) =? 1)%nat eqn:E;
      [apply Nat.eqb_eq in E; contradiction|reflexivity].
  - intros ->. reflexivity.
Qed.

Lemma scala_channel (i : nat) :
  (i < 16)%nat -> ScalaMidi.index ScalaMidi.all_channels i = Ok (Z.of_nat i).
Proof.
  intros Hi. do 16 (destruct i as [|i]; [reflexivity|]). lia.
Qed.

Lemma scala_channel_missing (i : nat) :
  (16 <= i)%nat -> ScalaMidi.index ScalaMidi.all_channels i = Raise IndexError.
Proof.
  intros Hi. unfold ScalaMidi.index.
  destruct (nth_error ScalaMidi.all_channels i) eqn:E; [|reflexivity].
  assert (Hlt : (i < length ScalaMidi.all_channels)%nat)
    by (apply nth_error_Some; rewrite E; discriminate).
  change (length ScalaMidi.all_channels) with 16%nat in Hlt. lia.
Qed.

Lemma scala_part_channels (n : nat) (chans : list (list Z)) :
  mapM (fun i => bind (ScalaMidi.index ScalaMidi.all_channels i)
                      (fun c => Ok [c])) (seq 0 n) = Ok chans ->
  (n <= 16)%nat /\ chans = map (fun i => [Z.of_nat i]) (seq 0 n).
Proof.
  intros H. assert (Hn : (n <= 16)%nat).
  { destruct (Nat.le_gt_cases n 16) as [Hle|Hgt]; [exact Hle|].
    exfalso. eapply raises_not_ok; [|exact H].
    apply (mapM_raises_in _ _ 16%nat); [apply in_seq; lia|].
    exists IndexError. reflexivity. }
  split; [exact Hn|].
  rewrite (mapM_all_ok _ (fun i => [Z.of_nat i])) in H.
  - injection H as <-. reflexivity.
  - apply Forall_forall. intros i Hi. apply in_seq in Hi.
    rewrite scala_channel by lia. reflexivity.
Qed.

(** X16.  The Scala strategy gives part number [i] the single channel [i]:
    when [part_scala_midi_tracks] returns there are at most sixteen parts,
    one track for each, and the channel lists are [[0], [1], ...]; with
    more than sixteen parts the call raises; and a part beyond the
    sixteenth that holds a chord makes it raise [IndexError] before any
    chord of that part is encoded. *)
Theorem part_scala_midi_tracks_one_channel_per_part :
  forall (music : Music) (fm : frequency_map),
    (forall tracks chans,
        part_scala_midi_tracks music fm = Ok (tracks, chans) ->
        (length (parts_of music) <= 16)%nat
        /\ length tracks = length (parts_of music)
        /\ chans = map (fun i => [Z.of_nat i])
                       (seq 0 (length (parts_of music))))
    /\ ((16 < length (parts_of music))%nat ->
        raises (part_scala_midi_tracks music fm))
    /\ (forall (i : nat) (chord : Music) (chords : list Music),
           (16 <= i)%nat ->
           ScalaMidi.scala_part_track frequency_map scala_midi_note fm
             (i, MList (chord :: chords))
           = Raise IndexError).
Proof.
  intros music fm.
  assert (Hok : forall tracks chans,
             part_scala_midi_tracks music fm = Ok (tracks, chans) ->
             (length (parts_of music) <= 16)%nat
             /\ length tracks = length (parts_of music)
             /\ chans = map (fun i => [Z.of_nat i])
                            (seq 0 (length (parts_of music)))).
  { intros tracks chans H.
    unfold part_scala_midi_tracks, ScalaMidi.part_scala_midi_tracks in H.
    assert (Hparts : iterate music = Ok (parts_of music)
                     \/ exists n, music = MNote n)
      by (destruct music; [right; eexists|left|left]; reflexivity).
    destruct Hparts as [Hparts|[n ->]]; [|discriminate H].
    rewrite Hparts in H. cbn [bind] in H.
    match type of H with
    | bind ?c _ = _ => destruct c as [part_tracks|e] eqn:Htracks;
                       cbn [bind] in H; [|discriminate H]
    end.
    match type of H with
    | bind ?c _ = _ => destruct c as [part_channels|e] eqn:Hchans;
                       cbn [bind] in H; [|discriminate H]
    end.
    match type of H with
    | bind ?c _ = _ => destruct c as [with_headers|e] eqn:Hheaders;
                       cbn [bind] in H; [|discriminate H]
    end.
    injection H as E1 E2. subst tracks chans.
    apply scala_part_channels in Hchans. destruct Hchans as [Hn ->].
    split; [exact Hn|]. split; [|reflexivity].
    apply mapM_ok_length in Hheaders. apply mapM_ok_length in Htracks.
    transitivity (length part_tracks); [exact Hheaders|].
    transitivity (length (ScalaMidi.enumerate (parts_of music)));
      [exact Htracks|].
    unfold ScalaMidi.enumerate.
    rewrite length_combine, length_seq. apply Nat.min_id. }
  split; [exact Hok|]. split.
  - intros Hmany.
    destruct (part_scala_midi_tracks music fm) as [[tracks chans]|e] eqn:H;
      [|exists e; reflexivity].
    destruct (Hok tracks chans eq_refl) as [Hle _]. lia.
  - intros i chord chords Hi. unfold ScalaMidi.scala_part_track.
    cbn [snd fst iterate bind mapM].
    rewrite scala_channel_missing by exact Hi. reflexivity.
Qed.

End ScalaFacts.

(** ** The file *)

Lemma bytes_fromhex_append (bytes : list Z) :
  forall (s rest : pystr),
    bytes_fromhex s = Some bytes ->
    bytes_fromhex (s ++ rest)
    = match bytes_fromhex rest with
      | Some bs => Some (bytes ++ bs)
      | None => None
      end
    /\ remove_spaces s = s.
Proof.
  induction bytes as [|b bytes IH]; intros s rest H.
  - destruct s as [|hi [|lo s']]; cbn [bytes_fromhex] in H.
    + split; [|reflexivity]. cbn [app].
      destruct (bytes_fromhex rest); reflexivity.
    + discriminate H.
    + destruct (hex_value hi), (hex_value lo), (bytes_fromhex s');
        discriminate H.
  - destruct s as [|hi [|lo s']]; cbn [bytes_fromhex] in H; try discriminate H.
    destruct (hex_value hi) as [h|] eqn:Hh; [|discriminate H].
    destruct (hex_value lo) as [l|] eqn:Hl; [|discriminate H].
    destruct (bytes_fromhex s') as [bs|] eqn:Hs; [|discriminate H].
    injection H as <- <-. destruct (IH s' rest Hs) as [IH1 IH2].
    split.
    + cbn [app bytes_fromhex]. rewrite Hh, Hl, IH1.
      destruct (bytes_fromhex rest); reflexivity.
    + unfold remove_spaces in *. cbn [filter]. rewrite IH2.
      assert (Hhi : Ascii.eqb hi " " = false).
      { destruct (Ascii.eqb hi " ") eqn:E; [|reflexivity].
        apply Ascii.eqb_eq in E. subst hi. discriminate Hh. }
      assert (Hlo : Ascii.eqb lo " " = false).
      { destruct (Ascii.eqb lo " ") eqn:E; [|reflexivity].
        apply Ascii.eqb_eq in E. subst lo. discriminate Hl. }
      rewrite Hhi, Hlo. reflexivity.
Qed.

Lemma bytes_fromhex_concat (tracks : list pystr) (tracks_bytes : list (list Z)) :
  Forall2 (fun t bs => bytes_fromhex t = Some bs) tracks tracks_bytes ->
  bytes_fromhex (concat tracks) = Some (concat tracks_bytes).
Proof.
  induction 1 as [|t bs ts bss Ht _ IH]; [reflexivity|].
  cbn [concat]. destruct (bytes_fromhex_append bs t (concat ts) Ht) as [-> _].
  rewrite IH. reflexivity.
Qed.

(** X17.  The file [music_to_midi_file] writes starts with the header
    chunk "MThd" of length 6: format 1, the number of tracks (the tempo
    track and one per part) and the division 6720 = 0x1A40 ticks per
    beat; the tracks follow in order.  With fewer than 65535 part tracks,
    each of them a whole number of bytes, [bytes.fromhex] reads the file,
    and removing spaces changes nothing. *)
Theorem midi_file_header_then_tracks :
  forall (tempo : pystr) (part_tracks : list pystr)
         (tempo_bytes : list Z) (tracks_bytes : list (list Z)),
    bytes_fromhex tempo = Some tempo_bytes ->
    Forall2 (fun t bs => bytes_fromhex t = Some bs) part_tracks tracks_bytes ->
    Z.of_nat (length part_tracks) < 65535 ->
    let n_tracks := 1 + Z.of_nat (length part_tracks) in
    midi_bytes tempo part_tracks
    = Some ([77; 84; 104; 100; 0; 0; 0; 6; 0; 1;
             n_tracks / 256; n_tracks mod 256;
             DIVISION / 256; DIVISION mod 256]
              ++ tempo_bytes ++ concat tracks_bytes)
    /\ DIVISION / 256 < 128.
Proof.
  intros tempo part_tracks tempo_bytes tracks_bytes Htempo Htracks Hn n_tracks.
  split; [|reflexivity].
  assert (Hcount : Z.of_nat (length (tempo :: part_tracks)) = n_tracks).
  { subst n_tracks. cbn [length]. lia. }
  assert (Hrange : 0 <= n_tracks < 65536) by (subst n_tracks; lia).
  assert (Hq : 0 <= n_tracks / 256 < 256).
  { split; [apply Z.div_pos; lia|apply Z.div_lt_upper_bound; lia]. }
  pose proof (Z.mod_pos_bound n_tracks 256 ltac:(lia)) as Hm.
  assert (Hheader :
    bytes_fromhex (file_header (tempo :: part_tracks))
    = Some [77; 84; 104; 100; 0; 0; 0; 6; 0; 1;
            n_tracks / 256; n_tracks mod 256;
            DIVISION / 256; DIVISION mod 256]).
  { unfold file_header. rewrite Hcount.
    rewrite (Z.div_mod n_tracks 256) at 1 by lia.
    rewrite (format_0X_byte 2) by lia.
    change (str "4d546864" ++ str "00000006" ++ str "0001"
              ++ (format_0X 2 (n_tracks / 256)
                    ++ format_0X 2 (n_tracks mod 256))
              ++ format_0X 4 DIVISION)
      with ("4"%char :: "d"%char :: "5"%char :: "4"%char :: "6"%char
            :: "8"%char :: "6"%char :: "4"%char
            :: concat (map (format_0X 2) [0; 0; 0; 6; 0; 1])
            ++ (format_0X 2 (n_tracks / 256)
                  ++ format_0X 2 (n_tracks mod 256))
            ++ format_0X 4 DIVISION).
    cbn [bytes_fromhex hex_value].
    change (format_0X 4 DIVISION)
      with (concat (map (format_0X 2) [DIVISION / 256; DIVISION mod 256])).
    replace (concat (map (format_0X 2) [0; 0; 0; 6; 0; 1])
               ++ (format_0X 2 (n_tracks / 256)
                     ++ format_0X 2 (n_tracks mod 256))
               ++ concat (map (format_0X 2)
                              [DIVISION / 256; DIVISION mod 256]))
      with (concat (map (format_0X 2)
                        ([0; 0; 0; 6; 0; 1]
                           ++ [n_tracks / 256; n_tracks mod 256]
                           ++ [DIVISION / 256; DIVISION mod 256])))
      by (rewrite !map_app, !concat_app; cbn [map concat];
          rewrite !app_nil_r; reflexivity).
    rewrite bytes_fromhex_bytes; [reflexivity|].
    repeat (constructor;
            [first [lia|vm_compute; split; [discriminate|reflexivity]]|]).
    constructor. }
  assert (Hall : bytes_fromhex (concat (tempo :: part_tracks))
                 = Some (tempo_bytes ++ concat tracks_bytes)).
  { apply (bytes_fromhex_concat (tempo :: part_tracks)
             (tempo_bytes :: tracks_bytes)).
    constructor; assumption. }
  unfold midi_bytes. cbv zeta.
  destruct (bytes_fromhex_append _ _ (concat (tempo :: part_tracks)) Hheader)
    as [Happ _].
  rewrite Hall in Happ.
  assert (Hwhole : bytes_fromhex (file_header (tempo :: part_tracks)
                                    ++ concat (tempo :: part_tracks))
                   = Some ([77; 84; 104; 100; 0; 0; 0; 6; 0; 1;
                            n_tracks / 256; n_tracks mod 256;
                            DIVISION / 256; DIVISION mod 256]
                             ++ tempo_bytes ++ concat tracks_bytes))
    by exact Happ.
  destruct (bytes_fromhex_append _ _ [] Hwhole) as [_ Hspaces].
  rewrite Hspaces. exact Hwhole.
Qed.

(** ** Lowest and sorted frequencies *)

Section OrderFloats.
Context {fl : Floats}.

Section OrderFacts.

Variable num_eqb : Number -> Number -> bool.
Variable num_ltb : Number -> Number -> bool.

Hypothesis ltb_asym :
  forall a b, num_ltb a b = true -> num_ltb b a = false.
Hypothesis ltb_negtrans :
  forall a b c, num_ltb a b = false -> num_ltb b c = false ->
                num_ltb a c = false.

Lemma ltb_irrefl (a : Number) : num_ltb a a = false.
Proof.
  destruct (num_ltb a a) eqn:E; [|reflexivity].
  rewrite (ltb_asym a a E) in E. discriminate E.
Qed.

Lemma min_number_lower (xs : list Number) :
  forall x : Number,
    num_ltb x (min_number num_ltb x xs) = false
    /\ Forall (fun y => num_ltb y (min_number num_ltb x xs) = false) xs.
Proof.
  unfold min_number.
  induction xs as [|y ys IH]; intros x; cbn [fold_left].
  - split; [apply ltb_irrefl|constructor].
  - destruct (num_ltb y x) eqn:E.
    + destruct (IH y) as [Hy Hall]. split.
      * eapply ltb_negtrans; [apply ltb_asym; exact E|exact Hy].
      * constructor; assumption.
    + destruct (IH x) as [Hx Hall]. split; [exact Hx|].
      constructor; [|exact Hall].
      eapply ltb_negtrans; [exact E|exact Hx].
Qed.

Lemma mapM_ok_forward {A B : Type} (f : A -> py B) (xs : list A)
      (ys : list B) (x : A) :
  mapM f xs = Ok ys -> In x xs -> exists y, In y ys /\ f x = Ok y.
Proof.
  intros H Hin. apply mapM_ok_Forall2 in H.
  induction H as [|x' y xs ys Hxy _ IH]; [destruct Hin|].
  destruct Hin as [->|Hin].
  - exists y. split; [left; reflexivity|exact Hxy].
  - destruct (IH Hin) as (y' & Hy' & Hf). exists y'.
    split; [right; exact Hy'|exact Hf].
Qed.

Lemma lowest_children (xs : list Music) (x : Number) :
  Forall (fun m =>
            forall x, lowest num_ltb m = Ok x ->
              (x = NInf
               \/ exists n, In n (notes_of m)
                            /\ evaluate (frequency n) = Ok x
                            /\ is_zero x = false)
              /\ (forall n f, In n (notes_of m) ->
                              evaluate (frequency n) = Ok f ->
                              is_zero f = false -> num_ltb f x = false)) xs ->
  match xs with
  | [] => Ok NInf
  | _ => bind (mapM (lowest num_ltb) xs) (min_of num_ltb)
  end = Ok x ->
  (x = NInf
   \/ exists n, In n (flat_map notes_of xs)
                /\ evaluate (frequency n) = Ok x /\ is_zero x = false)
  /\ (forall n f, In n (flat_map notes_of xs) ->
                  evaluate (frequency n) = Ok f ->
                  is_zero f = false -> num_ltb f x = false).
Proof.
  intros IH H. destruct xs as [|m0 ms].
  - injection H as <-. split; [left; reflexivity|]. intros n f [].
  - remember (m0 :: ms) as xs eqn:Exs. clear Exs.
    destruct (mapM (lowest num_ltb) xs) as [ls|e] eqn:Hls; cbn [bind] in H;
      [|discriminate H].
    destruct ls as [|l0 ls']; [discriminate H|]. cbn [min_of] in H.
    injection H as <-.
    destruct (min_number_lower ls' l0) as [Hl0 Hls'].
    rewrite Forall_forall in IH. split.
    + assert (Hin : In (min_number num_ltb l0 ls') (l0 :: ls')).
      { destruct (min_number_member num_ltb ls' l0) as [->|Hin];
          [left; reflexivity|right; exact Hin]. }
      destruct (mapM_ok_in _ _ _ _ Hls Hin) as (m & Hm & Hlow).
      destruct (IH m Hm _ Hlow) as [[->|(n & Hn & Hf & Hz)] _];
        [left; reflexivity|right].
      exists n. split; [|split; assumption].
      apply in_flat_map. exists m. split; assumption.
    + intros n f Hn Hf Hz. apply in_flat_map in Hn.
      destruct Hn as (m & Hm & Hn).
      destruct (mapM_ok_forward _ _ _ _ Hls Hm) as (lm & Hlm & Hlow).
      destruct (IH m Hm _ Hlow) as [_ Hbound].
      eapply ltb_negtrans; [apply (Hbound n f Hn Hf Hz)|].
      destruct Hlm as [<-|Hlm]; [exact Hl0|].
      rewrite Forall_forall in Hls'. apply Hls'. exact Hlm.
Qed.

Lemma lowest_least (music : Music) :
  forall x, lowest num_ltb music = Ok x ->
    (x = NInf
     \/ exists n, In n (notes_of music)
                  /\ evaluate (frequency n) = Ok x /\ is_zero x = false)
    /\ (forall n f, In n (notes_of music) ->
                    evaluate (frequency n) = Ok f ->
                    is_zero f = false -> num_ltb f x = false).
Proof.
  induction music as [n|xs IH|xs IH] using Music_nested_ind; intros x H.
  - cbn [lowest] in H.
    destruct (evaluate (frequency n)) as [f|e] eqn:Hf; cbn [bind] in H;
      [|discriminate H].
    destruct (is_zero f) eqn:Hz; injection H as <-.
    + split; [left; reflexivity|].
      intros n' f' [<-|[]] Hf' Hz'. rewrite Hf in Hf'.
      injection Hf' as <-. rewrite Hz in Hz'. discriminate Hz'.
    + split.
      * right. exists n. split; [left; reflexivity|]. split; assumption.
      * intros n' f' [<-|[]] Hf' _. rewrite Hf in Hf'. injection Hf' as <-.
        apply ltb_irrefl.
  - cbn [notes_of]. apply lowest_children; [exact IH|exact H].
  - cbn [notes_of]. apply lowest_children; [exact IH|exact H].
Qed.

Lemma insert_sorted_Sorted (x : Number) (l : list Number) :
  Sorted (fun a b => num_ltb b a = false) l ->
  Sorted (fun a b => num_ltb b a = false) (insert_sorted num_ltb x l).
Proof.
  induction 1 as [|y l Hl IH Hhd]; cbn [insert_sorted].
  - constructor; constructor.
  - destruct (num_ltb x y) eqn:E.
    + constructor; [constructor; assumption|].
      constructor. apply ltb_asym. exact E.
    + constructor; [exact IH|].
      destruct l as [|z l']; cbn [insert_sorted].
      * constructor. exact E.
      * destruct (num_ltb x z); constructor; [exact E|].
        inversion Hhd; assumption.
Qed.

Lemma insert_sorted_Permutation (x : Number) (l : list Number) :
  Permutation (insert_sorted num_ltb x l) (x :: l).
Proof.
  induction l as [|y l IH]; cbn [insert_sorted]; [reflexivity|].
  destruct (num_ltb x y); [reflexivity|].
  rewrite IH. apply perm_swap.
Qed.

Lemma sorted_from (xs : list Number) :
  forall acc : list Number,
    Sorted (fun a b => num_ltb b a = false) acc ->
    Sorted (fun a b => num_ltb b a = false)
           (fold_left (fun a x => insert_sorted num_ltb x a) xs acc)
    /\ Permutation (fold_left (fun a x => insert_sorted num_ltb x a) xs acc)
                   (acc ++ xs).
Proof.
  induction xs as [|x xs IH]; intros acc Hacc; cbn [fold_left].
  - rewrite app_nil_r. split; [exact Hacc|reflexivity].
  - destruct (IH _ (insert_sorted_Sorted x acc Hacc)) as [Hs Hp].
    split; [exact Hs|]. rewrite Hp, insert_sorted_Permutation.
    cbn [app]. apply Permutation_middle.
Qed.

Lemma set_add_distinct (s : list Number) (x : Number) :
  ForallOrdPairs (fun a b => num_eqb b a = false) s ->
  ForallOrdPairs (fun a b => num_eqb b a = false) (set_add num_eqb s x).
Proof.
  intros Hs. unfold set_add.
  destruct (existsb (num_eqb x) s) eqn:E; [exact Hs|].
  assert (Hx : Forall (fun a => num_eqb x a = false) s).
  { apply Forall_forall. intros a Ha.
    destruct (num_eqb x a) eqn:Ea; [|reflexivity].
    assert (Hex : existsb (num_eqb x) s = true)
      by (apply existsb_exists; exists a; split; assumption).
    rewrite Hex in E. discriminate E. }
  clear E. induction Hs as [|a l Ha Hl IH].
  - constructor; [constructor|constructor].
  - inversion Hx as [|? ? Hxa Hxl]; subst. cbn [app]. constructor.
    + apply Forall_app. split; [exact Ha|].
      constructor; [exact Hxa|constructor].
    + apply IH. exact Hxl.
Qed.

Lemma set_of_distinct (xs : list Number) :
  ForallOrdPairs (fun a b => num_eqb b a = false) (set_of num_eqb xs).
Proof.
  unfold set_of.
  assert (H : forall s, ForallOrdPairs (fun a b => num_eqb b a = false) s ->
                        ForallOrdPairs (fun a b => num_eqb b a = false)
                          (fold_left (set_add num_eqb) xs s)).
  { induction xs as [|x xs IH]; intros s Hs; cbn [fold_left]; [exact Hs|].
    apply IH. apply set_add_distinct. exact Hs. }
  apply H. constructor.
Qed.

Lemma frequencies_set_distinct (music : Music) (s : list Number) :
  frequencies_set num_eqb music = Ok s ->
  ForallOrdPairs (fun a b => num_eqb b a = false) s.
Proof.
  destruct music as [n|xs|xs]; cbn [frequencies_set]; intros H.
  - destruct (evaluate (frequency n)) as [f|e]; cbn [bind] in H;
      [|discriminate H].
    injection H as <-. destruct (is_zero f); repeat constructor.
  - destruct (mapM (frequencies_set num_eqb) xs) as [sets|e];
      cbn [bind] in H; [|discriminate H].
    injection H as <-. apply set_of_distinct.
  - destruct (mapM (frequencies_set num_eqb) xs) as [sets|e];
      cbn [bind] in H; [|discriminate H].
    injection H as <-. apply set_of_distinct.
Qed.

Lemma frequencies_set_sounding (music : Music) :
  forall s, frequencies_set num_eqb music = Ok s ->
    Forall (fun z => exists n, In n (notes_of music)
                               /\ evaluate (frequency n) = Ok z
                               /\ is_zero z = false) s.
Proof.
  induction music as [n|xs IH|xs IH] using Music_nested_ind; intros s H;
    cbn [frequencies_set] in H.
  - destruct (evaluate (frequency n)) as [f|e] eqn:Hf; cbn [bind] in H;
      [|discriminate H].
    injection H as <-. destruct (is_zero f) eqn:Hz; [constructor|].
    constructor; [|constructor]. exists n.
    split; [left; reflexivity|split; assumption].
  - destruct (mapM (frequencies_set num_eqb) xs) as [sets|e] eqn:Hsets;
      cbn [bind] in H; [|discriminate H].
    injection H as <-. apply Forall_forall. intros z Hz.
    apply set_of_subset in Hz. apply in_concat in Hz.
    destruct Hz as (set & Hset & Hz).
    destruct (mapM_ok_in _ _ _ _ Hsets Hset) as (m & Hm & Hfs).
    rewrite Forall_forall in IH. pose proof (IH m Hm _ Hfs) as Hall.
    rewrite Forall_forall in Hall.
    destruct (Hall z Hz) as (n & Hn & Hrest). exists n.
    split; [|exact Hrest]. cbn [notes_of]. apply in_flat_map.
    exists m. split; assumption.
  - destruct (mapM (frequencies_set num_eqb) xs) as [sets|e] eqn:Hsets;
      cbn [bind] in H; [|discriminate H].
    injection H as <-. apply Forall_forall. intros z Hz.
    apply set_of_subset in Hz. apply in_concat in Hz.
    destruct Hz as (set & Hset & Hz).
    destruct (mapM_ok_in _ _ _ _ Hsets Hset) as (m & Hm & Hfs).
    rewrite Forall_forall in IH. pose proof (IH m Hm _ Hfs) as Hall.
    rewrite Forall_forall in Hall.
    destruct (Hall z Hz) as (n & Hn & Hrest). exists n.
    split; [|exact Hrest]. cbn [notes_of]. apply in_flat_map.
    exists m. split; assumption.
Qed.

End OrderFacts.

(** X18.  With a [<] that is asymmetric and whose negation is transitive
    (as it is between fractions and floats other than NaN), when
    [lowest(music)] returns, it returns +infinity or the frequency of a
    sounding note of the music, and no sounding note of the music has a
    frequency below it. *)
Theorem lowest_is_least_sounding_frequency :
  forall (num_ltb : Number -> Number -> bool) (music : Music) (x : Number),
    (forall a b, num_ltb a b = true -> num_ltb b a = false) ->
    (forall a b c, num_ltb a b = false -> num_ltb b c = false ->
                   num_ltb a c = false) ->
    lowest num_ltb music = Ok x ->
    (x = NInf
     \/ exists n, In n (notes_of music)
                  /\ evaluate (frequency n) = Ok x /\ is_zero x = false)
    /\ (forall n f, In n (notes_of music) ->
                    evaluate (frequency n) = Ok f ->
                    is_zero f = false -> num_ltb f x = false).
Proof.
  intros num_ltb music x Hasym Htrans H.
  apply (lowest_least num_ltb Hasym Htrans music x H).
Qed.

(** X19.  When [all_frequencies(music)] returns, the list is a
    rearrangement of the set [frequencies_set(music)]; no two members of
    the set are [==]; every member is the frequency of a sounding note of
    the music; and, with a [<] that is asymmetric and whose negation is
    transitive, the list is in ascending order: no member is below one
    that comes before it. *)
Theorem all_frequencies_sorted_set :
  forall (num_eqb num_ltb : Number -> Number -> bool) (music : Music)
         (l : list Number),
    (forall a b, num_ltb a b = true -> num_ltb b a = false) ->
    (forall a b c, num_ltb a b = false -> num_ltb b c = false ->
                   num_ltb a c = false) ->
    all_frequencies num_eqb num_ltb music = Ok l ->
    exists s : list Number,
      frequencies_set num_eqb music = Ok s
      /\ Permutation l s
      /\ ForallOrdPairs (fun a b => num_eqb b a = false) s
      /\ Forall (fun z => exists n, In n (notes_of music)
                                    /\ evaluate (frequency n) = Ok z
                                    /\ is_zero z = false) l
      /\ StronglySorted (fun a b => num_ltb b a = false) l.
Proof.
  intros num_eqb num_ltb music l Hasym Htrans H.
  unfold all_frequencies in H.
  destruct (frequencies_set num_eqb music) as [s|e] eqn:Hs; cbn [bind] in H;
    [|discriminate H].
  injection H as <-. exists s. split; [reflexivity|].
  destruct (sorted_from num_ltb Hasym s [] (Sorted_nil _)) as [Hsorted Hperm].
  cbn [app] in Hperm. fold (sorted num_ltb s) in Hsorted, Hperm.
  split; [exact Hperm|]. split; [eapply frequencies_set_distinct; exact Hs|].
  split.
  - apply Forall_forall. intros z Hz.
    pose proof (frequencies_set_sounding num_eqb music s Hs) as Hall.
    rewrite Forall_forall in Hall. apply Hall.
    eapply Permutation_in; [exact Hperm|exact Hz].
  - apply Sorted_StronglySorted; [|exact Hsorted].
    intros a b c Hab Hbc. eapply Htrans; eassumption.
Qed.

End OrderFloats.

(** ** More on durations in the notation backend *)

Section NotationFacts.
Context {fl : Floats}.

Lemma pow2_odd_unique (j k o o' : Z) :
  0 <= j -> 0 <= k -> Z.odd o = true -> Z.odd o' = true ->
  2 ^ j * o = 2 ^ k * o' -> j = k /\ o = o'.
Proof.
  assert (Hlt : forall j k o o',
             0 <= j -> j < k -> Z.odd o = true ->
             2 ^ j * o = 2 ^ k * o' -> False).
  { clear. intros j k o o' Hj Hjk Ho H.
    replace k with (j + Z.succ (k - j - 1)) in H by lia.
    rewrite Z.pow_add_r, Z.pow_succ_r, <- !Z.mul_assoc in H by lia.
    apply Z.mul_cancel_l in H;
      [|pose proof (Z.pow_pos_nonneg 2 j ltac:(lia) Hj); lia].
    rewrite H, Z.odd_mul in Ho. discriminate Ho. }
  intros Hj Hk Ho Ho' H.
  destruct (Z.lt_trichotomy j k) as [Hjk|[->|Hkj]].
  - exfalso. exact (Hlt j k o o' Hj Hjk Ho H).
  - split; [reflexivity|].
    apply Z.mul_cancel_l in H;
      [exact H|pose proof (Z.pow_pos_nonneg 2 k ltac:(lia) Hk); lia].
  - exfalso. exact (Hlt k j o' o Hk Hkj Ho' (eq_sym H)).
Qed.

(** X20.  [_factorize] splits a positive number into the largest power of
    two that divides it and the odd factor that is left: for every odd
    [o > 0] and every [j >= 0] it returns [(2 ** j, o)] on [2 ** j * o].
    On a number that is not positive the assertion fails. *)
Theorem _factorize_splits_off_twos :
  (forall j o : Z,
      0 <= j -> 0 < o -> Z.odd o = true ->
      _factorize (2 ^ j * o) = Ok (2 ^ j, o))
  /\ (forall n : Z,
         0 < n ->
         exists p o, _factorize n = Ok (p, o)
                     /\ n = p * o /\ Z.odd o = true
                     /\ (forall q, 0 <= q -> (2 ^ q | n) -> (2 ^ q | p)))
  /\ (forall n : Z, n <= 0 -> _factorize n = Raise AssertionError).
Proof.
  split; [|split].
  - intros j o Hj Ho Hodd.
    pose proof (Z.pow_pos_nonneg 2 j ltac:(lia) Hj) as Hpow.
    destruct (_factorize_spec (2 ^ j * o) ltac:(nia))
      as (k & o' & Hf & Hk & Hsplit & Hodd' & Ho').
    destruct (pow2_odd_unique j k o o' Hj Hk Hodd Hodd' Hsplit) as [-> ->].
    exact Hf.
  - intros n Hn.
    destruct (_factorize_spec n Hn) as (k & o & Hf & Hk & Hsplit & Hodd & Ho).
    exists (2 ^ k), o. split; [exact Hf|]. split; [exact Hsplit|].
    split; [exact Hodd|]. intros q Hq Hdiv.
    destruct (Z.le_gt_cases q k) as [Hle|Hgt].
    + exists (2 ^ (k - q)). rewrite <- Z.pow_add_r by lia. f_equal. lia.
    + exfalso. destruct Hdiv as [c Hc].
      assert (Hodd' : Z.odd o = false).
      { assert (E : o = 2 * (2 ^ (q - k - 1) * c)).
        { rewrite Hsplit in Hc.
          replace q with (k + Z.succ (q - k - 1)) in Hc at 1 by lia.
          rewrite Z.pow_add_r, Z.pow_succ_r in Hc by lia.
          pose proof (Z.pow_pos_nonneg 2 k ltac:(lia) Hk) as Hpow.
          apply (Z.mul_cancel_l _ _ (2 ^ k)); [lia|].
          rewrite Hc. ring. }
        rewrite E, Z.odd_mul. reflexivity. }
      rewrite Hodd' in Hodd. discriminate Hodd.
  - intros n Hn. unfold _factorize, assert.
    destruct (0 <? n) eqn:E; [apply Z.ltb_lt in E; lia|reflexivity].
Qed.

Lemma weighted_sum_thirty_seconds (coeffs : list (Fraction * Z)) :
  map fst coeffs = DURATIONS ->
  exists m : Z, (weighted_sum coeffs == inject_Z m / 32)%Q.
Proof.
  unfold DURATIONS. intros H.
  destruct coeffs as [|[k1 c1] coeffs]; [discriminate H|].
  destruct coeffs as [|[k2 c2] coeffs]; [discriminate H|].
  destruct coeffs as [|[k3 c3] coeffs]; [discriminate H|].
  destruct coeffs as [|[k4 c4] coeffs]; [discriminate H|].
  destruct coeffs as [|[k5 c5] coeffs]; [discriminate H|].
  destruct coeffs as [|[k6 c6] coeffs]; [discriminate H|].
  destruct coeffs as [|[k7 c7] coeffs]; [discriminate H|].
  destruct coeffs as [|[k8 c8] coeffs]; [discriminate H|].
  destruct coeffs as [|kc coeffs]; [|discriminate H].
  cbn [map fst] in H.
  injection H as -> -> -> -> -> -> -> ->.
  exists (128 * c1 + 64 * c2 + 32 * c3 + 16 * c4 + 8 * c5 + 4 * c6
          + 2 * c7 + c8).
  cbn [weighted_sum fold_right fst snd].
  rewrite !inject_Z_plus, !inject_Z_mult. field.
Qed.

Lemma no_rest_iff_thirty_seconds (r : Q) :
  (0 <= r)%Q ->
  ((snd (decompose DURATIONS r) == 0)%Q <->
   exists m : Z, (r == inject_Z m / 32)%Q).
Proof.
  intros Hr.
  destruct (decompose_spec DURATIONS DURATIONS_positive r Hr)
    as (Hkeys & _ & Hsum & [Hrest0 _] & Hbelow).
  destruct (weighted_sum_thirty_seconds _ Hkeys) as [m' Hm'].
  assert (Hlt : (snd (decompose DURATIONS r) < 1 # 32)%Q).
  { rewrite Forall_forall in Hbelow. apply Hbelow.
    unfold DURATIONS. do 7 right. left. reflexivity. }
  split.
  - intros Hzero. exists m'. rewrite <- Hm', Hsum at 1.
    rewrite Hzero. ring.
  - intros [m Hm].
    set (rest := snd (decompose DURATIONS r)) in *.
    assert (Hrest : (rest == inject_Z (m - m') / 32)%Q).
    { unfold Zminus. rewrite inject_Z_plus, inject_Z_opp.
      assert (E : (rest == r - weighted_sum (fst (decompose DURATIONS r)))%Q).
      { apply (Qplus_inj_l _ _ (weighted_sum (fst (decompose DURATIONS r)))).
        setoid_replace
          (weighted_sum (fst (decompose DURATIONS r))
           + (r - weighted_sum (fst (decompose DURATIONS r))))%Q
          with r by ring.
        symmetry. exact Hsum. }
      rewrite E, Hm', Hm. field. }
    assert (H0 : 0 <= m - m').
    { rewrite Hrest in Hrest0.
      apply (Qmult_le_r _ _ 32) in Hrest0; [|reflexivity].
      rewrite Qmult_0_l in Hrest0.
      setoid_replace (inject_Z (m - m') / 32 * 32)%Q
        with (inject_Z (m - m')) in Hrest0 by field.
      change 0%Q with (inject_Z 0) in Hrest0.
      rewrite <- Zle_Qle in Hrest0. exact Hrest0. }
    assert (H1 : m - m' < 1).
    { rewrite Hrest in Hlt.
      apply (Qmult_lt_r _ _ 32) in Hlt; [|reflexivity].
      setoid_replace (inject_Z (m - m') / 32 * 32)%Q
        with (inject_Z (m - m')) in Hlt by field.
      setoid_replace ((1 # 32) * 32)%Q with (inject_Z 1) in Hlt
        by reflexivity.
      rewrite <- Zlt_Qlt in Hlt. exact Hlt. }
    rewrite Hrest. replace (m - m') with 0 by lia. reflexivity.
Qed.

Lemma thirty_seconds_iff_divides (n b : Z) :
  0 < b ->
  ((exists m : Z, (Fraction_of n b == inject_Z m / 32)%Q) <-> (b | 32 * n)).
Proof.
  intros Hb. unfold Fraction_of.
  assert (Hb' : ~ (inject_Z b == 0)%Q)
    by (change 0%Q with (inject_Z 0); rewrite inject_Z_injective; lia).
  split.
  - intros [m Hm]. exists m. rewrite Qred_correct in Hm.
    assert (E : (inject_Z (32 * n) == inject_Z (m * b))%Q).
    { rewrite !inject_Z_mult.
      setoid_replace (inject_Z n) with (inject_Z n / inject_Z b * inject_Z b)%Q
        by (field; exact Hb').
      rewrite Hm. change (inject_Z 32) with 32%Q. field. }
    rewrite inject_Z_injective in E. exact E.
  - intros [m Hm]. exists m. rewrite Qred_correct.
    assert (E : (inject_Z (32 * n) == inject_Z (m * b))%Q)
      by (rewrite Hm; reflexivity).
    rewrite !inject_Z_mult in E. change (inject_Z 32) with 32%Q in E.
    setoid_replace (inject_Z m) with (32 * inject_Z n / inject_Z b)%Q
      by (rewrite E; field; exact Hb').
    field. exact Hb'.
Qed.

Lemma assert_held_in_bind {A : Type} (b : bool) (k : unit -> py A) (a : A) :
  bind (assert b) k = Ok a -> b = true.
Proof. destruct b; [reflexivity|discriminate]. Qed.

(** X21.  Which durations [lilypond_duration] can write.  A duration that
    is not positive fails the first assertion.  For a positive duration
    whose denominator is [P * O] with [P] the power of two and [O] odd, and
    [R] the rescale [2 ** floor(log2(O))] as the floats give it, the call
    returns exactly when [P * R] divides 32 times the numerator, and
    raises [AssertionError] otherwise. *)
Theorem lilypond_duration_representable :
  forall note : Note,
    ((evaluate_quantity (duration note) <= 0)%Q ->
     lilypond_duration note = Raise AssertionError)
    /\ ((0 < evaluate_quantity (duration note))%Q ->
        exists P O : Z,
          _factorize (denominator (evaluate_quantity (duration note)))
          = Ok (P, O)
          /\ ((P * rescale_of O
               | 32 * numerator (evaluate_quantity (duration note))) <->
              exists s, lilypond_duration note = Ok s)
          /\ (~ (P * rescale_of O
                 | 32 * numerator (evaluate_quantity (duration note))) ->
              lilypond_duration note = Raise AssertionError)).
Proof.
  intros note. set (d := evaluate_quantity (duration note)). split.
  - intros Hd. unfold lilypond_duration. fold d.
    apply Qle_bool_iff in Hd. rewrite Hd. reflexivity.
  - intros Hd.
    assert (Hden : 0 < denominator d) by (unfold denominator; lia).
    destruct (_factorize_spec (denominator d) Hden)
      as (k & O & Hfact & Hk & Hsplit & Hodd & HO).
    exists (2 ^ k), O. split; [exact Hfact|].
    pose proof (rescale_pos O) as HRpos.
    assert (HP : 0 < 2 ^ k) by (apply Z.pow_pos_nonneg; lia).
    pose proof (residual_value d (2 ^ k) O (rescale_of O)
                  HP HO HRpos Hsplit) as Hres.
    set (residual := Fraction_of (numerator d) (2 ^ k * rescale_of O)) in *.
    assert (Hrespos : (0 < residual)%Q).
    { rewrite Hres. apply Qlt_shift_div_l.
      - change 0%Q with (inject_Z 0). rewrite <- Zlt_Qlt. exact HRpos.
      - rewrite Qmult_0_l. apply Qmult_lt_0_compat; [exact Hd|].
        change 0%Q with (inject_Z 0). rewrite <- Zlt_Qlt. exact HO. }
    destruct (decompose_spec DURATIONS DURATIONS_positive residual
                (Qlt_le_weak _ _ Hrespos))
      as (Hkeys & Hnonneg & Hsum & _ & _).
    assert (Hunfold :
      lilypond_duration note
      = bind (assert (Qeq_bool (snd (decompose DURATIONS residual)) 0))
          (fun _ =>
             bind (tie (symbols (fst (decompose DURATIONS residual))))
               (fun base => Ok (tuplet O (rescale_of O) base)))).
    { unfold lilypond_duration. fold d.
      destruct (Qle_bool d 0) eqn:E.
      - apply Qle_bool_imp_le in E. exfalso. apply (Qlt_not_le _ _ Hd E).
      - cbn [negb assert bind]. rewrite Hfact. cbn [bind fst snd].
        fold residual. unfold encode_residual.
        destruct (decompose DURATIONS residual) as [coeffs rest].
        reflexivity. }
    assert (Hiff : (2 ^ k * rescale_of O | 32 * numerator d) <->
                   (snd (decompose DURATIONS residual) == 0)%Q).
    { rewrite no_rest_iff_thirty_seconds by (apply Qlt_le_weak; exact Hrespos).
      symmetry. apply thirty_seconds_iff_divides. nia. }
    split; [split|].
    + intros Hdiv. apply Hiff in Hdiv.
      assert (Hparts : symbols (fst (decompose DURATIONS residual)) <> []).
      { intros Hnil. pose proof (symbols_length _ Hnonneg) as Hlen.
        rewrite Hnil in Hlen. cbn [length] in Hlen.
        pose proof (weighted_sum_all_zero _ Hnonneg (eq_sym Hlen)) as Hw.
        rewrite Hsum, Hw, Hdiv in Hrespos. discriminate Hrespos. }
      destruct (tie_ok _ Hparts) as [base Hbase].
      exists (tuplet O (rescale_of O) base).
      rewrite Hunfold, (Qeq_eq_bool _ _ Hdiv), Hbase. reflexivity.
    + intros [s Hs]. apply Hiff. rewrite Hunfold in Hs.
      apply Qeq_bool_eq. eapply assert_held_in_bind. exact Hs.
    + intros Hndiv. rewrite Hunfold. unfold assert.
      destruct (Qeq_bool (snd (decompose DURATIONS residual)) 0) eqn:E;
        [|reflexivity].
      exfalso. apply Hndiv, Hiff. apply Qeq_bool_eq. exact E.
Qed.

End NotationFacts.

(** ** The ratios written next to a chord *)

Lemma set_of_fractions_grows (x : list Fraction) :
  forall s : list Fraction,
    (length s <= length (fold_left add_fraction x s))%nat.
Proof.
  induction x as [|a x IH]; intros s; cbn [fold_left]; [apply Nat.le_refl|].
  eapply Nat.le_trans; [|apply IH]. unfold add_fraction.
  destruct (existsb (Qeq_bool a) s); [apply Nat.le_refl|].
  rewrite length_app. apply Nat.le_add_r.
Qed.

Lemma single_valued (x : list Fraction) :
  (length (set_of_fractions x) =? 1)%nat
  = match x with
    | [] => false
    | a :: r => forallb (fun b => Qeq_bool b a) r
    end.
Proof.
  destruct x as [|a r]; [reflexivity|].
  unfold set_of_fractions. cbn [fold_left].
  change (add_fraction [] a) with [a].
  induction r as [|b r IH]; [reflexivity|].
  cbn [fold_left forallb]. unfold add_fraction at 2. cbn [existsb].
  rewrite orb_false_r.
  destruct (Qeq_bool b a); [exact IH|]. cbn [andb app].
  pose proof (set_of_fractions_grows r [a; b]) as Hlen.
  apply Nat.eqb_neq. intros E. rewrite E in Hlen. cbn [length] in Hlen.
  apply (Nat.nle_succ_diag_l 1). exact Hlen.
Qed.

Lemma index_false_spec (shared : list bool) :
  match index_false shared with
  | Some count =>
      (count < length shared)%nat
      /\ nth count shared true = false
      /\ forall i, (i < count)%nat -> nth i shared false = true
  | None => forall i, (i < length shared)%nat -> nth i shared false = true
  end.
Proof.
  induction shared as [|b rest IH]; cbn [index_false].
  - intros i Hi. cbn [length] in Hi. lia.
  - destruct b.
    + destruct (index_false rest) as [count|]; cbn [option_map].
      * destruct IH as (Hlt & Hfalse & Hbefore). cbn [length nth].
        split; [lia|]. split; [exact Hfalse|].
        intros [|i] Hi; [reflexivity|]. apply Hbefore. lia.
      * intros [|i] Hi; [reflexivity|]. cbn [length] in Hi. cbn [nth].
        apply IH. lia.
    + cbn [length nth]. split; [lia|]. split; [reflexivity|].
      intros i Hi. lia.
Qed.

Lemma fold_min_lower (l : list nat) :
  forall a : nat,
    (fold_left Nat.min l a <= a)%nat
    /\ Forall (fun x => (fold_left Nat.min l a <= x)%nat) l.
Proof.
  induction l as [|x l IH]; intros a; cbn [fold_left].
  - split; [lia|constructor].
  - destruct (IH (Nat.min a x)) as [H1 H2]. split; [lia|].
    constructor; [lia|exact H2].
Qed.

Lemma fold_min_attained (l : list nat) :
  forall a : nat, fold_left Nat.min l a = a \/ In (fold_left Nat.min l a) l.
Proof.
  induction l as [|x l IH]; intros a; cbn [fold_left]; [left; reflexivity|].
  destruct (IH (Nat.min a x)) as [H|H]; [|right; right; exact H].
  rewrite H. destruct (Nat.min_spec a x) as [[_ ->]|[_ ->]];
    [left; reflexivity|right; left; reflexivity].
Qed.

Lemma forallb_of_map {A B : Type} (f : B -> bool) (g : A -> B) (l : list A) :
  forallb f (map g l) = forallb (fun x => f (g x)) l.
Proof.
  induction l as [|x l IH]; [reflexivity|].
  cbn [map forallb]. rewrite IH. reflexivity.
Qed.

Lemma shared_nth (p : list Fraction) (ps : list (list Fraction)) (i : nat) :
  (i < fold_left Nat.min (map (@length Fraction) ps) (length p))%nat ->
  nth i (map (fun x => (length (set_of_fractions x) =? 1)%nat)
             (zip_star (p :: ps))) false
  = forallb (fun q => Qeq_bool (nth i q 0%Q) (nth i p 0%Q)) ps
  /\ nth i (map (fun x => (length (set_of_fractions x) =? 1)%nat)
                (zip_star (p :: ps))) true
     = forallb (fun q => Qeq_bool (nth i q 0%Q) (nth i p 0%Q)) ps.
Proof.
  intros Hi. unfold zip_star. rewrite map_map.
  set (mn := fold_left Nat.min (map (@length Fraction) ps) (length p)) in *.
  set (f := fun i0 => (length (set_of_fractions
                                 (map (fun q => nth i0 q 0%Q) (p :: ps)))
                       =? 1)%nat).
  assert (E : forall d, nth i (map f (seq 0 mn)) d = f i).
  { intros d. rewrite (nth_indep _ d (f 0%nat))
      by (rewrite length_map, length_seq; exact Hi).
    rewrite map_nth, seq_nth by exact Hi. reflexivity. }
  rewrite !E. subst f. cbv beta. rewrite single_valued. cbn [map].
  rewrite forallb_of_map. split; reflexivity.
Qed.

Lemma count_leading_shared_spec (p : list Fraction)
      (ps : list (list Fraction)) :
  let common := _count_leading_shared (p :: ps) in
  (common <= fold_left Nat.min (map (@length Fraction) ps) (length p))%nat
  /\ (forall i q, (i < common)%nat -> In q ps ->
                  (nth i q 0 == nth i p 0)%Q)
  /\ ((common < fold_left Nat.min (map (@length Fraction) ps) (length p))%nat ->
      exists q, In q ps /\ ~ (nth common q 0 == nth common p 0)%Q).
Proof.
  cbv zeta. unfold _count_leading_shared.
  set (shared := map (fun x => (length (set_of_fractions x) =? 1)%nat)
                     (zip_star (p :: ps))).
  set (mn := fold_left Nat.min (map (@length Fraction) ps) (length p)).
  assert (Hlen : length shared = mn).
  { subst shared. unfold zip_star. rewrite !length_map, length_seq.
    reflexivity. }
  assert (Hall : forall i, (i < mn)%nat -> nth i shared false = true ->
                 forall q, In q ps -> (nth i q 0 == nth i p 0)%Q).
  { intros i Hi Htrue q Hq. subst shared.
    destruct (shared_nth p ps i Hi) as [E _]. rewrite E in Htrue.
    rewrite forallb_forall in Htrue. apply Qeq_bool_eq. apply Htrue.
    exact Hq. }
  pose proof (index_false_spec shared) as Hspec.
  destruct (index_false shared) as [count|].
  - destruct Hspec as (Hlt & Hfalse & Hbefore). rewrite Hlen in Hlt.
    split; [lia|]. split.
    + intros i q Hi Hq. apply (Hall i); [lia|apply Hbefore; exact Hi|exact Hq].
    + intros _. subst shared.
      destruct (shared_nth p ps count Hlt) as [_ E]. rewrite E in Hfalse.
      assert (Hex : existsb (fun q => negb (Qeq_bool (nth count q 0%Q)
                                                     (nth count p 0%Q))) ps
                    = true).
      { clear -Hfalse. induction ps as [|q ps IH]; [discriminate Hfalse|].
        cbn [forallb existsb] in *.
        match type of Hfalse with
        | ?b && _ = false => destruct b
        end; [apply IH; exact Hfalse|reflexivity]. }
      apply existsb_exists in Hex. destruct Hex as (q & Hq & Hne).
      exists q. split; [exact Hq|]. intros Heq.
      apply Qeq_eq_bool in Heq. apply negb_true_iff in Hne.
      exact (eq_true_false_abs _ Heq Hne).
  - rewrite Hlen. split; [lia|]. split.
    + intros i q Hi Hq. apply (Hall i); [exact Hi| |exact Hq].
      apply Hspec. rewrite Hlen. exact Hi.
    + intros Hlt. lia.
Qed.

Lemma firstn_agree (c : nat) :
  forall a b : list Q,
    (c <= length a)%nat -> (c <= length b)%nat ->
    (forall i, (i < c)%nat -> (nth i a 0 == nth i b 0)%Q) ->
    Forall2 Qeq (firstn c a) (firstn c b).
Proof.
  induction c as [|c IH]; intros a b Ha Hb H; [constructor|].
  destruct a as [|x a]; [cbn [length] in Ha; lia|].
  destruct b as [|y b]; [cbn [length] in Hb; lia|].
  cbn [firstn length] in *. constructor.
  - apply (H 0%nat). lia.
  - apply IH; try lia. intros i Hi. apply (H (S i)). lia.
Qed.

Lemma prod_agree (xs ys : list Q) :
  Forall2 Qeq xs ys -> (prod xs 1 == prod ys 1)%Q.
Proof.
  intros H. rewrite !prod_value. apply Qmult_comp; [reflexivity|].
  induction H as [|x y xs ys Hxy _ IH]; [reflexivity|].
  cbn [fold_right]. rewrite Hxy, IH. reflexivity.
Qed.

(** X22.  [_count_leading_shared] is the length of the longest common
    beginning of the factor tuples: it is at most the length of every
    tuple, all tuples agree on every position below it, and when it is
    less than the length of the shortest tuple, two tuples differ at that
    position.  The ratios written next to a chord factor each frequency
    with it: the base times the ratio written for a note is the value of
    that note's frequency. *)
Theorem chord_ratios_factor_out_shared_beginning :
  forall (first : RatioProduct) (rest : list RatioProduct),
    let frequencies := first :: rest in
    let parts := map ratios frequencies in
    let common := _count_leading_shared parts in
    Forall (fun p => (common <= length p)%nat) parts
    /\ (forall i p q, (i < common)%nat -> In p parts -> In q parts ->
                      (nth i p 0 == nth i q 0)%Q)
    /\ (Forall (fun p => (common < length p)%nat) parts ->
        exists p q, In p parts /\ In q parts
                    /\ ~ (nth common p 0 == nth common q 0)%Q)
    /\ exists base chord_freqs,
        chord_ratios frequencies = Ok (base, chord_freqs)
        /\ Forall2 (fun f r => (base * r == RatioProduct_evaluate f)%Q)
                   frequencies chord_freqs.
Proof.
  intros first rest. cbv zeta. cbn [map].
  set (p := ratios first). set (ps := map ratios rest).
  destruct (count_leading_shared_spec p ps) as (Hle & Hagree & Hmax).
  cbv zeta in Hle, Hagree, Hmax.
  set (common := _count_leading_shared (p :: ps)) in *.
  destruct (fold_min_lower (map (@length Fraction) ps) (length p))
    as [Hp Hps].
  assert (Hlens : Forall (fun q => (common <= length q)%nat) (p :: ps)).
  { constructor; [lia|]. rewrite Forall_map in Hps.
    eapply Forall_impl; [|exact Hps]. cbv beta. intros q Hq. lia. }
  assert (Hwith_first : forall i q, (i < common)%nat -> In q (p :: ps) ->
                                    (nth i q 0 == nth i p 0)%Q).
  { intros i q Hi [<-|Hq]; [reflexivity|apply Hagree; assumption]. }
  split; [exact Hlens|]. split; [|split].
  - intros i q1 q2 Hi H1 H2.
    rewrite (Hwith_first i q1 Hi H1), (Hwith_first i q2 Hi H2). reflexivity.
  - intros Hall.
    assert (Hlt : (common < fold_left Nat.min (map (@length Fraction) ps)
                                      (length p))%nat).
    { inversion Hall as [|? ? Hfirst Hrest]; subst.
      destruct (fold_min_attained (map (@length Fraction) ps) (length p))
        as [->|Hin]; [exact Hfirst|].
      apply in_map_iff in Hin. destruct Hin as (q & <- & Hq).
      rewrite Forall_forall in Hrest. apply Hrest. exact Hq. }
    destruct (Hmax Hlt) as (q & Hq & Hne).
    exists q, p. split; [right; exact Hq|]. split; [left; reflexivity|].
    exact Hne.
  - unfold chord_ratios. cbn [map]. fold p ps common.
    eexists. eexists. split; [reflexivity|].
    change (prod (skipn common p) 1%Q
            :: map (fun x => prod (skipn common x) 1%Q) ps)
      with (map (fun x => prod (skipn common x) 1%Q) (p :: ps)).
    assert (Hall : Forall (fun f =>
                      (prod (firstn common p) 1
                       * prod (skipn common (ratios f)) 1
                       == RatioProduct_evaluate f)%Q) (first :: rest)).
    { apply Forall_forall. intros f Hf.
      assert (Hq : In (ratios f) (p :: ps)).
      { destruct Hf as [<-|Hf]; [left; reflexivity|right].
        subst ps. apply in_map. exact Hf. }
      rewrite Forall_forall in Hlens.
      rewrite <- (prod_agree (firstn common (ratios f)) (firstn common p)).
      - pose proof (evaluate_app (firstn common (ratios f))
                      (skipn common (ratios f))) as E.
        rewrite firstn_skipn in E. unfold RatioProduct_evaluate in E.
        cbn [ratios] in E. unfold RatioProduct_evaluate. rewrite E.
        reflexivity.
      - apply firstn_agree; [apply Hlens; exact Hq|apply Hlens; left; reflexivity|].
        intros i Hi. apply Hwith_first; assumption. }
    change (p :: ps) with (map ratios (first :: rest)).
    rewrite map_map.
    induction Hall as [|f fs Hf _ IH]; [constructor|].
    cbn [map]. constructor; [exact Hf|exact IH].
Qed.

(** ** Notes in the pitch-bend strategy *)

Section NoteFloats.
Context {fl : Floats}.

Lemma Qred_inject_Z (k : Z) : Qred (inject_Z k) = inject_Z k.
Proof.
  unfold Qred, inject_Z.
  pose proof (Z.ggcd_gcd k 1) as Hg.
  pose proof (Z.ggcd_correct_divisors k 1) as Hd.
  change (Z.pos 1) with 1.
  destruct (Z.ggcd k 1) as [g [a b]]. cbn [fst snd] in *.
  rewrite Z.gcd_1_r in Hg. subst g. destruct Hd as [Ha Hb].
  rewrite Z.mul_1_l in Ha, Hb. subst a b. reflexivity.
Qed.

Lemma integral_ticks (t : Q) (k : Z) :
  (t == inject_Z k)%Q ->
  Qeq_bool (inject_Z (int_of_fraction (Qred t))) (Qred t) = true
  /\ int_of_fraction (Qred t) = k.
Proof.
  intros H.
  assert (E : Qred t = inject_Z k).
  { rewrite (Qred_complete _ _ H). apply Qred_inject_Z. }
  rewrite E. unfold int_of_fraction, inject_Z. cbn [Qnum Qden].
  rewrite Z.quot_1_r. split; [apply Qeq_bool_refl|reflexivity].
Qed.

Section NoteFacts.

Variable float : Type.
Variable real_frequency_is_zero : Number -> float -> bool.
Variable pitch_and_bend : Number -> float -> Z -> py (Z * Z).

Let to_midi := Midi.to_midi float real_frequency_is_zero pitch_and_bend.

(** X23.  What [Note.to_midi] returns.  The ticks are exactly the duration
    times the division 6720, and a duration for which that is not a whole
    number raises [AssertionError]; pitch and velocity lie between 0 and
    127 and the bend between 0 and 16383.  A rest of a whole number of
    ticks always converts, to pitch 0, centred bend and velocity 0; a
    sounding note gets the computed pitch and bend and the velocity
    [min(round(64 * volume), 127)]. *)
Theorem to_midi_fields :
  forall (note : Note) (f0 : float) (range : Z),
    (forall m,
        to_midi note f0 range = Ok m ->
        (inject_Z (ticks m)
         == evaluate_quantity (duration note) * inject_Z DIVISION)%Q
        /\ 0 <= pitch m <= 127
        /\ 0 <= velocity m <= 127
        /\ (exists b, bend m = Some b /\ 0 <= b <= PITCH_BEND_MAX)
        /\ (forall f,
               evaluate (frequency note) = Ok f ->
               real_frequency_is_zero f f0 = false ->
               pitch_and_bend f f0 range = Ok (pitch m, bend_of m)
               /\ velocity m
                  = Z.min (round_fraction
                             (frac_mul (evaluate_quantity (volume note))
                                       (inject_Z 64)))
                          127))
    /\ (~ (exists k : Z,
              (evaluate_quantity (duration note) * inject_Z DIVISION
               == inject_Z k)%Q) ->
        to_midi note f0 range = Raise AssertionError)
    /\ (forall (f : Number) (k : Z),
           evaluate (frequency note) = Ok f ->
           real_frequency_is_zero f f0 = true ->
           (evaluate_quantity (duration note) * inject_Z DIVISION
            == inject_Z k)%Q ->
           to_midi note f0 range
           = Ok (mkMidiNote 0 (Some PITCH_BEND_CENTER) k 0)).
Proof.
  intros note f0 range. split; [|split].
  - intros m H.
    destruct (to_midi_ok float real_frequency_is_zero pitch_and_bend
                note f0 range m H) as [Hticks Hbend].
    destruct (to_midi_range float real_frequency_is_zero pitch_and_bend
                note f0 range m H) as (Hp & Hv & Hb & _).
    split; [exact Hticks|]. split; [exact Hp|]. split; [exact Hv|].
    split; [exists (bend_of m); split; assumption|].
    intros f Hf Hz. unfold to_midi, Midi.to_midi, assert in H.
    destruct (Qeq_bool _ _); cbn [bind] in H; [|discriminate H].
    rewrite Hf in H. cbn [bind] in H. rewrite Hz in H.
    destruct (pitch_and_bend f f0 range) as [[p b]|e]; cbn [bind] in H;
      [|discriminate H].
    apply MidiNote_new_ok in H. subst m. cbn [fst snd].
    split; reflexivity.
  - apply to_midi_non_integral.
  - intros f k Hf Hz Hk. unfold to_midi, Midi.to_midi, assert, frac_mul.
    destruct (integral_ticks _ k Hk) as [-> ->]. cbn [bind].
    rewrite Hf. cbn [bind]. rewrite Hz. reflexivity.
Qed.

End NoteFacts.

End NoteFloats.

(** ** Tempering, then multiplying *)

Section TemperMultFacts.
Context {fl : Floats}.

Lemma only_rests_notes (music : Music) :
  only_rests music = true <->
  Forall (fun n => exists f, evaluate (frequency n) = Ok f
                             /\ is_zero f = true) (notes_of music).
Proof.
  induction music as [n|xs IH|xs IH] using Music_nested_ind;
    cbn [only_rests notes_of].
  - split.
    + intros H. constructor; [|constructor].
      destruct (evaluate (frequency n)) as [f|e]; [|discriminate H].
      exists f. split; [reflexivity|exact H].
    + intros H. inversion H as [|? ? (f & Hf & Hz) _]; subst.
      rewrite Hf. exact Hz.
  - induction IH as [|x xs Hx _ IHxs]; cbn [forallb flat_map].
    + split; [constructor|reflexivity].
    + rewrite andb_true_iff, Forall_app, Hx, IHxs. reflexivity.
  - induction IH as [|x xs Hx _ IHxs]; cbn [forallb flat_map].
    + split; [constructor|reflexivity].
    + rewrite andb_true_iff, Forall_app, Hx, IHxs. reflexivity.
Qed.

Lemma mapM_identity {A : Type} (f : A -> py A) (xs : list A) :
  Forall (fun x => f x = Ok x) xs -> mapM f xs = Ok xs.
Proof.
  induction 1 as [|x xs Hx _ IH]; [reflexivity|].
  cbn [mapM]. rewrite Hx, IH. reflexivity.
Qed.

Lemma apply_to_notes_identity (f : Note -> py Note) (music : Music) :
  Forall (fun n => f n = Ok n) (notes_of music) ->
  apply_to_notes f music = Ok music.
Proof.
  induction music as [n|xs IH|xs IH] using Music_nested_ind;
    cbn [notes_of apply_to_notes]; intros H.
  - inversion H as [|? ? Hn _]; subst. rewrite Hn. reflexivity.
  - rewrite mapM_identity; [reflexivity|].
    induction IH as [|x xs Hx _ IHxs]; [constructor|].
    cbn [flat_map] in H. apply Forall_app in H. destruct H as [H1 H2].
    constructor; [apply Hx; exact H1|apply IHxs; exact H2].
  - rewrite mapM_identity; [reflexivity|].
    induction IH as [|x xs Hx _ IHxs]; [constructor|].
    cbn [flat_map] in H. apply Forall_app in H. destruct H as [H1 H2].
    constructor; [apply Hx; exact H1|apply IHxs; exact H2].
Qed.

Lemma Forall2_either {A B : Type} (P : A -> Prop) (Q : B -> Prop)
      (xs : list A) (ys : list B) :
  Forall2 (fun a b => P a \/ Q b) xs ys -> Forall P xs \/ Exists Q ys.
Proof.
  induction 1 as [|x y xs ys [Hx|Hy] _ [IH|IH]].
  - left. constructor.
  - left. constructor; assumption.
  - right. apply Exists_cons_tl. exact IH.
  - right. apply Exists_cons_hd. exact Hy.
  - right. apply Exists_cons_hd. exact Hy.
Qed.

(** X24.  Tempering silence is the identity, and tempered sound can no
    longer be multiplied: [temper(music, edo=e)] returns [music] itself
    when every note is a rest; when it returns and some note is not a
    rest, the result holds a [Power] frequency and [mult_expr] with ratio
    products in front of it raises [ValueError]. *)
Theorem temper_then_mult_expr :
  forall (e : Z) (music : Music) (rs : list RatioProduct),
    (only_rests music = true -> temper (Some e) music = Ok music)
    /\ (forall music',
           temper (Some e) music = Ok music' ->
           only_rests music = false ->
           has_power_note music' = true
           /\ mult_expr (map CRatio rs ++ [CMusic music'])
              = Raise ValueError).
Proof.
  intros e music rs. cbn [temper]. split.
  - intros Hrests. apply apply_to_notes_identity.
    apply only_rests_notes in Hrests.
    eapply Forall_impl; [|exact Hrests]. cbv beta.
    intros n (f & Hf & Hz). unfold temper_note. rewrite Hf. cbn [bind].
    rewrite Hz. reflexivity.
  - intros music' H Hsound.
    assert (Hpower : has_power_note music' = true).
    { destruct (has_power_note music') eqn:Hp; [reflexivity|].
      exfalso. apply has_power_note_notes in Hp.
      apply apply_to_notes_notes in H.
      assert (Heither :
        Forall2 (fun n n' =>
                   (exists f, evaluate (frequency n) = Ok f
                              /\ is_zero f = true)
                   \/ (exists p, frequency n' = FPower p))
                (notes_of music) (notes_of music')).
      { eapply Forall2_impl; [|exact H]. cbv beta. intros n n' Hn.
        apply temper_note_shape in Hn.
        destruct Hn as (_ & _ & [(f & Hf & Hz & _)|(f & k & _ & _ & Hfreq)]).
        - left. exists f. split; assumption.
        - right. eexists. exact Hfreq. }
      apply Forall2_either in Heither. destruct Heither as [Hall|Hex].
      - apply only_rests_notes in Hall. rewrite Hall in Hsound.
        discriminate Hsound.
      - apply Exists_exists in Hex. destruct Hex as (n' & Hin & p & Hfreq).
        rewrite Forall_forall in Hp. exact (Hp n' Hin p Hfreq). }
    split; [exact Hpower|]. rewrite mult_expr_unfold.
    apply apply_to_notes_rejects; [| |exact Hpower].
    + intros n p. apply mult_note_power.
    + intros n. apply mult_note_total.
Qed.

End TemperMultFacts.

(** ** The interval table *)

Lemma interval_row (y : Q) (fs : list Q) :
  ~ (y == 0)%Q ->
  mapM (fun x => frac_div x y) fs = Ok (map (fun x => Qred (x / y)) fs).
Proof.
  intros Hy. apply mapM_all_ok. apply Forall_forall. intros x _.
  unfold frac_div. destruct (Qeq_bool y 0) eqn:E; [|reflexivity].
  apply Qeq_bool_eq in E. contradiction.
Qed.

Lemma interval_row_zero (y x : Q) (fs : list Q) :
  (y == 0)%Q ->
  mapM (fun x => frac_div x y) (x :: fs) = Raise ZeroDivisionError.
Proof.
  intros Hy. cbn [mapM]. unfold frac_div at 1.
  rewrite (Qeq_eq_bool _ _ Hy). reflexivity.
Qed.

Lemma interval_rows (fs ys : list Q) :
  Forall (fun y => ~ (y == 0)%Q) ys ->
  mapM (fun y => mapM (fun x => frac_div x y) fs) ys
  = Ok (map (fun y => map (fun x => Qred (x / y)) fs) ys).
Proof.
  intros H. apply mapM_all_ok. eapply Forall_impl; [|exact H].
  cbv beta. intros y Hy. apply interval_row. exact Hy.
Qed.

Lemma mapM_cons {A B : Type} (f : A -> py B) (x : A) (xs : list A) :
  mapM f (x :: xs)
  = bind (f x) (fun y => bind (mapM f xs) (fun ys => Ok (y :: ys))).
Proof. reflexivity. Qed.

Lemma interval_rows_zero (x : Q) (fs ys : list Q) :
  Exists (fun y => (y == 0)%Q) ys ->
  mapM (fun y => mapM (fun x => frac_div x y) (x :: fs)) ys
  = Raise ZeroDivisionError.
Proof.
  induction ys as [|y ys IH]; intros H; [inversion H|].
  rewrite mapM_cons. destruct (Qeq_bool y 0) eqn:E.
  - apply Qeq_bool_eq in E. rewrite (interval_row_zero y x fs E). reflexivity.
  - assert (Hy : ~ (y == 0)%Q).
    { intros Hy. apply Qeq_eq_bool in Hy. rewrite Hy in E. discriminate E. }
    rewrite (interval_row y (x :: fs) Hy). cbn [bind].
    inversion H as [? ? H0|? ? Hrest]; subst; [contradiction|].
    rewrite (IH Hrest). reflexivity.
Qed.

Lemma entry_of_table (fs : list Q) (i j : nat) :
  (i < length fs)%nat -> (j < length fs)%nat ->
  entry (map (fun y => map (fun x => Qred (x / y)) fs) fs) i j
  = Qred (nth j fs 0 / nth i fs 0)%Q.
Proof.
  intros Hi Hj. unfold entry.
  rewrite (nth_indep _ [] (map (fun x => Qred (x / 0)) fs))
    by (rewrite length_map; exact Hi).
  rewrite (map_nth (fun y => map (fun x => Qred (x / y)) fs) fs 0%Q i).
  rewrite (nth_indep _ 0%Q (Qred (0 / nth i fs 0%Q)))
    by (rewrite length_map; exact Hj).
  rewrite (map_nth (fun x => Qred (x / nth i fs 0%Q)) fs 0%Q j).
  reflexivity.
Qed.

(** X25.  [interval_table] of exact frequencies that are all non-zero is
    the square table whose entry in row [i] and column [j] is frequency
    [j] divided by frequency [i]: the diagonal is 1, the entries [(i, j)]
    and [(j, i)] are inverse to each other, and going from [i] to [j] and
    from [j] to [k] multiplies to the entry [(i, k)].  A zero among the
    frequencies raises [ZeroDivisionError]; no frequencies give the empty
    table. *)
Theorem interval_table_of_ratios :
  forall frequencies : list Fraction,
    (Forall (fun f => ~ (f == 0)%Q) frequencies ->
     exists table,
       interval_table frequencies = Ok table
       /\ length table = length frequencies
       /\ Forall (fun row => length row = length frequencies) table
       /\ forall i j k,
           (i < length frequencies)%nat -> (j < length frequencies)%nat ->
           (k < length frequencies)%nat ->
           (entry table i j == nth j frequencies 0 / nth i frequencies 0)%Q
           /\ (entry table i i == 1)%Q
           /\ (entry table i j * entry table j i == 1)%Q
           /\ (entry table i j * entry table j k == entry table i k)%Q)
    /\ (Exists (fun f => (f == 0)%Q) frequencies ->
        interval_table frequencies = Raise ZeroDivisionError)
    /\ (frequencies = [] -> interval_table frequencies = Ok []).
Proof.
  intros fs. split; [|split].
  - intros Hnz. eexists. split; [apply interval_rows; exact Hnz|].
    split; [apply length_map|]. split.
    + apply Forall_map. apply Forall_forall. intros y _. apply length_map.
    + intros i j k Hi Hj Hk.
      rewrite !entry_of_table by assumption. rewrite !Qred_correct.
      rewrite Forall_forall in Hnz.
      assert (Hni : ~ (nth i fs 0 == 0)%Q) by (apply Hnz, nth_In; exact Hi).
      assert (Hnj : ~ (nth j fs 0 == 0)%Q) by (apply Hnz, nth_In; exact Hj).
      assert (Hnk : ~ (nth k fs 0 == 0)%Q) by (apply Hnz, nth_In; exact Hk).
      split; [reflexivity|]. split; [field; exact Hni|].
      split; field; split; assumption.
  - intros Hz. unfold interval_table.
    destruct fs as [|x fs]; [inversion Hz|].
    apply interval_rows_zero. exact Hz.
  - intros ->. reflexivity.
Qed.

(** ** The statements at sample inputs

    The sample inputs are run with the floats filled by [exact_floats]. *)

#[local] Existing Instance exact_floats.

Lemma temper_again_overflows_witness :
  fraction_steps 12 Examples.huge = Ok 7200
  /\ power_raises 2 14400 12 = Some OverflowError
  /\ bind (temper (Some 12) Examples.huge_squared) (temper (Some 12))
     = Raise OverflowError
  /\ bind (temper (Some 12) Examples.huge_squared) (temper (Some 12))
     <> temper (Some 12) Examples.huge_squared.
Proof.
  assert (Hsteps : fraction_steps 12 Examples.huge = Ok 7200)
    by (vm_compute; reflexivity).
  assert (Hpower : power_raises 2 14400 12 = Some OverflowError)
    by (vm_compute; reflexivity).
  split; [exact Hsteps|]. split; [exact Hpower|].
  exact (proj2 (temper_again_overflows Hsteps Hpower)).
Defined.

Lemma temper_note_sums_factor_steps_witness :
  is_zero (NFraction
             (RatioProduct_evaluate (mkRatioProduct [80 # 81; 11 # 8])))
  = false
  /\ Forall2 (fun r s => (0 < r)%Q /\ fraction_steps 12 r = Ok s)
             [80 # 81; 11 # 8] [0; 6]
  /\ temper_note 12 (mkNote (FRatio (mkRatioProduct [80 # 81; 11 # 8]))
                            (QFraction 1%Q) (QFraction 1%Q))
     = Ok (mkNote (FPower (mkPower 2 6 12)) (QFraction 1%Q) (QFraction 1%Q)).
Proof.
  assert (Hsteps :
    Forall2 (fun r s => (0 < r)%Q /\ fraction_steps 12 r = Ok s)
            [80 # 81; 11 # 8] [0; 6])
    by (repeat constructor).
  split; [reflexivity|]. split; [exact Hsteps|].
  exact (proj1 temper_note_sums_factor_steps [80 # 81; 11 # 8] [0; 6]
               (QFraction 1%Q) (QFraction 1%Q) 12 eq_refl Hsteps).
Defined.

Lemma lilypond_duration_decomposition_witness :
  (0 < evaluate_quantity (duration (Examples.note_of 1%Q (3 # 5))))%Q
  /\ exists k odd_factor : Z,
       _factorize (denominator (3 # 5)) = Ok (2 ^ k, odd_factor)
       /\ 0 < rescale_of odd_factor.
Proof.
  assert (H : (0 < evaluate_quantity (duration (Examples.note_of 1%Q (3 # 5))))%Q)
    by reflexivity.
  split; [exact H|].
  destruct (lilypond_duration_decomposition (Examples.note_of 1%Q (3 # 5)) H)
    as (k & odd_factor & Hfact & _ & _ & _ & _ & Hbounds & _).
  exists k, odd_factor. split; [exact Hfact|exact Hbounds].
Defined.

Lemma chord_to_midi_emission_witness :
  NoDup [1; 2]
  /\ chord_to_midi unit Examples.never_silent Examples.flat_pitch
       (MTuple [MNote (Examples.note_of 1%Q 1%Q);
                MNote (Examples.note_of (5 # 4) 1%Q)])
       tt [1; 2] 2
     = Ok (concat
             (map render
                  [PitchBend 1 8192; PitchBend 2 8192;
                   NoteOn 1 69 64; NoteOn 2 69 64;
                   NoteOff 6720 1 69; NoteOff 0 2 69])).
Proof.
  assert (Hnodup : NoDup [1; 2]).
  { constructor; [intros [H|[]]; discriminate H|].
    constructor; [intros []|constructor]. }
  split; [exact Hnodup|].
  refine (proj1 (proj1 (chord_to_midi_emission unit Examples.never_silent
                          Examples.flat_pitch _ tt [1; 2] 2 Hnodup)
                       (mkMidiNote 69 (Some 8192) 6720 64)
                       [mkMidiNote 69 (Some 8192) 6720 64] _ _ _ _)).
  - reflexivity.
  - repeat constructor.
  - simpl. lia.
  - simpl. lia.
Defined.

Lemma variable_length_quantity_round_trip_witness :
  0 <= 6720
  /\ exists bytes : list Z,
       variable_length_quantity 6720 = Ok (concat (map (format_0X 2) bytes))
       /\ vlq_decode bytes = Some (6720, []).
Proof.
  split; [lia|].
  destruct (proj1 variable_length_quantity_round_trip 6720)
    as (bytes & Hhex & _ & _ & _ & _ & _ & Hdec); [lia|].
  exists bytes. split; [exact Hhex|exact Hdec].
Defined.

Lemma pitch_bend_channel_allocation_witness :
  is_piece Examples.wide_piece = true
  /\ raises (part_midi_tracks unit Examples.never_silent Examples.flat_pitch
               Examples.wide_piece tt None 2).
Proof.
  split; [reflexivity|].
  apply (pitch_bend_channel_allocation unit Examples.never_silent
           Examples.flat_pitch Examples.wide_piece tt None 2 eq_refl).
  reflexivity.
Defined.

Lemma rests_contribute_nothing_witness :
  only_rests Examples.rests = true
  /\ frequencies_set Examples.frac_eqb Examples.rests = Ok []
  /\ lowest Examples.frac_ltb Examples.rests = Ok NInf.
Proof.
  split; [reflexivity|].
  destruct (rests_contribute_nothing Examples.frac_eqb Examples.frac_ltb
              Examples.rests) as (_ & _ & _ & H).
  destruct (H eq_refl) as (Hset & _ & Hlow).
  split; [exact Hset|exact Hlow].
Defined.

Lemma mult_expr_rejects_tempered_witness :
  has_power_note Examples.tempered_part = true
  /\ mult_expr [CRatio (mkRatioProduct [3 # 2]);
                CMusic Examples.tempered_part]
     = Raise ValueError.
Proof.
  split; [reflexivity|].
  exact (proj1 (proj2 (mult_expr_rejects_tempered
                         [CRatio (mkRatioProduct [3 # 2])]
                         Examples.tempered_part eq_refl))
               [mkRatioProduct [3 # 2]] eq_refl).
Defined.

(** ** The further statements at sample inputs *)

Lemma place_ltb_asym (a b : Number) :
  Comparisons.place_ltb a b = true -> Comparisons.place_ltb b a = false.
Proof.
  unfold Comparisons.place_ltb.
  destruct (Comparisons.place a) as [x|], (Comparisons.place b) as [y|];
    try reflexivity; try discriminate.
  intros H. apply negb_true_iff in H. apply negb_false_iff.
  apply Qle_bool_iff.
  destruct (Qlt_le_dec y x) as [Hlt|Hle].
  - apply Qlt_le_weak in Hlt. apply Qle_bool_iff in Hlt.
    rewrite Hlt in H. discriminate H.
  - exact Hle.
Qed.

Lemma place_ltb_negtrans (a b c : Number) :
  Comparisons.place_ltb a b = false -> Comparisons.place_ltb b c = false ->
  Comparisons.place_ltb a c = false.
Proof.
  unfold Comparisons.place_ltb.
  destruct (Comparisons.place a) as [x|], (Comparisons.place b) as [y|],
           (Comparisons.place c) as [z|];
    try reflexivity; try discriminate.
  intros H1 H2. apply negb_false_iff in H1, H2. apply negb_false_iff.
  apply Qle_bool_iff in H1, H2. apply Qle_bool_iff.
  eapply Qle_trans; eassumption.
Qed.

Lemma temper_keeps_shape_witness :
  temper (Some 12) Examples.two_parts = Ok Examples.two_parts_tempered
  /\ height Examples.two_parts_tempered = height Examples.two_parts
  /\ total_duration Examples.two_parts_tempered
     = total_duration Examples.two_parts.
Proof.
  assert (H : temper (Some 12) Examples.two_parts
              = Ok Examples.two_parts_tempered) by reflexivity.
  split; [exact H|].
  destruct (temper_keeps_shape 12 Examples.two_parts
              Examples.two_parts_tempered H) as (Hh & Hd & _).
  split; [exact Hh|exact Hd].
Defined.

Lemma RatioProduct_eq_compares_factors_witness :
  RatioProduct_eq (mkRatioProduct [5 # 4; 6 # 5])
                  (ArgRatioProduct (mkRatioProduct [10 # 8; 6 # 5])) = true
  /\ (RatioProduct_evaluate (mkRatioProduct [5 # 4; 6 # 5])
      == RatioProduct_evaluate (mkRatioProduct [10 # 8; 6 # 5]))%Q.
Proof.
  split; [reflexivity|].
  destruct (RatioProduct_eq_compares_factors
              (mkRatioProduct [5 # 4; 6 # 5])
              (mkRatioProduct [10 # 8; 6 # 5]) 1%Q (mkPower 2 1 12))
    as (_ & _ & _ & _ & _ & H & _).
  apply H. reflexivity.
Defined.

Lemma mult_expr_multiplies_frequencies_witness :
  has_power_note Examples.two_parts = false
  /\ exists music',
      mult_expr (map CRatio [mkRatioProduct [3 # 2]]
                   ++ [CMusic Examples.two_parts])
      = Ok music'.
Proof.
  split; [reflexivity|].
  apply (proj1 (mult_expr_multiplies_frequencies
                  [mkRatioProduct [3 # 2]] Examples.two_parts)).
  reflexivity.
Defined.

Lemma chord_builds_simultaneous_notes_witness :
  [mkRatioProduct [1%Q]; mkRatioProduct [5 # 4]] <> []
  /\ total_duration
       (MTuple (map (fun f => MNote (mkNote (FRatio f)
                                            (QRatio (mkRatioProduct [2 # 1]))
                                            (volume_or_one None)))
                    [mkRatioProduct [1%Q]; mkRatioProduct [5 # 4]]))
     = RatioProduct_evaluate (mkRatioProduct [2 # 1]).
Proof.
  assert (Hne : [mkRatioProduct [1%Q]; mkRatioProduct [5 # 4]] <> [])
    by discriminate.
  split; [exact Hne|].
  destruct (chord_builds_simultaneous_notes
              [mkRatioProduct [1%Q]; mkRatioProduct [5 # 4]]
              (mkRatioProduct [2 # 1]) None)
    as (_ & _ & H & _).
  apply H. exact Hne.
Defined.

Lemma variable_length_quantity_self_delimiting_witness :
  0 <= 6720
  /\ vlq_decode (vlq_bytes 6720 ++ [144; 69; 64]) = Some (6720, [144; 69; 64]).
Proof.
  split; [lia|].
  destruct (proj2 (variable_length_quantity_self_delimiting 6720))
    as (_ & H & _); [lia|].
  apply (H [144; 69; 64]).
Defined.

Lemma fourteen_bit_low_byte_first_witness :
  0 <= 8192 <= PITCH_BEND_MAX
  /\ exists lo hi : Z,
      bytes_fromhex (fourteen_bit 8192) = Some [lo; hi]
      /\ lo + 128 * hi = 8192.
Proof.
  assert (Hrange : 0 <= 8192 <= PITCH_BEND_MAX)
    by (unfold PITCH_BEND_MAX; lia).
  split; [exact Hrange|].
  destruct (fourteen_bit_low_byte_first 8192)
    as (lo & hi & Hbytes & _ & _ & _ & _ & H).
  exists lo, hi. split; [exact Hbytes|apply H; exact Hrange].
Defined.

Lemma track_header_counts_bytes_witness :
  Nat.even (length END_OF_TRACK) = true
  /\ exists size : pystr,
      track_header END_OF_TRACK = Ok (str "4d54726b" ++ size).
Proof.
  split; [reflexivity|].
  destruct (proj2 (track_header_counts_bytes END_OF_TRACK) eq_refl)
    as (size & H & _).
  exists size. exact H.
Defined.

Lemma tempo_track_three_byte_tempo_witness :
  0 <= 500000 < 2 ^ 24
  /\ exists track : pystr,
      tempo_track unit (fun _ => Ok 500000) tt = Ok track
      /\ bytes_fromhex track
         = Some ([77; 84; 114; 107; 0; 0; 0; 11; 0; 255; 81; 3]
                   ++ [500000 / 2 ^ 16 mod 256; 500000 / 2 ^ 8 mod 256;
                       500000 mod 256]
                   ++ [0; 255; 47; 0]).
Proof.
  assert (Hrange : 0 <= 500000 < 2 ^ 24) by (split; [lia|reflexivity]).
  split; [exact Hrange|].
  apply (proj1 (tempo_track_three_byte_tempo unit (fun _ => Ok 500000) tt)
               500000 eq_refl Hrange).
Defined.

Lemma chord_to_midi_writes_whole_events_witness :
  Forall (fun c => 0 <= c < 16) [1; 2]
  /\ exists out : pystr,
      chord_to_midi unit Examples.never_silent Examples.flat_pitch
        (MTuple [MNote (Examples.note_of 1%Q 1%Q);
                 MNote (Examples.note_of (5 # 4) 1%Q)])
        tt [1; 2] 2
      = Ok out
      /\ Nat.even (length out) = true.
Proof.
  assert (Hch : Forall (fun c => 0 <= c < 16) [1; 2])
    by (repeat constructor; lia).
  split; [exact Hch|].
  destruct (chord_to_midi unit Examples.never_silent Examples.flat_pitch
              (MTuple [MNote (Examples.note_of 1%Q 1%Q);
                       MNote (Examples.note_of (5 # 4) 1%Q)])
              tt [1; 2] 2) as [out|e] eqn:H;
    [|vm_compute in H; discriminate H].
  exists out. split; [reflexivity|].
  destruct (chord_to_midi_writes_whole_events unit Examples.never_silent
              Examples.flat_pitch _ tt [1; 2] 2 out Hch H)
    as (m & ms & _ & _ & _ & _ & Heven).
  exact Heven.
Defined.

Lemma midi_track_is_a_chunk_witness :
  Forall (fun c => 0 <= c < 16) [1]
  /\ (forall p, Some 1 = Some p -> 1 <= p <= 256)
  /\ exists track : pystr,
      midi_track unit Examples.never_silent Examples.flat_pitch
        (MList [MNote (Examples.note_of 1%Q 1%Q)]) tt [1] (Some 1) 2
      = Ok track.
Proof.
  assert (Hch : Forall (fun c => 0 <= c < 16) [1])
    by (repeat constructor; lia).
  assert (Hprog : forall p, Some 1 = Some p -> 1 <= p <= 256)
    by (intros p Hp; injection Hp as <-; lia).
  split; [exact Hch|]. split; [exact Hprog|].
  destruct (mapM (fun x => chord_to_midi unit Examples.never_silent
                             Examples.flat_pitch x tt [1] 2)
                 [MNote (Examples.note_of 1%Q 1%Q)]) as [chords|e] eqn:H;
    [|vm_compute in H; discriminate H].
  destruct (midi_track_is_a_chunk unit Examples.never_silent
              Examples.flat_pitch
              (MList [MNote (Examples.note_of 1%Q 1%Q)]) tt [1] (Some 1) 2
              [MNote (Examples.note_of 1%Q 1%Q)] chords Hch Hprog eq_refl H)
    as (events & _ & Htrack & _).
  eexists. exact Htrack.
Defined.

Lemma part_midi_tracks_one_track_per_part_witness :
  exists tracks chans,
    part_midi_tracks unit Examples.never_silent Examples.flat_pitch
      Examples.two_parts tt None 2
    = Ok (tracks, chans)
    /\ length tracks = 2%nat /\ length chans = 2%nat.
Proof.
  destruct (part_midi_tracks unit Examples.never_silent Examples.flat_pitch
              Examples.two_parts tt None 2) as [[tracks chans]|e] eqn:H;
    [|vm_compute in H; discriminate H].
  exists tracks, chans. split; [reflexivity|].
  destruct (proj1 (part_midi_tracks_one_track_per_part unit
                     Examples.never_silent Examples.flat_pitch
                     Examples.two_parts tt None 2) tracks chans H)
    as (H1 & H2 & _).
  split; [exact H1|exact H2].
Defined.

Lemma chord_to_scala_midi_emission_witness :
  0 <= 6720
  /\ ScalaMidi.chord_to_scala_midi unit
       (fun _ _ => Ok (mkMidiNote 60 None 6720 64))
       (MNote (Examples.note_of 1%Q 1%Q)) tt 0
     = Ok (concat (map render [NoteOn 0 60 64; NoteOff 6720 0 60])).
Proof.
  split; [lia|].
  destruct (chord_to_scala_midi_emission unit
              (fun _ _ => Ok (mkMidiNote 60 None 6720 64))
              (MNote (Examples.note_of 1%Q 1%Q)) tt 0
              [mkMidiNote 60 None 6720 64] eq_refl)
    as (H & _).
  destruct (H (mkMidiNote 60 None 6720 64) [] eq_refl (Forall_nil _))
    as [Hok _].
  apply Hok. cbn [ticks]. lia.
Defined.

Lemma part_scala_midi_tracks_one_channel_per_part_witness :
  exists tracks : list pystr,
    ScalaMidi.part_scala_midi_tracks unit
      (fun _ _ => Ok (mkMidiNote 60 None 6720 64))
      (MTuple [MList [MNote (Examples.note_of 1%Q 1%Q)]; MList []]) tt
    = Ok (tracks, [[0]; [1]])
    /\ length tracks = 2%nat.
Proof.
  destruct (ScalaMidi.part_scala_midi_tracks unit
              (fun _ _ => Ok (mkMidiNote 60 None 6720 64))
              (MTuple [MList [MNote (Examples.note_of 1%Q 1%Q)]; MList []])
              tt) as [[tracks chans]|e] eqn:H;
    [|vm_compute in H; discriminate H].
  destruct (proj1 (part_scala_midi_tracks_one_channel_per_part unit
                     (fun _ _ => Ok (mkMidiNote 60 None 6720 64))
                     (MTuple [MList [MNote (Examples.note_of 1%Q 1%Q)];
                              MList []]) tt) tracks chans H)
    as (_ & Hlen & Hchans).
  exists tracks. rewrite Hchans. split; [reflexivity|exact Hlen].
Defined.

Lemma midi_file_header_then_tracks_witness :
  bytes_fromhex END_OF_TRACK = Some [0; 255; 47; 0]
  /\ Z.of_nat (length (@nil pystr)) < 65535
  /\ midi_bytes END_OF_TRACK []
     = Some ([77; 84; 104; 100; 0; 0; 0; 6; 0; 1; 0; 1; 26; 64]
               ++ [0; 255; 47; 0]).
Proof.
  assert (Htempo : bytes_fromhex END_OF_TRACK = Some [0; 255; 47; 0])
    by reflexivity.
  assert (Hn : Z.of_nat (length (@nil pystr)) < 65535) by reflexivity.
  split; [exact Htempo|]. split; [exact Hn|].
  apply (proj1 (midi_file_header_then_tracks END_OF_TRACK [] [0; 255; 47; 0]
                  [] Htempo (Forall2_nil _) Hn)).
Defined.

Lemma lowest_is_least_sounding_frequency_witness :
  exists x : Number,
    lowest Comparisons.place_ltb Examples.two_parts = Ok x
    /\ forall n f, In n (notes_of Examples.two_parts) ->
                   evaluate (frequency n) = Ok f ->
                   is_zero f = false ->
                   Comparisons.place_ltb f x = false.
Proof.
  destruct (lowest Comparisons.place_ltb Examples.two_parts) as [x|e] eqn:H;
    [|vm_compute in H; discriminate H].
  exists x. split; [reflexivity|].
  apply (lowest_is_least_sounding_frequency Comparisons.place_ltb
           Examples.two_parts x place_ltb_asym place_ltb_negtrans H).
Defined.

Lemma all_frequencies_sorted_set_witness :
  exists l : list Number,
    all_frequencies Comparisons.place_eqb Comparisons.place_ltb
      Examples.two_parts = Ok l
    /\ StronglySorted (fun a b => Comparisons.place_ltb b a = false) l.
Proof.
  destruct (all_frequencies Comparisons.place_eqb Comparisons.place_ltb
              Examples.two_parts) as [l|e] eqn:H;
    [|vm_compute in H; discriminate H].
  exists l. split; [reflexivity|].
  destruct (all_frequencies_sorted_set Comparisons.place_eqb
              Comparisons.place_ltb Examples.two_parts l
              place_ltb_asym place_ltb_negtrans H)
    as (s & _ & _ & _ & _ & Hsorted).
  exact Hsorted.
Defined.

Lemma _factorize_splits_off_twos_witness :
  0 <= 3 /\ 0 < 5 /\ Z.odd 5 = true
  /\ _factorize (2 ^ 3 * 5) = Ok (2 ^ 3, 5).
Proof.
  split; [lia|]. split; [lia|]. split; [reflexivity|].
  apply (proj1 _factorize_splits_off_twos 3 5); [lia|lia|reflexivity].
Defined.

Lemma lilypond_duration_representable_witness :
  (0 < evaluate_quantity (duration (Examples.note_of 1%Q (1 # 3))))%Q
  /\ exists s, lilypond_duration (Examples.note_of 1%Q (1 # 3)) = Ok s.
Proof.
  assert (H : (0 < evaluate_quantity
                     (duration (Examples.note_of 1%Q (1 # 3))))%Q)
    by reflexivity.
  split; [exact H|].
  destruct (proj2 (lilypond_duration_representable
                     (Examples.note_of 1%Q (1 # 3))) H)
    as (P & O & Hfact & Hiff & _).
  apply Hiff. vm_compute in Hfact. injection Hfact as <- <-.
  exists 16. reflexivity.
Defined.

Lemma chord_ratios_factor_out_shared_beginning_witness :
  Forall (fun p => (1 < length p)%nat) [[3 # 2; 5 # 4]; [3 # 2; 6 # 5]]
  /\ exists p q,
      In p [[3 # 2; 5 # 4]; [3 # 2; 6 # 5]]
      /\ In q [[3 # 2; 5 # 4]; [3 # 2; 6 # 5]]
      /\ ~ (nth 1 p 0 == nth 1 q 0)%Q.
Proof.
  assert (Hlen : Forall (fun p => (1 < length p)%nat)
                        [[3 # 2; 5 # 4]; [3 # 2; 6 # 5]])
    by (repeat constructor).
  split; [exact Hlen|].
  destruct (chord_ratios_factor_out_shared_beginning
              (mkRatioProduct [3 # 2; 5 # 4])
              [mkRatioProduct [3 # 2; 6 # 5]])
    as (_ & _ & H & _).
  apply H. exact Hlen.
Defined.

Lemma to_midi_fields_witness :
  exists m : MidiNote,
    to_midi unit Examples.never_silent Examples.flat_pitch
      (Examples.note_of 1%Q 1%Q) tt 2
    = Ok m
    /\ 0 <= pitch m <= 127 /\ 0 <= velocity m <= 127.
Proof.
  destruct (to_midi unit Examples.never_silent Examples.flat_pitch
              (Examples.note_of 1%Q 1%Q) tt 2) as [m|e] eqn:H;
    [|vm_compute in H; discriminate H].
  exists m. split; [reflexivity|].
  destruct (proj1 (to_midi_fields unit Examples.never_silent
                     Examples.flat_pitch (Examples.note_of 1%Q 1%Q) tt 2)
                  m H)
    as (_ & Hp & Hv & _).
  split; [exact Hp|exact Hv].
Defined.

Lemma temper_then_mult_expr_witness :
  only_rests Examples.rests = true
  /\ temper (Some 12) Examples.rests = Ok Examples.rests.
Proof.
  split; [reflexivity|].
  apply (proj1 (temper_then_mult_expr 12 Examples.rests [])). reflexivity.
Defined.

Lemma interval_table_of_ratios_witness :
  Forall (fun f => ~ (f == 0)%Q) [1%Q; 5 # 4; 3 # 2]
  /\ exists table,
      interval_table [1%Q; 5 # 4; 3 # 2] = Ok table
      /\ (entry table 1 2 * entry table 2 1 == 1)%Q.
Proof.
  assert (Hnz : Forall (fun f => ~ (f == 0)%Q) [1%Q; 5 # 4; 3 # 2])
    by (repeat constructor; discriminate).
  split; [exact Hnz|].
  destruct (proj1 (interval_table_of_ratios [1%Q; 5 # 4; 3 # 2]) Hnz)
    as (table & Htable & _ & _ & Hcells).
  exists table. split; [exact Htable|].
  destruct (Hcells 1%nat 2%nat 0%nat) as (_ & _ & Hinv & _);
    [cbn [length]; lia|cbn [length]; lia|cbn [length]; lia|].
  exact Hinv.
Defined.
